(** * A ustar streaming codec: TarStream / UnTarStream

    Shallow embedding of the tar encoder ([TarStream]), its helpers
    ([parsePathname], [validTarStreamOptions]) and the tar decoder
    ([UnTarStream]), followed by the properties established about them.

    Conventions of the embedding
    - a [Uint8Array] is a [list Z] whose elements are in [0, 255];
    - a JavaScript string is the [list Z] of its UTF-16 code units;
    - a JavaScript number is a [number]: an exactly representable integer,
      [NaN] or an infinity (the codec only handles byte counts, seconds and
      octal fields, all far below 2^53);
    - array and string indices are [Z], because the source relies on the
      value [-1] returned by [indexOf] / [lastIndexOf] and on negative
      arguments of [slice];
    - a [throw] is the [Throw] result, and a loop of the source is a
      fuel-indexed [Fixpoint] whose exhaustion is the [Timeout] result. *)

From Stdlib Require Import String Ascii ZArith List Lia Bool.
Import ListNotations.
Open Scope Z_scope.

(* ------------------------------------------------------------------ *)
(** ** JavaScript values *)

Module JS.

Definition jsstring := list Z.
Definition bytes := list Z.

(** The code units of an ASCII literal. *)
Definition lit (s : string) : jsstring :=
  map (fun a => Z.of_N (N_of_ascii a)) (list_ascii_of_string s).

Definition len {A} (l : list A) : Z := Z.of_nat (length l).

Inductive number :=
| Int (z : Z)
| NaN
| PosInf
| NegInf.

Inductive result (A : Type) :=
| Ok (a : A)
| Throw (msg : string)
| Timeout.
Arguments Ok {A} a.
Arguments Throw {A} msg.
Arguments Timeout {A}.

Definition bind {A B} (r : result A) (k : A -> result B) : result B :=
  match r with
  | Ok a => k a
  | Throw m => Throw m
  | Timeout => Timeout
  end.

(** [x < y] on numbers, as the source's comparisons use it. *)
Definition lt (x y : number) : bool :=
  match x, y with
  | NaN, _ | _, NaN => false
  | Int a, Int b => a <? b
  | NegInf, NegInf => false
  | NegInf, _ => true
  | _, PosInf => match x with PosInf => false | _ => true end
  | _, _ => false
  end.

(** Relative index resolution shared by [slice] on arrays and strings. *)
Definition rel (n i : Z) : Z :=
  if i <? 0 then Z.max (n + i) 0 else Z.min i n.

Definition slice {A} (l : list A) (a b : Z) : list A :=
  let s := rel (len l) a in
  let e := rel (len l) b in
  firstn (Z.to_nat (e - s)) (skipn (Z.to_nat s) l).

Definition slice_from {A} (l : list A) (a : Z) : list A :=
  slice l a (len l).

Fixpoint find_first (x : Z) (l : list Z) (idx : Z) : Z :=
  match l with
  | [] => -1
  | y :: r => if y =? x then idx else find_first x r (idx + 1)
  end.

Fixpoint find_last (x : Z) (l : list Z) (idx acc : Z) : Z :=
  match l with
  | [] => acc
  | y :: r => find_last x r (idx + 1) (if y =? x then idx else acc)
  end.

(** [arr.indexOf(x, from)] *)
Definition indexOf (x : Z) (l : list Z) (from : Z) : Z :=
  let k := if 0 <=? from then from else Z.max (len l + from) 0 in
  find_first x (skipn (Z.to_nat k) l) k.

(** [arr.lastIndexOf(x, from)]; the one-argument form starts at the end. *)
Definition lastIndexOf_from (x : Z) (l : list Z) (from : Z) : Z :=
  let k := if 0 <=? from then Z.min from (len l - 1) else len l + from in
  find_last x (firstn (Z.to_nat (k + 1)) l) 0 (-1).

Definition lastIndexOf (x : Z) (l : list Z) : Z :=
  lastIndexOf_from x l (len l - 1).

(** [str.split('/')] *)
Fixpoint split_slash (s : jsstring) : list jsstring :=
  match s with
  | [] => [[]]
  | c :: r =>
      if c =? 47 then [] :: split_slash r
      else match split_slash r with
           | seg :: segs => (c :: seg) :: segs
           | [] => [[c]]
           end
  end.

(** [parts.join('/')] *)
Fixpoint join_slash (parts : list jsstring) : jsstring :=
  match parts with
  | [] => []
  | [x] => x
  | x :: r => x ++ 47 :: join_slash r
  end.

Definition nonempty (s : jsstring) : bool :=
  match s with [] => false | _ => true end.

(** [str.padStart(n, c)] and [str.padEnd(n, c)] for a one-unit filler. *)
Definition padStart (n : nat) (c : Z) (s : jsstring) : jsstring :=
  repeat c (n - length s) ++ s.

Definition padEnd (n : nat) (c : Z) (s : jsstring) : jsstring :=
  s ++ repeat c (n - length s).

(** *** TextEncoder *)

Definition is_high (u : Z) : bool := (0xD800 <=? u) && (u <=? 0xDBFF).
Definition is_low (u : Z) : bool := (0xDC00 <=? u) && (u <=? 0xDFFF).

Definition utf8_of_cp (c : Z) : bytes :=
  if c <? 0x80 then [c]
  else if c <? 0x800 then [0xC0 + c / 64; 0x80 + c mod 64]
  else if c <? 0x10000 then
    [0xE0 + c / 4096; 0x80 + (c / 64) mod 64; 0x80 + c mod 64]
  else
    [0xF0 + c / 262144; 0x80 + (c / 4096) mod 64;
     0x80 + (c / 64) mod 64; 0x80 + c mod 64].

(** [new TextEncoder().encode(s)]: UTF-8, a lone surrogate becomes U+FFFD. *)
Fixpoint encode (s : jsstring) : bytes :=
  match s with
  | [] => []
  | u :: rest =>
      if is_high u then
        match rest with
        | l :: rest' =>
            if is_low l
            then utf8_of_cp (0x10000 + (u - 0xD800) * 1024 + (l - 0xDC00))
                   ++ encode rest'
            else utf8_of_cp 0xFFFD ++ encode rest
        | [] => utf8_of_cp 0xFFFD
        end
      else if is_low u then utf8_of_cp 0xFFFD ++ encode rest
      else utf8_of_cp u ++ encode rest
  end.

(** *** TextDecoder *)

Definition within (lo hi b : Z) : bool := (lo <=? b) && (b <=? hi).

(** The UTF-8 decoder of the Encoding Standard, in replacement mode: an ill
    formed sequence yields U+FFFD and decoding resumes at the offending
    byte. *)
Fixpoint decode_cps (bs : bytes) : list Z :=
  match bs with
  | [] => []
  | b :: r =>
      if b <=? 0x7F then b :: decode_cps r
      else if within 0xC2 0xDF b then
        match r with
        | c1 :: r1 =>
            if within 0x80 0xBF c1
            then ((b - 0xC0) * 64 + (c1 - 0x80)) :: decode_cps r1
            else 0xFFFD :: decode_cps r
        | [] => [0xFFFD]
        end
      else if within 0xE0 0xEF b then
        match r with
        | c1 :: r1 =>
            if within (if b =? 0xE0 then 0xA0 else 0x80)
                      (if b =? 0xED then 0x9F else 0xBF) c1
            then
              match r1 with
              | c2 :: r2 =>
                  if within 0x80 0xBF c2
                  then ((b - 0xE0) * 4096 + (c1 - 0x80) * 64 + (c2 - 0x80))
                         :: decode_cps r2
                  else 0xFFFD :: decode_cps r1
              | [] => [0xFFFD]
              end
            else 0xFFFD :: decode_cps r
        | [] => [0xFFFD]
        end
      else if within 0xF0 0xF4 b then
        match r with
        | c1 :: r1 =>
            if within (if b =? 0xF0 then 0x90 else 0x80)
                      (if b =? 0xF4 then 0x8F else 0xBF) c1
            then
              match r1 with
              | c2 :: r2 =>
                  if within 0x80 0xBF c2
                  then
                    match r2 with
                    | c3 :: r3 =>
                        if within 0x80 0xBF c3
                        then ((b - 0xF0) * 262144 + (c1 - 0x80) * 4096
                              + (c2 - 0x80) * 64 + (c3 - 0x80))
                               :: decode_cps r3
                        else 0xFFFD :: decode_cps r2
                    | [] => [0xFFFD]
                    end
                  else 0xFFFD :: decode_cps r1
              | [] => [0xFFFD]
              end
            else 0xFFFD :: decode_cps r
        | [] => [0xFFFD]
        end
      else 0xFFFD :: decode_cps r
  end.

Definition utf16_of_cp (c : Z) : jsstring :=
  if c <? 0x10000 then [c]
  else [0xD800 + (c - 0x10000) / 1024; 0xDC00 + (c - 0x10000) mod 1024].

(** [bs] starts with the byte order mark EF BB BF. *)
Definition has_bom (bs : bytes) : bool :=
  match bs with
  | b0 :: b1 :: b2 :: _ => (b0 =? 0xEF) && (b1 =? 0xBB) && (b2 =? 0xBF)
  | _ => false
  end.

(** [new TextDecoder().decode(bs)]: a leading byte order mark is dropped. *)
Definition decode (bs : bytes) : jsstring :=
  flat_map utf16_of_cp (decode_cps (if has_bom bs then skipn 3 bs else bs)).

(** [s.replaceAll('\0', '')] *)
Definition strip_nul (s : jsstring) : jsstring :=
  filter (fun u => negb (u =? 0)) s.

(** *** Numbers and octal text *)

(** White space and line terminators, as [parseInt] and [trimEnd] skip
    them. *)
Definition is_ws (u : Z) : bool :=
  within 9 13 u || (u =? 32) || (u =? 0xA0) || (u =? 0x1680)
  || within 0x2000 0x200A u || (u =? 0x2028) || (u =? 0x2029)
  || (u =? 0x202F) || (u =? 0x205F) || (u =? 0x3000) || (u =? 0xFEFF).

Fixpoint trimStart (s : jsstring) : jsstring :=
  match s with
  | u :: r => if is_ws u then trimStart r else s
  | [] => []
  end.

Definition trimEnd (s : jsstring) : jsstring := rev (trimStart (rev s)).

Definition is_octal (u : Z) : bool := within 48 55 u.

(** The value of the longest prefix of octal digits, [None] when empty. *)
Fixpoint octal_prefix (s : jsstring) (acc : option Z) : option Z :=
  match s with
  | u :: r =>
      if is_octal u
      then octal_prefix r
             (Some (8 * match acc with Some a => a | None => 0 end + (u - 48)))
      else acc
  | [] => acc
  end.

(** An optional sign in front of a numeral. *)
Definition split_sign (s : jsstring) : bool * jsstring :=
  match s with
  | 45 :: r => (true, r)
  | 43 :: r => (false, r)
  | _ => (false, s)
  end.

(** [parseInt(s, 8)] *)
Definition parseInt8 (s : jsstring) : number :=
  let '(neg, s) := split_sign (trimStart s) in
  match octal_prefix s None with
  | Some v => Int (if neg then - v else v)
  | None => NaN
  end.

(** The octal digits of a non-negative integer, at most [n] of them. *)
Fixpoint octal_digits (n : nat) (z : Z) : jsstring :=
  match n with
  | O => []
  | S n' =>
      if z <? 8 then [48 + z]
      else octal_digits n' (z / 8) ++ [48 + z mod 8]
  end.

Definition octal_of_nonneg (z : Z) : jsstring :=
  octal_digits (S (Z.to_nat (Z.log2 z))) z.

(** [x.toString(8)] *)
Definition toString8 (x : number) : jsstring :=
  match x with
  | Int z => if z <? 0 then 45 :: octal_of_nonneg (- z) else octal_of_nonneg z
  | NaN => lit "NaN"
  | PosInf => lit "Infinity"
  | NegInf => lit "-Infinity"
  end.

Definition is_NaN (x : number) : bool :=
  match x with NaN => true | _ => false end.

(** Truthiness of a number and of a string. *)
Definition truthy_num (x : number) : bool :=
  match x with
  | Int z => negb (z =? 0)
  | NaN => false
  | _ => true
  end.

Definition sum (l : bytes) : Z := fold_left Z.add l 0.

(** [dst.set(src, off)]: a [RangeError] when [src] does not fit. *)
Definition set (dst src : bytes) (off : nat) : result bytes :=
  if (off + List.length src <=? List.length dst)%nat
  then Ok (firstn off dst ++ src ++ skipn (off + List.length src) dst)
  else Throw "RangeError: offset is out of bounds".

End JS.
Import JS.

(* ------------------------------------------------------------------ *)
(** ** The pathname splitter *)

(** The first three statements of [parsePathname]. *)
Definition normalize (pathname : jsstring) (isDirectory : bool) : jsstring :=
  let p := join_slash (filter nonempty (split_slash pathname)) in
  let p := match p with
           | 46 :: 47 :: r => r
           | _ => p
           end in
  if isDirectory then p ++ [47] else p.

(** One turn of [for (; i > 0; --i) { ... }]: either the [break] with the
    value of [i] it leaves, or the value of [i] after the [--i]. *)
Inductive turn :=
| Break (i : Z)
| Again (i : Z).

Definition scan_turn (name : bytes) (i : Z) : turn :=
  let i := lastIndexOf_from 47 name i + 1 in
  if 100 <? len (slice_from name (i + 1))
  then Break (Z.max 0 (indexOf 47 name (i + 1)))
  else Again (i - 1).

Fixpoint scan (fuel : nat) (name : bytes) (i : Z) : option Z :=
  if 0 <? i then
    match fuel with
    | O => None
    | S fuel' =>
        match scan_turn name i with
        | Break j => Some j
        | Again j => scan fuel' name j
        end
    end
  else Some i.

Definition parsePathname (fuel : nat) (pathname : jsstring)
    (isDirectory : bool) : result (bytes * bytes) :=
  let pathname := normalize pathname isDirectory in
  let name := encode pathname in
  if len name <=? 100 then Ok ([], name)
  else if 256 <? len name
  then Throw "Invalid Pathname! Pathname cannot exceed 256 bytes."
  else
    let i := Z.max 0 (lastIndexOf 47 name) in
    if 100 <? len (slice_from pathname (i + 1))
    then Throw "Invalid Filename! Filename cannot exceed 100 bytes."
    else
      match scan fuel name i with
      | None => Timeout
      | Some i =>
          let prefix := slice name 0 i in
          if 155 <? len prefix
          then Throw "Invalid Pathname! Pathname needs to be split-able on a forward slash separator into [155, 100] bytes respectively."
          else Ok (prefix, slice_from name (i + 1))
      end.

(* ------------------------------------------------------------------ *)
(** ** Encoder input *)

Record TarStreamOptions := {
  mode : option jsstring;
  uid : option jsstring;
  gid : option jsstring;
  mtime : option number;
  uname : option jsstring;
  gname : option jsstring;
  devmajor : option jsstring;
  devminor : option jsstring
}.

(** [pathname: string | [Uint8Array, Uint8Array]] *)
Inductive pathname_t :=
| PathString (s : jsstring)
| PathPair (prefix name : bytes).

Record TarStreamFile := {
  f_pathname : pathname_t;
  size : number;
  sizeExtension : bool;
  iterable : list bytes;
  f_options : option TarStreamOptions
}.

Record TarStreamDir := {
  d_pathname : pathname_t;
  d_options : option TarStreamOptions
}.

Inductive TarStreamInput :=
| File (f : TarStreamFile)
| Dir (d : TarStreamDir).

Definition pathname (chunk : TarStreamInput) : pathname_t :=
  match chunk with
  | File f => f_pathname f
  | Dir d => d_pathname d
  end.

Definition options (chunk : TarStreamInput) : option TarStreamOptions :=
  match chunk with
  | File f => f_options f
  | Dir d => d_options d
  end.

(** ['size' in chunk] *)
Definition has_size (chunk : TarStreamInput) : bool :=
  match chunk with
  | File _ => true
  | Dir _ => false
  end.

(* ------------------------------------------------------------------ *)
(** ** validTarStreamOptions *)

(** [/^[0-7+$]/.test(s)] *)
Definition re_octal_head (s : jsstring) : bool :=
  match s with
  | c :: _ => within 48 55 c || (c =? 43) || (c =? 36)
  | [] => false
  end.

(** [/^[\x00-\x7F]*$/.test(s)] *)
Definition re_ascii (s : jsstring) : bool :=
  forallb (within 0 0x7F) s.

(** [/^ [0 - 7 + $] /.test(s)]: a space, one of the characters of the class
    (['0'], [' '], ['7'], ['+'], ['$']), a space. *)
Definition re_spaced (s : jsstring) : bool :=
  match s with
  | 32 :: c :: 32 :: _ =>
      (c =? 48) || (c =? 32) || (c =? 55) || (c =? 43) || (c =? 36)
  | _ => false
  end.

(** [field && test(field)] for an optional string field. *)
Definition and_str (field : option jsstring) (test : jsstring -> bool)
  : bool :=
  match field with
  | Some s => nonempty s && test s
  | None => false
  end.

Definition validTarStreamOptions (o : TarStreamOptions) : bool :=
  and_str (mode o) (fun s => negb (re_octal_head s))
  || and_str (uid o) (fun s => negb (re_octal_head s))
  || and_str (gid o) (fun s => negb (re_octal_head s))
  || match mtime o with
     | Some m => truthy_num m && is_NaN m
     | None => false
     end
  || and_str (uname o) re_ascii
  || and_str (gname o) re_ascii
  || and_str (devmajor o) (fun s => negb (re_spaced s))
  || and_str (devminor o) (fun s => negb (re_octal_head s)).

(* ------------------------------------------------------------------ *)
(** ** TarStream: the generator behind the encoder *)

Definition size_rejected (f : TarStreamFile) : bool :=
  lt (size f) (Int 0)
  || lt (Int (8 ^ (if sizeExtension f then 12 else 11))) (size f)
  || is_NaN (size f).

Definition ends_with_slash (name : bytes) : bool :=
  match slice_from name (-1) with
  | c :: _ => c =? 47
  | [] => false
  end.

(** The pair [prefix, name] of a chunk: computed by [parsePathname] for a
    string, taken as given (after the suffix check) otherwise. *)
Definition split_pathname (fuel : nat) (chunk : TarStreamInput)
  : result (bytes * bytes) :=
  match pathname chunk with
  | PathString s => parsePathname fuel s (negb (has_size chunk))
  | PathPair prefix name =>
      if Bool.eqb (has_size chunk) (ends_with_slash name)
      then Throw (String.append "Pre-parsed pathname for "
                 (String.append (if has_size chunk then "directory" else "file")
                    " is not suffixed correctly. Directories should end in a forward slash, while files shouldn't."))
      else Ok (prefix, name)
  end.

(** The string under which a chunk is remembered in [paths]. *)
Definition joined (prefix name : bytes) : jsstring :=
  if nonempty prefix then decode prefix ++ 47 :: decode name else decode name.

Fixpoint str_eqb (a b : jsstring) : bool :=
  match a, b with
  | [], [] => true
  | x :: a', y :: b' => (x =? y) && str_eqb a' b'
  | _, _ => false
  end.

(** [paths.includes(p)] *)
Definition includes (paths : list jsstring) (p : jsstring) : bool :=
  existsb (str_eqb p) paths.

(** [chunk.options?.field ?? fallback] *)
Definition field_or {A} (o : option TarStreamOptions)
    (field : TarStreamOptions -> option A) (fallback : A) : A :=
  match o with
  | Some o => match field o with Some v => v | None => fallback end
  | None => fallback
  end.

Definition typeflag_of (chunk : TarStreamInput) : Z :=
  if has_size chunk then 48 else 53.

Definition extended (chunk : TarStreamInput) : bool :=
  match chunk with
  | File f => sizeExtension f
  | Dir _ => false
  end.

Definition mode_text (chunk : TarStreamInput) : jsstring :=
  padStart 6 48
    (field_or (options chunk) mode
       (if typeflag_of chunk =? 53 then lit "755" else lit "644"))
  ++ [32; 0].

Definition uid_text (chunk : TarStreamInput) : jsstring :=
  padStart 6 48 (field_or (options chunk) uid []) ++ [32; 0].

Definition gid_text (chunk : TarStreamInput) : jsstring :=
  padStart 6 48 (field_or (options chunk) gid []) ++ [32; 0].

Definition size_text (chunk : TarStreamInput) : jsstring :=
  padStart (if extended chunk then 12 else 11) 48
    (match chunk with
     | File f => toString8 (size f)
     | Dir _ => []
     end)
  ++ (if extended chunk then [] else [32]).

(** [now] is [Math.floor(new Date().getTime() / 1000)], read only when the
    chunk supplies no [mtime]. *)
Definition mtime_text (now : Z) (chunk : TarStreamInput) : jsstring :=
  padStart 11 48
    (toString8 (field_or (options chunk) mtime (Int now)))
  ++ [32].

Definition tail_text (chunk : TarStreamInput) : jsstring :=
  [typeflag_of chunk]
  ++ repeat 0 100
  ++ lit "ustar" ++ [0]
  ++ lit "00"
  ++ padEnd 32 0 (field_or (options chunk) uname [])
  ++ padEnd 32 0 (field_or (options chunk) gname [])
  ++ padEnd 8 0 (field_or (options chunk) devmajor [])
  ++ padEnd 8 0 (field_or (options chunk) devminor []).

(** The text written at offset 100 of the header. *)
Definition template (now : Z) (chunk : TarStreamInput) : jsstring :=
  mode_text chunk ++ uid_text chunk ++ gid_text chunk
  ++ size_text chunk ++ mtime_text now chunk
  ++ repeat 32 8
  ++ tail_text chunk.

Definition checksum_text (h : bytes) : jsstring :=
  padStart 6 48 (toString8 (Int (sum h))) ++ [0].

Definition make_header (now : Z) (chunk : TarStreamInput)
    (prefix name : bytes) : result bytes :=
  bind (set (repeat 0 512%nat) name 0) (fun h =>
  bind (set h (encode (template now chunk)) 100) (fun h =>
  bind (set h prefix 345) (fun h =>
  set h (encode (checksum_text h)) 148))).

Definition num_eqb (x y : number) : bool :=
  match x, y with
  | Int a, Int b => a =? b
  | PosInf, PosInf | NegInf, NegInf => true
  | _, _ => false
  end.

(** [chunk.size % 512] for the sizes that reach the padding step. *)
Definition rem512 (x : number) : Z :=
  match x with
  | Int z => Z.rem z 512
  | _ => 0
  end.

(** What the generator yields for one file after its header: the chunks of
    the iterable, then the size check, then the padding. *)
Definition body_of (f : TarStreamFile) : list bytes * result unit :=
  if num_eqb (size f) (Int (len (concat (iterable f))))
  then (iterable f
        ++ (if rem512 (size f) =? 0 then []
            else [repeat 0 (Z.to_nat (512 - rem512 (size f)))]),
        Ok tt)
  else (iterable f,
        Throw "Invalid Tarball! Provided size did not match bytes read from iterable.").

(** One turn of [for await (const chunk of readable)]: the chunks yielded and
    either the new value of [paths] or the exception that ends the
    generator. *)
Definition gen_turn (fuel : nat) (now : Z) (paths : list jsstring)
    (chunk : TarStreamInput) : list bytes * result (list jsstring) :=
  if match options chunk with
     | Some o => negb (validTarStreamOptions o)
     | None => false
     end
  then ([], Throw "Invalid Options Provided!")
  else if match chunk with
          | File f => size_rejected f
          | Dir _ => false
          end
  then ([], Throw "Invalid Size Provided! Size cannot exceed 8 GiBs by default or 64 GiBs with sizeExtension set to true.")
  else
    match split_pathname fuel chunk with
    | Throw m => ([], Throw m)
    | Timeout => ([], Timeout)
    | Ok (prefix, name) =>
        let p := joined prefix name in
        if includes paths p then ([], Ok paths)
        else
          let paths := paths ++ [p] in
          match make_header now chunk prefix name with
          | Throw m => ([], Throw m)
          | Timeout => ([], Timeout)
          | Ok header =>
              match chunk with
              | Dir _ => ([header], Ok paths)
              | File f =>
                  let '(out, r) := body_of f in
                  (header :: out, bind r (fun _ => Ok paths))
              end
          end
    end.

(** The generator [gen]: everything it yields and how it ends.  [clock k] is
    the wall clock, in seconds, while the [k]-th chunk is processed. *)
Fixpoint gen (fuel : nat) (clock : nat -> Z) (k : nat)
    (paths : list jsstring) (inputs : list TarStreamInput)
  : list bytes * result unit :=
  match inputs with
  | [] => ([repeat 0 1024%nat], Ok tt)
  | chunk :: rest =>
      match gen_turn fuel (clock k) paths chunk with
      | (out, Ok paths) =>
          let '(out', r) := gen fuel clock (S k) paths rest in
          (out ++ out', r)
      | (out, Throw m) => (out, Throw m)
      | (out, Timeout) => (out, Timeout)
      end
  end.

(** [controller.enqueue(chunk)] on a byte stream: an empty chunk is a
    [TypeError]. *)
Definition enqueue_ok (chunk : bytes) : bool := nonempty chunk.

(** The readable side of [TarStream], read with a default reader: every pull
    forwards the next chunk of the generator. *)
Fixpoint readable (out : list bytes) (r : result unit)
  : list bytes * result unit :=
  match out with
  | [] => ([], r)
  | c :: out' =>
      if enqueue_ok c
      then let '(cs, r') := readable out' r in (c :: cs, r')
      else ([], Throw "TypeError: chunk is empty")
  end.

Definition TarStream (fuel : nat) (clock : nat -> Z)
    (inputs : list TarStreamInput) : list bytes * result unit :=
  let '(out, r) := gen fuel clock 0 [] inputs in readable out r.

(* ------------------------------------------------------------------ *)
(** ** TarStream: the readable side read with a BYOB reader

    The branch of [pull] taken when [controller.byobRequest.view] is
    present; the view spans its whole buffer. *)

(** The underlying source of the encoder's readable side: the bytes kept
    from the chunk that did not fit the last buffer, then what the
    generator has still to yield and how it ends. *)
Record source := {
  leftover : bytes;
  pending : list bytes;
  ending : result unit
}.

(** What a [pull] does to a BYOB request: [respond] with the bytes written
    to the buffer, [respond] and [close], or a rejection because the
    generator threw; [Stuck] when the generator never settles. *)
Inductive response :=
| Respond (written : bytes)
| RespondAndClose (written : bytes)
| Reject (msg : string)
| Stuck.

(** [while (offset < buffer.length) { ... }] for a buffer of [n] bytes whose
    first [offset] bytes are [written]. *)
Fixpoint fill (n : nat) (written kept : bytes) (chunks : list bytes)
    (fin : result unit) : response * source :=
  if (List.length written <? n)%nat then
    match chunks with
    | [] =>
        (match fin with
         | Ok _ => RespondAndClose written
         | Throw m => Reject m
         | Timeout => Stuck
         end,
         {| leftover := kept; pending := []; ending := fin |})
    | value :: rest =>
        if (n - List.length written <? List.length value)%nat
        then (Respond (written
                       ++ slice value 0 (Z.of_nat (n - List.length written))),
              {| leftover :=
                   slice_from value (Z.of_nat (n - List.length written));
                 pending := rest; ending := fin |})
        else fill n (written ++ value) kept rest fin
    end
  else (Respond written,
        {| leftover := []; pending := chunks; ending := fin |}).

(** [pull] when [controller.byobRequest.view] is a buffer of [n] bytes. *)
Definition byob_pull (n : nat) (s : source) : response * source :=
  if (n <? List.length (leftover s))%nat
  then (Respond (slice (leftover s) 0 (Z.of_nat n)),
        {| leftover := slice_from (leftover s) (Z.of_nat n);
           pending := pending s; ending := ending s |})
  else fill n (leftover s) (leftover s) (pending s) (ending s).

(** The readable side of [TarStream] read with a BYOB reader that offers
    buffers of the sizes [ns], one after the other: the views it gets back
    and, once the stream has ended, how. *)
Fixpoint byob_reads (ns : list nat) (s : source)
  : list bytes * option (result unit) :=
  match ns with
  | [] => ([], None)
  | n :: ns' =>
      match byob_pull n s with
      | (Respond v, s') =>
          let '(vs, e) := byob_reads ns' s' in (v :: vs, e)
      | (RespondAndClose v, _) => ([v], Some (Ok tt))
      | (Reject m, _) => ([], Some (Throw m))
      | (Stuck, _) => ([], Some Timeout)
      end
  end.

Definition TarStream_byob (fuel : nat) (clock : nat -> Z)
    (inputs : list TarStreamInput) (ns : list nat)
  : list bytes * option (result unit) :=
  let '(out, r) := gen fuel clock 0 [] inputs in
  byob_reads ns {| leftover := []; pending := out; ending := r |}.

(* ------------------------------------------------------------------ *)
(** ** UnTarStream: the two transforms in front of the decoder *)

(** First transform: regroups the incoming chunks into 512-byte blocks;
    [x] is the carry. *)
Definition slicer_transform (x chunk : bytes) : list bytes * bytes :=
  let y := x ++ chunk in
  (map (fun k => slice y (512 * Z.of_nat k) (512 * Z.of_nat k + 512))
       (seq 0 (Z.to_nat (len y / 512))),
   if len y mod 512 =? 0 then [] else slice_from y (- (len y mod 512))).

Fixpoint slicer (x : bytes) (chunks : list bytes) : list bytes * bytes :=
  match chunks with
  | [] => ([], x)
  | c :: r =>
      let '(blocks, x) := slicer_transform x c in
      let '(blocks', x) := slicer x r in
      (blocks ++ blocks', x)
  end.

Definition slicer_flush (x : bytes) : result unit :=
  if nonempty x then Throw "Tarball has an unexpected number of bytes.!!"
  else Ok tt.

(** Second transform: holds back the last two blocks. *)
Definition trimmer_transform (x : list bytes) (chunk : bytes)
  : list bytes * list bytes :=
  let x := x ++ [chunk] in
  if (List.length x =? 3)%nat
  then match x with
       | first :: x' => ([first], x')
       | [] => ([], [])
       end
  else ([], x).

Fixpoint trimmer (x : list bytes) (blocks : list bytes)
  : list bytes * list bytes :=
  match blocks with
  | [] => ([], x)
  | b :: r =>
      let '(out, x) := trimmer_transform x b in
      let '(out', x) := trimmer x r in
      (out ++ out', x)
  end.

Definition trimmer_flush (x : list bytes) : result unit :=
  if (List.length x <? 2)%nat then Throw "Tarball was too small to be valid."
  else if negb (forallb (forallb (fun b => b =? 0)) x)
  then Throw "Tarball has invalid ending."
  else Ok tt.

(** What [reader] hands out for the chunks written to the decoder: the
    forwarded blocks, then the end of the stream ([upstream] is how the
    writer ended). *)
Definition reader (chunks : list bytes) (upstream : result unit)
  : list bytes * result unit :=
  let '(blocks, x) := slicer [] chunks in
  let '(forwarded, x') := trimmer [] blocks in
  (forwarded,
   bind upstream (fun _ =>
   bind (slicer_flush x) (fun _ => trimmer_flush x'))).

(* ------------------------------------------------------------------ *)
(** ** UnTarStream: headers *)

(** The fields that only [PosixUstarFormat] has. *)
Record ustar_fields := {
  h_magic : jsstring;
  h_version : jsstring;
  h_uname : jsstring;
  h_gname : jsstring;
  h_devmajor : jsstring;
  h_devminor : jsstring;
  h_prefix : jsstring
}.

(** [TarStreamHeader = OldStyleFormat | PosixUstarFormat]: the common
    fields, and [h_ustar] when the block carries the ustar magic. *)
Record TarStreamHeader := {
  h_name : jsstring;
  h_mode : jsstring;
  h_uid : jsstring;
  h_gid : jsstring;
  h_size : number;
  h_mtime : number;
  h_checksum : jsstring;
  h_typeflag : jsstring;
  h_linkname : jsstring;
  h_ustar : option ustar_fields;
  h_pad : bytes
}.

Definition ustar_magic : bytes := [117; 115; 116; 97; 114; 0; 48; 48].

(** The checksum test of the top-level [pull]. *)
Definition checksum_ok (value : bytes) : bool :=
  match set value (repeat 32 8%nat) 148 with
  | Ok checksum =>
      num_eqb (Int (sum checksum)) (parseInt8 (decode (slice value 148 154)))
  | _ => false
  end.

Definition parse_header (value : bytes) : TarStreamHeader :=
  let typeflag := decode (slice value 156 157) in
  let ustar := str_eqb (slice value 257 265) ustar_magic in
  {| h_name := strip_nul (decode (slice value 0 100));
     h_mode := decode (slice value 100 106);
     h_uid := decode (slice value 108 114);
     h_gid := decode (slice value 116 122);
     h_size := parseInt8 (trimEnd (decode (slice value 124 136)));
     h_mtime := parseInt8 (decode (slice value 136 147));
     h_checksum := decode (slice value 148 154);
     h_typeflag := if str_eqb typeflag [0] then [48] else typeflag;
     h_linkname := strip_nul (decode (slice value 157 257));
     h_ustar :=
       if ustar then
         Some {| h_magic := decode (slice value 257 263);
                 h_version := decode (slice value 263 265);
                 h_uname := strip_nul (decode (slice value 265 297));
                 h_gname := strip_nul (decode (slice value 297 329));
                 h_devmajor := strip_nul (decode (slice value 329 337));
                 h_devminor := strip_nul (decode (slice value 337 345));
                 h_prefix := strip_nul (decode (slice value 345 500)) |}
       else None;
     h_pad := if ustar then slice_from value 500 else slice_from value 257 |}.

Arguments parse_header : simpl never.
Arguments checksum_ok : simpl never.

(** [('prefix' in header && header.prefix.length ? header.prefix + '/' : '')
    + header.name] *)
Definition entry_pathname (h : TarStreamHeader) : jsstring :=
  match h_ustar h with
  | Some u =>
      if nonempty (h_prefix u) then h_prefix u ++ 47 :: h_name h
      else h_name h
  | None => h_name h
  end.

(* ------------------------------------------------------------------ *)
(** ** UnTarStream: the decoder as a transition system

    The decoder is driven by its consumer.  Its code runs in atomic
    sections that end at an [await]; each section is one transition below.
    The consumer reads the stream of an entry with a default reader
    ([BodyPull]) or with a BYOB reader ([BodyPullInto], where
    [controller.byobRequest.view] is present and spans a buffer of the
    given length). *)

Inductive status :=
| Readable
| Closed
| Errored (msg : string).

(** The life of the [ReadableStream] of one entry. *)
Inductive body_state :=
| Open
| Done
| Failed (msg : string)
| Cancelling
| Cancelled
| CancelFailed (msg : string).

(** The closure of the stream of one entry: [size], [i], [lock], whether a
    [pull] is suspended at [await reader.read()], the chunks (or, for a BYOB
    reader, the views) handed to the consumer so far, [this.leftover], and,
    while a [pull] is suspended inside the loop of the BYOB branch, the
    length of its [buffer] with the bytes written to it so far (their number
    is [offset]). *)
Record body_stream := {
  b_size : number;
  b_i : number;
  b_lock : bool;
  b_pulling : bool;
  b_state : body_state;
  b_chunks : list bytes;
  b_leftover : bytes;
  b_buffer : option (nat * bytes)
}.

Record TarStreamEntry := {
  e_pathname : jsstring;
  e_header : TarStreamHeader;
  e_readable : option body_stream
}.

Record decoder := {
  input : list bytes;
  input_end : result unit;
  header : option TarStreamHeader;
  cancelled : bool;
  polling : bool;
  top : status;
  entries : list TarStreamEntry
}.

Inductive event :=
| Pull
| Proceed
| TopCancel
| BodyPull (k : nat)
| BodyPullInto (k n : nat)
| BodyResume (k : nat)
| BodyCancel (k : nat)
| BodyDrain (k : nat).

Arguments entry_pathname : simpl never.

(** [Math.ceil(size / 512)] *)
Definition ceil512 (x : number) : number :=
  match x with
  | Int z => Int (- ((- z) / 512))
  | other => other
  end.

Definition dec (x : number) : number :=
  match x with
  | Int z => Int (z - 1)
  | other => other
  end.

Definition positive_num (x : number) : bool := lt (Int 0) x.

Inductive read_result :=
| Value (v : bytes)
| EndOfStream
| Rejected (msg : string).

(** [await reader.read()] *)
Definition read (d : decoder) : read_result * decoder :=
  match input d with
  | v :: rest =>
      (Value v,
       {| input := rest; input_end := input_end d; header := header d;
          cancelled := cancelled d; polling := polling d; top := top d;
          entries := entries d |})
  | [] =>
      (match input_end d with
       | Ok _ => EndOfStream
       | Throw m => Rejected m
       | Timeout => Rejected "upstream never ends"
       end, d)
  end.

Definition set_header (h : option TarStreamHeader) (d : decoder) : decoder :=
  {| input := input d; input_end := input_end d; header := h;
     cancelled := cancelled d; polling := polling d; top := top d;
     entries := entries d |}.

Definition set_top (t : status) (d : decoder) : decoder :=
  {| input := input d; input_end := input_end d; header := header d;
     cancelled := cancelled d; polling := polling d; top := t;
     entries := entries d |}.

Definition set_polling (p : bool) (d : decoder) : decoder :=
  {| input := input d; input_end := input_end d; header := header d;
     cancelled := cancelled d; polling := p; top := top d;
     entries := entries d |}.

Definition set_entries (es : list TarStreamEntry) (d : decoder) : decoder :=
  {| input := input d; input_end := input_end d; header := header d;
     cancelled := cancelled d; polling := polling d; top := top d;
     entries := es |}.

(** [reader.cancel()] *)
Definition cancel_reader (d : decoder) : decoder :=
  {| input := []; input_end := Ok tt; header := header d;
     cancelled := cancelled d; polling := polling d; top := top d;
     entries := entries d |}.

Definition is_readable (t : status) : bool :=
  match t with Readable => true | _ => false end.

(** [controller.close()] and [controller.error(..)] only act on a stream
    that is still readable. *)
Definition finish_top (t : status) (d : decoder) : decoder :=
  if is_readable (top d) then set_top t d else d.

Fixpoint put_body (k : nat) (b : body_stream) (es : list TarStreamEntry)
  : list TarStreamEntry :=
  match es, k with
  | e :: r, O =>
      {| e_pathname := e_pathname e; e_header := e_header e;
         e_readable := Some b |} :: r
  | e :: r, S k' => e :: put_body k' b r
  | [], _ => []
  end.

Definition body_in (es : list TarStreamEntry) (k : nat)
  : option body_stream :=
  match nth_error es k with
  | Some e => e_readable e
  | None => None
  end.

(** The stream of the [k]-th entry, when it has one. *)
Definition body_at (k : nat) (d : decoder) : option body_stream :=
  body_in (entries d) k.

Definition update_body (k : nat) (b : body_stream) (d : decoder) : decoder :=
  set_entries (put_body k b (entries d)) d.

Definition new_body (h : TarStreamHeader) : body_stream :=
  {| b_size := h_size h; b_i := ceil512 (h_size h); b_lock := false;
     b_pulling := false; b_state := Open; b_chunks := [];
     b_leftover := []; b_buffer := None |}.

Definition is_open (s : body_state) : bool :=
  match s with Open => true | _ => false end.

Definition is_cancelling (s : body_state) : bool :=
  match s with Cancelling => true | _ => false end.

(** The top-level [pull] once its [while (header != undefined)] loop is
    over. *)
Definition proceed (d : decoder) : decoder :=
  match read d with
  | (EndOfStream, d) => finish_top Closed d
  | (Rejected m, d) => finish_top (Errored m) d
  | (Value value, d) =>
      if negb (checksum_ok value)
      then finish_top
             (Errored "Invalid Tarball. Header failed to pass checksum.") d
      else
        let h := parse_header value in
        let d := set_header (Some h) d in
        if negb (is_readable (top d)) then d
        else if str_eqb (h_typeflag h) [48] then
          set_entries
            (entries d ++
             [{| e_pathname := entry_pathname h; e_header := h;
                 e_readable := Some (new_body h) |}]) d
        else
          set_header None
            (set_entries
               (entries d ++
                [{| e_pathname := entry_pathname h; e_header := h;
                    e_readable := None |}]) d)
  end.

(** The [else] branch of the [pull] of an entry's stream: nothing is left
    to read. *)
Definition body_close (k : nat) (b : body_stream) (d : decoder) : decoder :=
  let d := set_header None d in
  let d := if cancelled d then cancel_reader d else d in
  update_body k
    {| b_size := b_size b; b_i := b_i b; b_lock := b_lock b;
       b_pulling := false; b_state := Done; b_chunks := b_chunks b;
       b_leftover := b_leftover b; b_buffer := None |} d.

(** The [pull] of an entry's stream for a default reader, up to its
    [await]. *)
Definition body_pull (k : nat) (b : body_stream) (d : decoder) : decoder :=
  if positive_num (b_i b) then
    update_body k
      {| b_size := b_size b; b_i := b_i b; b_lock := true;
         b_pulling := true; b_state := b_state b;
         b_chunks := b_chunks b;
         b_leftover := b_leftover b; b_buffer := None |} d
  else body_close k b d.

(** The [pull] of an entry's stream for a BYOB request whose buffer has [n]
    bytes, up to its first [await]: it answers from [leftover] when that is
    longer than the buffer, and otherwise copies [leftover] and enters the
    loop [while (offset < buffer.length)]. *)
Definition body_pull_into (k n : nat) (b : body_stream) (d : decoder)
  : decoder :=
  if positive_num (b_i b) then
    if (n <? List.length (b_leftover b))%nat then
      update_body k
        {| b_size := b_size b; b_i := b_i b; b_lock := true;
           b_pulling := false; b_state := b_state b;
           b_chunks := b_chunks b ++ [slice (b_leftover b) 0 (Z.of_nat n)];
           b_leftover := slice_from (b_leftover b) (Z.of_nat n);
           b_buffer := None |} d
    else if (List.length (b_leftover b) <? n)%nat then
      update_body k
        {| b_size := b_size b; b_i := b_i b; b_lock := true;
           b_pulling := true; b_state := b_state b;
           b_chunks := b_chunks b;
           b_leftover := b_leftover b;
           b_buffer := Some (n, b_leftover b) |} d
    else
      update_body k
        {| b_size := b_size b; b_i := b_i b; b_lock := false;
           b_pulling := false; b_state := b_state b;
           b_chunks := b_chunks b ++ [b_leftover b];
           b_leftover := []; b_buffer := None |} d
  else body_close k b d.

(** The rest of the [pull] for a default reader, once [reader.read()] has
    settled. *)
Definition body_resume (k : nat) (b : body_stream) (d : decoder) : decoder :=
  match read d with
  | (EndOfStream, d) =>
      update_body k
        {| b_size := b_size b; b_i := b_i b; b_lock := b_lock b;
           b_pulling := false;
           b_state := if is_open (b_state b)
                      then Failed "Tarball ended unexpectedly."
                      else b_state b;
           b_chunks := b_chunks b;
           b_leftover := b_leftover b; b_buffer := None |}
        (set_header None d)
  | (Rejected m, d) =>
      update_body k
        {| b_size := b_size b; b_i := b_i b; b_lock := b_lock b;
           b_pulling := false;
           b_state := if is_open (b_state b) then Failed m else b_state b;
           b_chunks := b_chunks b;
           b_leftover := b_leftover b; b_buffer := None |} d
  | (Value value, d) =>
      let chunk := if num_eqb (b_i b) (Int 1)
                   then slice value 0 (rem512 (b_size b))
                   else value in
      let ok := is_open (b_state b) && enqueue_ok chunk in
      update_body k
        {| b_size := b_size b; b_i := dec (b_i b); b_lock := false;
           b_pulling := false;
           b_state := if is_open (b_state b) && negb (enqueue_ok chunk)
                      then Failed "TypeError: chunk is empty"
                      else b_state b;
           b_chunks := if ok then b_chunks b ++ [chunk] else b_chunks b;
           b_leftover := b_leftover b; b_buffer := None |} d
  end.

(** One turn of the loop of the BYOB branch, once [reader.read()] has
    settled; [written] is what the buffer of [n] bytes holds so far.  The
    loop tests the buffer only, not [i].  On a stream that was cancelled in
    the meantime [controller.byobRequest] is [null], so that [respond]
    throws and what follows it does not run. *)
Definition body_resume_into (k n : nat) (written : bytes) (b : body_stream)
    (d : decoder) : decoder :=
  match read d with
  | (EndOfStream, d) =>
      update_body k
        {| b_size := b_size b; b_i := b_i b; b_lock := false;
           b_pulling := false;
           b_state := if is_open (b_state b) then Done else b_state b;
           b_chunks := if is_open (b_state b) && nonempty written
                       then b_chunks b ++ [written] else b_chunks b;
           b_leftover := b_leftover b; b_buffer := None |}
        (set_header None d)
  | (Rejected m, d) =>
      update_body k
        {| b_size := b_size b; b_i := b_i b; b_lock := b_lock b;
           b_pulling := false;
           b_state := if is_open (b_state b) then Failed m else b_state b;
           b_chunks := b_chunks b;
           b_leftover := b_leftover b; b_buffer := None |} d
  | (Value value, d) =>
      let value := if num_eqb (b_i b) (Int 1)
                   then slice value 0 (rem512 (b_size b))
                   else value in
      let room := (n - List.length written)%nat in
      if (room <? List.length value)%nat then
        update_body k
          {| b_size := b_size b; b_i := dec (b_i b); b_lock := false;
             b_pulling := false; b_state := b_state b;
             b_chunks := if is_open (b_state b)
                         then b_chunks b
                              ++ [written ++ slice value 0 (Z.of_nat room)]
                         else b_chunks b;
             b_leftover := if is_open (b_state b)
                           then slice_from value (Z.of_nat room)
                           else b_leftover b;
             b_buffer := None |} d
      else if (List.length (written ++ value) <? n)%nat then
        update_body k
          {| b_size := b_size b; b_i := dec (b_i b); b_lock := b_lock b;
             b_pulling := true; b_state := b_state b;
             b_chunks := b_chunks b;
             b_leftover := b_leftover b;
             b_buffer := Some (n, written ++ value) |} d
      else
        update_body k
          {| b_size := b_size b; b_i := dec (b_i b); b_lock := false;
             b_pulling := false; b_state := b_state b;
             b_chunks := if is_open (b_state b)
                         then b_chunks b ++ [written ++ value]
                         else b_chunks b;
             b_leftover := []; b_buffer := None |} d
  end.

(** One turn of [while (i-- > 0)] in [cancel], or its [finally]. *)
Definition body_drain (k : nat) (b : body_stream) (d : decoder) : decoder :=
  let after s d :=
    update_body k
      {| b_size := b_size b; b_i := dec (b_i b); b_lock := b_lock b;
         b_pulling := b_pulling b; b_state := s;
         b_chunks := b_chunks b;
         b_leftover := b_leftover b; b_buffer := b_buffer b |} d in
  if positive_num (b_i b) then
    match read d with
    | (Value _, d) => after Cancelling d
    | (EndOfStream, d) =>
        after (CancelFailed "Tarball ended unexpectedly.") (set_header None d)
    | (Rejected m, d) => after (CancelFailed m) (set_header None d)
    end
  else after Cancelled (set_header None d).

(** The transitions; [None] when the event cannot happen in that state.  A
    BYOB request always has a buffer of at least one byte. *)
Definition step (e : event) (d : decoder) : option decoder :=
  match e with
  | Pull =>
      if is_readable (top d) && negb (polling d)
      then Some (set_polling true d) else None
  | Proceed =>
      match polling d, header d with
      | true, None => Some (proceed (set_polling false d))
      | _, _ => None
      end
  | TopCancel =>
      if is_readable (top d)
      then Some
             {| input := input d; input_end := input_end d;
                header := header d; cancelled := true;
                polling := polling d; top := Closed;
                entries := entries d |}
      else None
  | BodyPull k =>
      match body_at k d with
      | Some b =>
          if is_open (b_state b) && negb (b_pulling b)
          then Some (body_pull k b d) else None
      | None => None
      end
  | BodyPullInto k n =>
      match body_at k d with
      | Some b =>
          if is_open (b_state b) && negb (b_pulling b) && (0 <? n)%nat
          then Some (body_pull_into k n b d) else None
      | None => None
      end
  | BodyResume k =>
      match body_at k d with
      | Some b =>
          if b_pulling b
          then Some match b_buffer b with
                    | Some (n, written) => body_resume_into k n written b d
                    | None => body_resume k b d
                    end
          else None
      | None => None
      end
  | BodyCancel k =>
      match body_at k d with
      | Some b =>
          if is_open (b_state b)
          then Some (update_body k
                       {| b_size := b_size b; b_i := b_i b;
                          b_lock := b_lock b; b_pulling := b_pulling b;
                          b_state := Cancelling;
                          b_chunks := b_chunks b;
                          b_leftover := b_leftover b;
                          b_buffer := b_buffer b |} d)
          else None
      | None => None
      end
  | BodyDrain k =>
      match body_at k d with
      | Some b =>
          if is_cancelling (b_state b) && negb (b_lock b)
          then Some (body_drain k b d) else None
      | None => None
      end
  end.

(** The decoder after a sequence of events, when each of them can happen
    in its turn. *)
Fixpoint run (evs : list event) (d : decoder) : option decoder :=
  match evs with
  | [] => Some d
  | e :: evs' =>
      match step e d with
      | Some d' => run evs' d'
      | None => None
      end
  end.

(** The decoder once [chunks] have been written to it. *)
Definition UnTarStream (chunks : list bytes) (upstream : result unit)
  : decoder :=
  let '(blocks, fin) := reader chunks upstream in
  {| input := blocks; input_end := fin; header := None; cancelled := false;
     polling := false; top := Readable; entries := [] |}.

(** A consumer that takes the entries one after the other and reads the
    stream of each to its end with a default reader: the event it causes
    next, if any. *)
Definition next_event (d : decoder) : option event :=
  let k := (List.length (entries d) - 1)%nat in
  match body_at k d with
  | Some {| b_state := Open; b_pulling := p |} =>
      Some (if p then BodyResume k else BodyPull k)
  | _ =>
      if is_readable (top d) then
        if polling d then
          match header d with
          | None => Some Proceed
          | Some _ => None
          end
        else Some Pull
      else None
  end.

Fixpoint consume (fuel : nat) (d : decoder) : decoder :=
  match fuel with
  | O => d
  | S fuel' =>
      match next_event d with
      | Some e =>
          match step e d with
          | Some d' => consume fuel' d'
          | None => d
          end
      | None => d
      end
  end.

(** What that consumer has seen of an entry. *)
Definition seen (e : TarStreamEntry)
  : jsstring * number * option (bytes * body_state) :=
  (e_pathname e, h_size (e_header e),
   match e_readable e with
   | Some b => Some (concat (b_chunks b), b_state b)
   | None => None
   end).

(* ================================================================== *)
(** * Properties *)

(** ** Arrays *)

Section Arrays.

Lemma len_nonneg {A} (l : list A) : 0 <= len l.
Proof. unfold len. lia. Qed.

Lemma len_app {A} (l1 l2 : list A) : len (l1 ++ l2) = len l1 + len l2.
Proof. unfold len. rewrite length_app. lia. Qed.

Lemma len_cons {A} (x : A) (l : list A) : len (x :: l) = len l + 1.
Proof. unfold len. simpl. lia. Qed.

Lemma find_last_snoc (x : Z) (l : list Z) :
  forall idx acc, find_last x (l ++ [x]) idx acc = idx + len l.
Proof.
  induction l as [|y l IH]; intros idx acc; simpl.
  - rewrite Z.eqb_refl. unfold len. simpl. lia.
  - rewrite IH, len_cons. lia.
Qed.

Lemma find_last_hit (x : Z) (l : list Z) :
  forall idx acc r,
    find_last x l idx acc = r -> r <> acc ->
    exists l1 l2, l = l1 ++ x :: l2 /\ r = idx + len l1.
Proof.
  induction l as [|y l IH]; intros idx acc r H Hne; simpl in H.
  - congruence.
  - destruct (Z.eq_dec r (if y =? x then idx else acc)) as [E|E].
    + destruct (Z.eqb_spec y x) as [->|].
      * exists [], l. split; [reflexivity|]. unfold len. simpl. lia.
      * congruence.
    + destruct (IH _ _ _ H E) as (l1 & l2 & -> & ->).
      exists (y :: l1), l2. split; [reflexivity|]. rewrite len_cons. lia.
Qed.

Lemma firstn_all_len {A} (l : list A) : firstn (Z.to_nat (len l)) l = l.
Proof. unfold len. rewrite Nat2Z.id. apply firstn_all. Qed.

(** Searching backwards from the position [lastIndexOf] has just returned
    finds that position again. *)
Lemma lastIndexOf_from_fix (x : Z) (l : list Z) :
  0 <= lastIndexOf x l ->
  lastIndexOf_from x l (lastIndexOf x l) = lastIndexOf x l
  /\ lastIndexOf x l < len l.
Proof.
  intros Hi.
  assert (Hl : lastIndexOf x l = find_last x l 0 (-1)).
  { unfold lastIndexOf, lastIndexOf_from.
    destruct (Z.leb_spec 0 (len l - 1)).
    - rewrite Z.min_id. replace (len l - 1 + 1) with (len l) by lia.
      now rewrite firstn_all_len.
    - assert (len l = 0) by (pose proof (len_nonneg l); lia).
      destruct l; [reflexivity|]. rewrite len_cons in *.
      pose proof (len_nonneg l). lia. }
  destruct (find_last_hit x l 0 (-1) _ (eq_sym Hl)) as (l1 & l2 & -> & Hr);
    [lia|].
  rewrite Hr, len_app, len_cons. pose proof (len_nonneg l1).
  pose proof (len_nonneg l2). split; [|lia].
  unfold lastIndexOf_from.
  destruct (Z.leb_spec 0 (0 + len l1)); [|lia].
  rewrite len_app, len_cons.
  rewrite Z.min_l by lia.
  replace (Z.to_nat (0 + len l1 + 1)) with (List.length l1 + 1)%nat
    by (unfold len; lia).
  rewrite firstn_app.
  replace (List.length l1 + 1 - List.length l1)%nat with 1%nat by lia.
  rewrite firstn_all2 by lia. simpl.
  rewrite find_last_snoc. lia.
Qed.

Lemma len_slice_from {A} (l : list A) (a : Z) :
  0 <= a -> len (slice_from l a) = Z.max 0 (len l - a).
Proof.
  intros Ha. unfold slice_from, slice, rel.
  pose proof (len_nonneg l).
  destruct (Z.ltb_spec a 0); [lia|].
  destruct (Z.ltb_spec (len l) 0); [lia|].
  rewrite Z.min_id. unfold len in *.
  rewrite length_firstn, length_skipn. lia.
Qed.

End Arrays.

(* ------------------------------------------------------------------ *)
(** ** The pathname splitter *)

Section Splitter.

(** A turn of the scan that leaves [i] unchanged is repeated for ever. *)
Lemma scan_stuck (name : bytes) (i : Z) :
  0 < i -> scan_turn name i = Again i ->
  forall fuel, scan fuel name i = None.
Proof.
  intros Hi Hturn fuel. induction fuel as [|fuel IH]; simpl.
  - destruct (Z.ltb_spec 0 i); [reflexivity|lia].
  - destruct (Z.ltb_spec 0 i); [|lia]. now rewrite Hturn.
Qed.

(** The scan starts on the last ['/'], moves one past it, and the [--i]
    brings it back. *)
Lemma scan_turn_last_slash (name : bytes) :
  0 <= lastIndexOf 47 name ->
  len name - lastIndexOf 47 name - 2 <= 100 ->
  scan_turn name (lastIndexOf 47 name) = Again (lastIndexOf 47 name).
Proof.
  intros Hi Hshort. unfold scan_turn.
  destruct (lastIndexOf_from_fix 47 name Hi) as [-> Hlt].
  rewrite len_slice_from by lia.
  destruct (Z.ltb_spec 100 (Z.max 0 (len name - (lastIndexOf 47 name + 1 + 1))));
    [lia|].
  f_equal. lia.
Qed.

(** Every pathname of 101 to 256 bytes with a ['/'] after which at most 100
    bytes (and 100 code units) follow sends [parsePathname] into a scan that
    never ends. *)
Lemma parsePathname_diverges (pathname : jsstring) (isDirectory : bool) :
  let p := normalize pathname isDirectory in
  let name := encode p in
  100 < len name <= 256 ->
  0 < lastIndexOf 47 name ->
  len (slice_from p (lastIndexOf 47 name + 1)) <= 100 ->
  len name - lastIndexOf 47 name - 2 <= 100 ->
  forall fuel, parsePathname fuel pathname isDirectory = Timeout.
Proof.
  intros p name Hlen Hi Hstr Hbytes fuel. unfold parsePathname.
  fold p. fold name.
  destruct (Z.leb_spec (len name) 100); [lia|].
  destruct (Z.ltb_spec 256 (len name)); [lia|].
  rewrite Z.max_r by lia.
  destruct (Z.ltb_spec 100 (len (slice_from p (lastIndexOf 47 name + 1))));
    [lia|].
  rewrite scan_stuck; auto.
  apply scan_turn_last_slash; lia.
Qed.

Lemma parsePathname_short (fuel : nat) (pathname : jsstring)
    (isDirectory : bool) :
  len (encode (normalize pathname isDirectory)) <= 100 ->
  parsePathname fuel pathname isDirectory
  = Ok ([], encode (normalize pathname isDirectory)).
Proof.
  intros H. unfold parsePathname.
  destruct (Z.leb_spec (len (encode (normalize pathname isDirectory))) 100);
    [reflexivity|lia].
Qed.

Lemma parsePathname_too_long (fuel : nat) (pathname : jsstring)
    (isDirectory : bool) :
  256 < len (encode (normalize pathname isDirectory)) ->
  parsePathname fuel pathname isDirectory
  = Throw "Invalid Pathname! Pathname cannot exceed 256 bytes.".
Proof.
  intros H. unfold parsePathname.
  destruct (Z.leb_spec (len (encode (normalize pathname isDirectory))) 100);
    [lia|].
  destruct (Z.ltb_spec 256 (len (encode (normalize pathname isDirectory))));
    [reflexivity|lia].
Qed.

(** ['p' x 150 + '/' + 'n' x 90] *)
Definition path_150_90 : jsstring :=
  repeat 112 150 ++ 47 :: repeat 110 90.

(** ['a/' + 'b' x 100] *)
Definition path_1_100 : jsstring := 97 :: 47 :: repeat 98 100.

(** C3 (as the code has it).  On the pathname made of a 150-byte prefix, a
    ['/'] and a 90-byte final component, [parsePathname] does not return the
    split: whatever the number of turns allowed, the backward scan is still
    running, for a file as for a directory of that shape.  The two other
    cases of the claim are [parsePathname_short] and
    [parsePathname_too_long]. *)
Theorem parsePathname_150_90_never_returns :
  forall fuel, parsePathname fuel path_150_90 false = Timeout.
Proof.
  apply parsePathname_diverges; vm_compute; intuition congruence.
Qed.

(** C9 (as the code has it).  The backward scan of [parsePathname] does not
    terminate on ['a/' + 'b' x 100], a pathname of 102 bytes: no amount of
    fuel lets the function return or throw. *)
Theorem parsePathname_scan_never_ends :
  forall fuel, parsePathname fuel path_1_100 false = Timeout.
Proof.
  apply parsePathname_diverges; vm_compute; intuition congruence.
Qed.

End Splitter.

(* ------------------------------------------------------------------ *)
(** ** Validation of sizes and options *)

Section Validation.

(** The size test lets through exactly the integers from 0 to the bound,
    bound included. *)
Lemma size_rejected_false_iff (f : TarStreamFile) :
  size_rejected f = false <->
  exists z, size f = Int z
            /\ 0 <= z <= 8 ^ (if sizeExtension f then 12 else 11).
Proof.
  unfold size_rejected. split.
  - intros H. apply orb_false_iff in H as [H Hnan].
    apply orb_false_iff in H as [Hneg Hbig].
    destruct (size f) as [z| | |]; simpl in *; try discriminate.
    exists z. split; [reflexivity|].
    apply Z.ltb_ge in Hneg. apply Z.ltb_ge in Hbig. lia.
  - intros (z & -> & H0 & Hb). simpl.
    destruct (Z.ltb_spec z 0); [lia|].
    destruct (Z.ltb_spec (8 ^ (if sizeExtension f then 12 else 11)) z);
      [lia|reflexivity].
Qed.

(** ['a'], declared 8^11 bytes long, no [sizeExtension], no options. *)
Definition file_of_8_pow_11 : TarStreamFile :=
  {| f_pathname := PathString [97]; size := Int (8 ^ 11);
     sizeExtension := false; iterable := []; f_options := None |}.

(** C4 (as the code has it).  A size equal to the bound, 8^11 without
    [sizeExtension] and 8^12 with it, passes the size test.  For 8^11 the
    header then carries a 12-digit size in the 11-digit field: every later
    field moves one byte to the right, offset 156 holds a space, and the
    decoder reads a type flag that is not ['0']. *)
Theorem size_equal_to_bound_is_accepted :
  (forall p (ext : bool) body o,
      size_rejected {| f_pathname := p;
                       size := Int (8 ^ (if ext then 12 else 11));
                       sizeExtension := ext; iterable := body;
                       f_options := o |} = false)
  /\ exists h,
      make_header 0 (File file_of_8_pow_11) [] [97] = Ok h
      /\ slice h 124 136 = [49; 48; 48; 48; 48; 48; 48; 48; 48; 48; 48; 48]
      /\ slice h 156 157 = [32]
      /\ checksum_ok h = true
      /\ h_typeflag (parse_header h) = [32].
Proof.
  split.
  - intros p [] body o; reflexivity.
  - eexists. split; [vm_compute; reflexivity|].
    repeat split; vm_compute; reflexivity.
Qed.

Definition only_mode (m : jsstring) : TarStreamOptions :=
  {| mode := Some m; uid := None; gid := None; mtime := None;
     uname := None; gname := None; devmajor := None; devminor := None |}.

(** C5 (as the code has it).  The encoder throws on the options bag
    [{ mode: '644' }], whose only field is octal, and on the empty bag; it
    accepts the bag [{ mode: '9' }], whose only field is not octal, and goes
    on to emit a header. *)
Theorem octal_options_are_rejected :
  (forall fuel now paths p,
      gen_turn fuel now paths
        (Dir {| d_pathname := p;
                d_options := Some (only_mode (lit "644")) |})
      = ([], Throw "Invalid Options Provided!"))
  /\ (forall fuel now paths p,
         gen_turn fuel now paths
           (Dir {| d_pathname := p;
                   d_options :=
                     Some {| mode := None; uid := None; gid := None;
                             mtime := None; uname := None; gname := None;
                             devmajor := None; devminor := None |} |})
         = ([], Throw "Invalid Options Provided!"))
  /\ validTarStreamOptions (only_mode (lit "9")) = true
  /\ exists h,
      gen_turn 0 0 []
        (Dir {| d_pathname := PathString (lit "d");
                d_options := Some (only_mode (lit "9")) |})
      = ([h], Ok [lit "d/"]).
Proof.
  repeat split; try reflexivity.
  eexists; vm_compute; reflexivity.
Qed.

End Validation.

(* ------------------------------------------------------------------ *)
(** ** The clock *)

Section Clock.

(** The chunk carries an options bag with an [mtime]. *)
Definition pins_mtime (chunk : TarStreamInput) : bool :=
  match options chunk with
  | Some o => match mtime o with Some _ => true | None => false end
  | None => false
  end.

Lemma mtime_text_pinned (chunk : TarStreamInput) (now now' : Z) :
  pins_mtime chunk = true -> mtime_text now chunk = mtime_text now' chunk.
Proof.
  unfold pins_mtime, mtime_text, field_or.
  destruct (options chunk) as [o|]; [|discriminate].
  destruct (mtime o); [reflexivity|discriminate].
Qed.

Lemma gen_turn_pinned (fuel : nat) (now now' : Z) (paths : list jsstring)
    (chunk : TarStreamInput) :
  pins_mtime chunk = true ->
  gen_turn fuel now paths chunk = gen_turn fuel now' paths chunk.
Proof.
  intros H. unfold gen_turn, make_header, template.
  now rewrite (mtime_text_pinned chunk now now' H).
Qed.

Lemma gen_pinned (fuel : nat) (clock clock' : nat -> Z)
    (inputs : list TarStreamInput) :
  forallb pins_mtime inputs = true ->
  forall k k' paths,
    gen fuel clock k paths inputs = gen fuel clock' k' paths inputs.
Proof.
  induction inputs as [|chunk rest IH]; intros H k k' paths; simpl.
  - reflexivity.
  - simpl in H. apply andb_true_iff in H as [Hc Hr].
    rewrite (gen_turn_pinned fuel (clock k) (clock' k') paths chunk Hc).
    destruct (gen_turn fuel (clock' k') paths chunk) as [out [paths'|m|]];
      try reflexivity.
    now rewrite (IH Hr (S k) (S k') paths').
Qed.

(** C10.  When every chunk supplies [mtime], the encoder's output does not
    depend on the clock: two runs over the same chunks, at whatever times,
    yield the same chunks of bytes and end the same way. *)
Theorem TarStream_ignores_clock_when_mtime_pinned
    (fuel : nat) (clock clock' : nat -> Z) (inputs : list TarStreamInput) :
  forallb pins_mtime inputs = true ->
  TarStream fuel clock inputs = TarStream fuel clock' inputs.
Proof.
  intros H. unfold TarStream.
  now rewrite (gen_pinned fuel clock clock' inputs H 0%nat 0%nat []).
Qed.

Definition pinned_file : TarStreamInput :=
  File {| f_pathname := PathString (lit "a.txt"); size := Int 5;
          sizeExtension := false; iterable := [lit "hello"];
          f_options :=
            Some {| mode := Some (lit "644"); uid := None; gid := None;
                    mtime := Some (Int 1700000000);
                    uname := Some (lit "root"); gname := None;
                    devmajor := None; devminor := None |} |}.

Lemma TarStream_ignores_clock_witness :
  forallb pins_mtime [pinned_file] = true
  /\ TarStream 0 (fun _ => 0) [pinned_file]
     = TarStream 0 (fun _ => 1) [pinned_file].
Proof.
  split; [reflexivity|].
  apply (TarStream_ignores_clock_when_mtime_pinned 0 (fun _ => 0)
           (fun _ => 1) [pinned_file]).
  reflexivity.
Defined.

(** Without [mtime] the clock shows in the output. *)
Lemma TarStream_reads_clock_otherwise :
  TarStream 0 (fun _ => 0)
    [Dir {| d_pathname := PathString (lit "d"); d_options := None |}]
  <> TarStream 0 (fun _ => 1)
       [Dir {| d_pathname := PathString (lit "d"); d_options := None |}].
Proof. vm_compute. discriminate. Qed.

End Clock.

(* ------------------------------------------------------------------ *)
(** ** One body stream at a time *)

Section Exclusivity.

(** The states a decoder can be in: those of [UnTarStream] on some input,
    and those any sequence of events leads to from there. *)
Inductive reachable : decoder -> Prop :=
| reach_start chunks upstream : reachable (UnTarStream chunks upstream)
| reach_step d e d' : reachable d -> step e d = Some d' -> reachable d'.

(** The stream is open, or one of its pulls is suspended: [header] is held
    on its behalf. *)
Definition busy (b : body_stream) : bool :=
  is_open (b_state b) || b_pulling b.

(** The stream was read to its end, or cancelled and drained. *)
Definition released (b : body_stream) : bool :=
  match b_state b with
  | Done | Cancelled => true
  | _ => false
  end.

(** What holds of the stream [b] of entry [k] in a decoder that has handed
    out [n] entries, holds [hd] in [header] and has [inp] still to read:
    - a suspended pull holds [lock], on a stream that is open or being
      cancelled, and a suspended pull of a default reader has a block to
      read for;
    - [header] is set as long as the stream is busy;
    - a released stream has no block left to read for, unless the archive
      is exhausted;
    - a stream that is not released is that of the last entry, and then
      [header] is set or the archive is exhausted. *)
Record body_ok (hd : option TarStreamHeader) (inp : list bytes) (n k : nat)
    (b : body_stream) : Prop := {
  ok_lock : b_pulling b = true ->
            b_lock b = true
            /\ (is_open (b_state b) || is_cancelling (b_state b)) = true;
  ok_pull : b_pulling b = true -> b_buffer b = None ->
            positive_num (b_i b) = true;
  ok_busy : busy b = true -> hd <> None;
  ok_drained : released b = true ->
               positive_num (b_i b) = false \/ inp = [];
  ok_last : released b = false -> S k = n /\ (hd <> None \/ inp = [])
}.

Definition invariant (d : decoder) : Prop :=
  forall k b, body_at k d = Some b ->
              body_ok (header d) (input d) (List.length (entries d)) k b.

(** What is left of [inp] once the blocks that a stream whose counter is
    [i] has still to take are gone. *)
Definition after (i : number) (inp : list bytes) : list bytes :=
  match i with
  | Int z => skipn (Z.to_nat z) inp
  | PosInf => []
  | _ => inp
  end.

Definition after_body (b : body_stream) (inp : list bytes) : list bytes :=
  after (b_i b) inp.

Lemma length_put_body (k : nat) (b : body_stream) (es : list TarStreamEntry) :
  List.length (put_body k b es) = List.length es.
Proof.
  revert k. induction es as [|e es IH]; intros [|k]; simpl; auto.
Qed.

Lemma body_in_put_body (es : list TarStreamEntry) (k j : nat)
    (b b0 : body_stream) :
  body_in es k = Some b0 ->
  body_in (put_body k b es) j = if Nat.eqb j k then Some b else body_in es j.
Proof.
  unfold body_in. revert k j.
  induction es as [|e es IH]; intros [|k] [|j]; simpl; try discriminate;
    auto.
Qed.

Lemma body_in_snoc (es : list TarStreamEntry) (e : TarStreamEntry) (k : nat)
    (b : body_stream) :
  body_in (es ++ [e]) k = Some b ->
  body_in es k = Some b
  \/ (k = List.length es /\ e_readable e = Some b).
Proof.
  unfold body_in. intros H.
  destruct (Nat.lt_ge_cases k (List.length es)) as [Hlt|Hge].
  - rewrite nth_error_app1 in H by assumption. now left.
  - rewrite nth_error_app2 in H by assumption.
    destruct (k - List.length es)%nat as [|m] eqn:E; simpl in H.
    + right. split; [lia|assumption].
    + destruct m; discriminate.
Qed.

Lemma dec_not_positive (x : number) :
  positive_num x = false -> positive_num (dec x) = false.
Proof.
  destruct x as [z| | |]; simpl; auto.
  intros H. apply Z.ltb_ge in H. apply Z.ltb_ge. lia.
Qed.

Lemma released_not_busy hd inp n k b :
  body_ok hd inp n k b -> released b = true -> busy b = false.
Proof.
  intros [Hl _ _ _ _] Hrel. unfold released in Hrel. unfold busy.
  destruct (b_pulling b) eqn:Hp.
  - destruct (Hl eq_refl) as [_ Hs].
    destruct (b_state b); discriminate.
  - destruct (b_state b); try discriminate; reflexivity.
Qed.

(** A released stream satisfies the invariant whatever the decoder does
    next: [reader] never gets blocks back. *)
Lemma body_ok_released hd inp n k b hd' inp' n' :
  body_ok hd inp n k b -> released b = true ->
  (inp = [] -> inp' = []) ->
  body_ok hd' inp' n' k b.
Proof.
  intros Hok Hrel Hinp.
  pose proof (released_not_busy _ _ _ _ _ Hok Hrel) as Hu.
  destruct Hok as [Hl Hp Hb Hd Hla]. constructor; auto.
  - rewrite Hu. discriminate.
  - intros _. destruct (Hd Hrel); auto.
  - rewrite Hrel. discriminate.
Qed.

(** Only the last entry can have a stream that is not released. *)
Lemma not_last_released hd inp n k b :
  body_ok hd inp n k b -> S k <> n -> released b = true.
Proof.
  intros [Hl Hp Hb Hd Hla] Hk.
  destruct (released b) eqn:Hr; [reflexivity|].
  destruct (Hla eq_refl); lia.
Qed.

(** An event on the stream of entry [k], which was not released: the other
    streams are released, and stay as they are. *)
Lemma invariant_update (d d0 : decoder) (k : nat) (b b' : body_stream) :
  invariant d ->
  body_at k d = Some b ->
  released b = false ->
  entries d0 = entries d ->
  (input d = [] -> input d0 = []) ->
  body_ok (header d0) (input d0) (List.length (entries d)) k b' ->
  invariant (update_body k b' d0).
Proof.
  intros Hinv Hk Hu Hes Hinp Hnew j bj. unfold body_at, update_body. simpl.
  rewrite length_put_body, Hes.
  rewrite (body_in_put_body (entries d) k j b' b Hk).
  destruct (Nat.eqb_spec j k) as [->|Hjk]; intros Hj.
  - now inversion Hj; subst.
  - pose proof (Hinv _ _ Hk) as Hokk. pose proof (Hinv _ _ Hj) as Hokj.
    destruct (ok_last _ _ _ _ _ Hokk Hu) as [Hlast _].
    eapply body_ok_released; [exact Hokj| |exact Hinp].
    eapply not_last_released; [exact Hokj|lia].
Qed.

Ltac body_cases b :=
  destruct b as [sz i lk pl st ch lo bf]; simpl in *;
  constructor; unfold busy, released; simpl;
  repeat match goal with
         | H : body_ok _ _ _ _ _ |- _ =>
             destruct H as [?Hl ?Hp ?Hb ?Hd ?Hla];
             unfold busy, released in *; simpl in *
         end;
  destruct st; simpl in *; try discriminate;
  destruct lk; simpl in *; try discriminate;
  destruct pl; simpl in *; try discriminate;
  intros; try discriminate;
  repeat match goal with
         | H : ?x = ?x -> _ |- _ => specialize (H eq_refl)
         | H : _ /\ _ |- _ => destruct H
         end;
  try discriminate; try congruence; try (split; congruence);
  try solve [split; [congruence|];
             repeat match goal with
                    | H : _ \/ _ |- _ => destruct H
                    end;
             first [left; congruence|right; congruence|discriminate]];
  auto using dec_not_positive.

(** The invariant of an event on the stream of entry [k]. *)
Ltac on_body Hinv Hk Hu :=
  eapply invariant_update;
  [exact Hinv|exact Hk|exact Hu|reflexivity|simpl; congruence|].

Lemma open_not_released (b : body_stream) :
  is_open (b_state b) = true -> released b = false.
Proof. unfold released. destruct (b_state b); auto; discriminate. Qed.

Lemma cancelling_not_released (b : body_stream) :
  is_cancelling (b_state b) = true -> released b = false.
Proof. unfold released. destruct (b_state b); auto; discriminate. Qed.

Lemma pulling_not_released hd inp n k b :
  body_ok hd inp n k b -> b_pulling b = true -> released b = false.
Proof.
  intros Hok Hp. destruct (released b) eqn:Hr; [|reflexivity].
  pose proof (released_not_busy _ _ _ _ _ Hok Hr) as Hb.
  unfold busy in Hb. rewrite Hp, orb_true_r in Hb. discriminate.
Qed.

Lemma step_preserves_invariant (d d' : decoder) (e : event) :
  invariant d -> step e d = Some d' -> invariant d'.
Proof.
  intros Hinv Hstep. destruct e as [| | |k|k n|k|k|k]; simpl in Hstep.
  - (* Pull *)
    destruct (is_readable (top d) && negb (polling d)); inversion Hstep.
    exact Hinv.
  - (* Proceed *)
    destruct (polling d) eqn:Hp; [|discriminate].
    destruct (header d) eqn:Hh; [discriminate|].
    inversion Hstep; subst d'; clear Hstep.
    unfold proceed, read, finish_top. simpl.
    destruct (input d) as [|value rest] eqn:Hin.
    + (* nothing left to read *)
      assert (Hsame : forall k b,
                 body_at k d = Some b ->
                 body_ok (header d) [] (List.length (entries d)) k b).
      { intros k b Hk. rewrite <- Hin. now apply Hinv. }
      destruct (input_end d); simpl; destruct (is_readable (top d)); simpl;
        intros k b Hk; unfold body_at in Hk; simpl in *;
        rewrite ?Hin; apply Hsame; exact Hk.
    + (* a block: every stream is released *)
      assert (Hrel : forall k b, body_at k d = Some b -> released b = true).
      { intros k b Hk. destruct (released b) eqn:Hr; [reflexivity|].
        pose proof (Hinv _ _ Hk) as Hok.
        destruct (ok_last _ _ _ _ _ Hok Hr) as [_ [Hne|Hne]].
        - rewrite Hh in Hne. congruence.
        - rewrite Hin in Hne. discriminate. }
      assert (Hold : forall hd inp n k b,
                 body_at k d = Some b -> body_ok hd inp n k b).
      { intros hd inp n k b Hk.
        eapply body_ok_released;
          [exact (Hinv _ _ Hk)|now apply (Hrel k)|].
        rewrite Hin. discriminate. }
      simpl. destruct (checksum_ok value); simpl.
      * destruct (is_readable (top d)) eqn:Ht; simpl.
        -- destruct (str_eqb _ [48]); intros k b Hk;
             unfold body_at in Hk; simpl in Hk;
             apply body_in_snoc in Hk as [Hk|[-> Hk]];
             try (now apply Hold); simpl in Hk; try discriminate.
           inversion Hk; subst b. simpl. rewrite length_app. simpl.
           constructor; unfold busy, released; simpl;
             try discriminate.
           intros _. split; [lia|left; discriminate].
        -- intros k b Hk. now apply Hold.
      * destruct (is_readable (top d)); simpl; intros k b Hk;
          now apply Hold.
  - (* TopCancel *)
    destruct (is_readable (top d)); inversion Hstep. exact Hinv.
  - (* BodyPull *)
    destruct (body_at k d) as [b|] eqn:Hk; [|discriminate].
    destruct (is_open (b_state b)) eqn:Ho; [|discriminate].
    destruct (b_pulling b) eqn:Hpl; [discriminate|]. simpl in Hstep.
    inversion Hstep; subst d'; clear Hstep.
    pose proof (Hinv _ _ Hk) as Hok.
    pose proof (open_not_released b Ho) as Hu.
    unfold body_pull, body_close.
    destruct (positive_num (b_i b)) eqn:Hpos.
    + on_body Hinv Hk Hu. body_cases b.
    + cbv zeta. simpl (cancelled (set_header None d)).
      destruct (cancelled d) eqn:Hc; on_body Hinv Hk Hu; simpl;
        body_cases b.
  - (* BodyPullInto *)
    destruct (body_at k d) as [b|] eqn:Hk; [|discriminate].
    destruct (is_open (b_state b)) eqn:Ho; [|discriminate].
    destruct (b_pulling b) eqn:Hpl; [discriminate|].
    destruct (0 <? n)%nat; [|discriminate]. simpl in Hstep.
    inversion Hstep; subst d'; clear Hstep.
    pose proof (Hinv _ _ Hk) as Hok.
    pose proof (open_not_released b Ho) as Hu.
    unfold body_pull_into, body_close.
    destruct (positive_num (b_i b)) eqn:Hpos.
    + destruct (n <? List.length (b_leftover b))%nat;
        [|destruct (List.length (b_leftover b) <? n)%nat];
        on_body Hinv Hk Hu; body_cases b.
    + cbv zeta. simpl (cancelled (set_header None d)).
      destruct (cancelled d) eqn:Hc; on_body Hinv Hk Hu; simpl;
        body_cases b.
  - (* BodyResume *)
    destruct (body_at k d) as [b|] eqn:Hk; [|discriminate].
    destruct (b_pulling b) eqn:Hpl; [|discriminate].
    inversion Hstep; subst d'; clear Hstep.
    pose proof (Hinv _ _ Hk) as Hok.
    pose proof (pulling_not_released _ _ _ _ _ Hok Hpl) as Hu.
    destruct (b_buffer b) as [[n written]|] eqn:Hbf.
    + unfold body_resume_into, read.
      destruct (input d) as [|value rest] eqn:Hin.
      * destruct (input_end d); on_body Hinv Hk Hu; simpl;
          rewrite ?Hin; body_cases b.
      * cbv zeta.
        destruct (_ <? _)%nat; [|destruct (_ <? _)%nat];
          on_body Hinv Hk Hu; simpl; body_cases b.
    + unfold body_resume, read.
      destruct (input d) as [|value rest] eqn:Hin.
      * destruct (input_end d); on_body Hinv Hk Hu; simpl;
          rewrite ?Hin; body_cases b.
      * on_body Hinv Hk Hu. simpl.
        destruct (enqueue_ok _); body_cases b.
  - (* BodyCancel *)
    destruct (body_at k d) as [b|] eqn:Hk; [|discriminate].
    destruct (is_open (b_state b)) eqn:Ho; [|discriminate].
    inversion Hstep; subst d'; clear Hstep.
    pose proof (Hinv _ _ Hk) as Hok.
    pose proof (open_not_released b Ho) as Hu.
    on_body Hinv Hk Hu. body_cases b.
  - (* BodyDrain *)
    destruct (body_at k d) as [b|] eqn:Hk; [|discriminate].
    destruct (is_cancelling (b_state b)) eqn:Hc; [|discriminate].
    destruct (b_lock b) eqn:Hlk; [discriminate|]. simpl in Hstep.
    inversion Hstep; subst d'; clear Hstep.
    pose proof (Hinv _ _ Hk) as Hok.
    pose proof (cancelling_not_released b Hc) as Hu.
    unfold body_drain, read.
    destruct (positive_num (b_i b)) eqn:Hpos.
    + destruct (input d) as [|value rest] eqn:Hin.
      * destruct (input_end d); on_body Hinv Hk Hu; simpl;
          rewrite ?Hin; body_cases b.
      * on_body Hinv Hk Hu. simpl. body_cases b.
    + on_body Hinv Hk Hu. simpl. body_cases b.
Qed.

End Exclusivity.

(* ------------------------------------------------------------------ *)
(** ** Text: ASCII, octal numerals *)

Section Text.

Definition ascii (s : list Z) : bool := forallb (within 0 0x7F) s.

Lemma ascii_app (a b : list Z) : ascii (a ++ b) = ascii a && ascii b.
Proof. apply forallb_app. Qed.

Lemma ascii_repeat (c : Z) (n : nat) :
  within 0 0x7F c = true -> ascii (repeat c n) = true.
Proof. intros H. induction n; simpl; [reflexivity|now rewrite H]. Qed.

Lemma ascii_cons (u : Z) (s : list Z) :
  ascii (u :: s) = true -> 0 <= u <= 0x7F /\ ascii s = true.
Proof.
  unfold ascii. cbn [forallb]. intros H.
  apply andb_true_iff in H as [Hu Hs]. unfold within in Hu.
  apply andb_true_iff in Hu as [H0 H1]. apply Z.leb_le in H0, H1. auto.
Qed.

Lemma not_surrogate (u : Z) :
  u < 0xD800 -> is_high u = false /\ is_low u = false.
Proof.
  intros H. unfold is_high, is_low.
  destruct (Z.leb_spec 0xD800 u); [lia|].
  destruct (Z.leb_spec 0xDC00 u); [lia|]. auto.
Qed.

Lemma encode_plain (u : Z) (rest : jsstring) :
  is_high u = false -> is_low u = false ->
  encode (u :: rest) = utf8_of_cp u ++ encode rest.
Proof.
  intros Hh Hl.
  change (encode (u :: rest))
    with (if is_high u then
            match rest with
            | l :: rest' =>
                if is_low l
                then utf8_of_cp (0x10000 + (u - 0xD800) * 1024
                                 + (l - 0xDC00)) ++ encode rest'
                else utf8_of_cp 0xFFFD ++ encode rest
            | [] => utf8_of_cp 0xFFFD
            end
          else if is_low u then utf8_of_cp 0xFFFD ++ encode rest
          else utf8_of_cp u ++ encode rest).
  now rewrite Hh, Hl.
Qed.

Lemma utf8_of_ascii (u : Z) : u <= 0x7F -> utf8_of_cp u = [u].
Proof.
  intros H. unfold utf8_of_cp. destruct (Z.ltb_spec u 0x80); [reflexivity|lia].
Qed.

Lemma encode_ascii (s : jsstring) : ascii s = true -> encode s = s.
Proof.
  induction s as [|u s IH]; intros H; [reflexivity|].
  apply ascii_cons in H as [[H0 H1] Hs].
  destruct (not_surrogate u ltac:(lia)) as [Hh Hl].
  rewrite (encode_plain u s Hh Hl), (utf8_of_ascii u H1), (IH Hs).
  reflexivity.
Qed.

Lemma decode_cps_low (u : Z) (r : bytes) :
  u <= 0x7F -> decode_cps (u :: r) = u :: decode_cps r.
Proof.
  intros H. cbn [decode_cps].
  destruct (Z.leb_spec u 0x7F); [reflexivity|lia].
Qed.

Lemma decode_cps_ascii (s : bytes) : ascii s = true -> decode_cps s = s.
Proof.
  induction s as [|u s IH]; intros H; [reflexivity|].
  apply ascii_cons in H as [[H0 H1] Hs].
  now rewrite (decode_cps_low u s H1), (IH Hs).
Qed.

Lemma flat_map_utf16_ascii (s : list Z) :
  ascii s = true -> flat_map utf16_of_cp s = s.
Proof.
  induction s as [|u s IH]; intros H; [reflexivity|].
  apply ascii_cons in H as [[H0 H1] Hs].
  cbn [flat_map]. rewrite (IH Hs). unfold utf16_of_cp.
  destruct (Z.ltb_spec u 0x10000); [reflexivity|lia].
Qed.

Lemma ascii_no_bom (s : bytes) : ascii s = true -> has_bom s = false.
Proof.
  intros H. destruct s as [|u s]; [reflexivity|].
  apply ascii_cons in H as [[H0 H1] _]. unfold has_bom.
  destruct s as [|b1 [|b2 r]]; try reflexivity.
  destruct (Z.eqb_spec u 0xEF); [lia|reflexivity].
Qed.

Lemma decode_ascii (s : bytes) : ascii s = true -> decode s = s.
Proof.
  intros H. unfold decode.
  now rewrite (ascii_no_bom s H), decode_cps_ascii, flat_map_utf16_ascii.
Qed.

Lemma length_padStart (n : nat) (c : Z) (s : jsstring) :
  (List.length s <= n)%nat -> List.length (padStart n c s) = n.
Proof.
  intros H. unfold padStart. rewrite length_app, repeat_length. lia.
Qed.

Lemma length_padEnd (n : nat) (c : Z) (s : jsstring) :
  (List.length s <= n)%nat -> List.length (padEnd n c s) = n.
Proof.
  intros H. unfold padEnd. rewrite length_app, repeat_length. lia.
Qed.

Lemma ascii_padStart (n : nat) (c : Z) (s : jsstring) :
  within 0 0x7F c = true -> ascii s = true -> ascii (padStart n c s) = true.
Proof.
  intros Hc Hs. unfold padStart.
  now rewrite ascii_app, ascii_repeat, Hs.
Qed.

Lemma ascii_padEnd (n : nat) (c : Z) (s : jsstring) :
  within 0 0x7F c = true -> ascii s = true -> ascii (padEnd n c s) = true.
Proof.
  intros Hc Hs. unfold padEnd.
  now rewrite ascii_app, ascii_repeat, Hs.
Qed.

(** *** Octal numerals *)

Definition octal (s : jsstring) : bool := forallb is_octal s.

Definition octal_value (s : jsstring) : Z :=
  fold_left (fun a u => 8 * a + (u - 48)) s 0.

Lemma is_octal_digit (d : Z) : 0 <= d < 8 -> is_octal (48 + d) = true.
Proof.
  intros H. unfold is_octal, within.
  destruct (Z.leb_spec 48 (48 + d)); [|lia].
  destruct (Z.leb_spec (48 + d) 55); [reflexivity|lia].
Qed.

Lemma octal_digits_step (n : nat) (z : Z) :
  octal_digits (S n) z
  = if z <? 8 then [48 + z] else octal_digits n (z / 8) ++ [48 + z mod 8].
Proof. reflexivity. Qed.

Lemma octal_digits_octal (n : nat) :
  forall z, 0 <= z -> octal (octal_digits n z) = true.
Proof.
  induction n as [|n IH]; intros z Hz; [reflexivity|].
  rewrite octal_digits_step. unfold octal in *.
  destruct (Z.ltb_spec z 8).
  - cbn [forallb]. rewrite is_octal_digit by lia. reflexivity.
  - rewrite forallb_app, IH by (apply Z.div_pos; lia).
    cbn [forallb]. pose proof (Z.mod_pos_bound z 8 ltac:(lia)).
    rewrite is_octal_digit by lia. reflexivity.
Qed.

Lemma div8_bound (n : nat) (z : Z) :
  0 <= z < 8 ^ Z.of_nat (S n) -> 0 <= z / 8 < 8 ^ Z.of_nat n.
Proof.
  intros Hz. rewrite Nat2Z.inj_succ, Z.pow_succ_r in Hz by lia.
  split; [apply Z.div_pos; lia|].
  apply Z.div_lt_upper_bound; lia.
Qed.

Lemma octal_digits_value (n : nat) :
  forall z, 0 <= z < 8 ^ Z.of_nat n ->
            octal_value (octal_digits n z) = z.
Proof.
  unfold octal_value.
  induction n as [|n IH]; intros z Hz.
  - change (8 ^ Z.of_nat 0) with 1 in Hz. cbn [octal_digits fold_left]. lia.
  - rewrite octal_digits_step.
    destruct (Z.ltb_spec z 8); cbn [fold_left]; [lia|].
    rewrite fold_left_app. cbn [fold_left].
    rewrite IH by now apply div8_bound.
    pose proof (Z.div_mod z 8 ltac:(lia)). lia.
Qed.

Lemma octal_digits_length (n : nat) :
  forall (k : nat) z,
    (1 <= k)%nat -> 0 <= z < 8 ^ Z.of_nat k ->
    (1 <= List.length (octal_digits (S n) z) <= k)%nat.
Proof.
  induction n as [|n IH]; intros k z Hk Hz; rewrite octal_digits_step.
  - destruct (Z.ltb_spec z 8); cbn [octal_digits app List.length]; [lia|].
    destruct k as [|[|k]]; [lia| |lia].
    change (8 ^ Z.of_nat 1) with 8 in Hz. lia.
  - destruct (Z.ltb_spec z 8); [cbn [List.length]; lia|].
    rewrite length_app. cbn [List.length].
    destruct k as [|[|k]]; [lia| |].
    + change (8 ^ Z.of_nat 1) with 8 in Hz. lia.
    + specialize (IH (S k) (z / 8) ltac:(lia) (div8_bound _ _ Hz)). lia.
Qed.

Lemma octal_of_nonneg_fuel (z : Z) :
  0 <= z -> z < 8 ^ Z.of_nat (S (Z.to_nat (Z.log2 z))).
Proof.
  intros Hz. rewrite Nat2Z.inj_succ, Z2Nat.id by apply Z.log2_nonneg.
  destruct (Z.eq_dec z 0) as [->|Hne]; [reflexivity|].
  pose proof (Z.log2_spec z ltac:(lia)) as [_ Hlt].
  pose proof (Z.log2_nonneg z).
  eapply Z.lt_le_trans; [exact Hlt|].
  apply Z.pow_le_mono_l. lia.
Qed.

Lemma octal_of_nonneg_octal (z : Z) :
  0 <= z -> octal (octal_of_nonneg z) = true.
Proof. intros. now apply octal_digits_octal. Qed.

Lemma octal_of_nonneg_value (z : Z) :
  0 <= z -> octal_value (octal_of_nonneg z) = z.
Proof.
  intros Hz. apply octal_digits_value.
  split; [assumption|now apply octal_of_nonneg_fuel].
Qed.

Lemma octal_of_nonneg_length (k : nat) (z : Z) :
  (1 <= k)%nat -> 0 <= z < 8 ^ Z.of_nat k ->
  (1 <= List.length (octal_of_nonneg z) <= k)%nat.
Proof. intros. now apply octal_digits_length. Qed.

Lemma octal_ascii (s : jsstring) : octal s = true -> ascii s = true.
Proof.
  unfold octal, ascii. induction s as [|u s IH]; simpl; [reflexivity|].
  intros H. apply andb_true_iff in H as [Hu Hs]. rewrite IH by assumption.
  unfold is_octal, within in *. apply andb_true_iff in Hu as [H0 H1].
  apply Z.leb_le in H0, H1.
  destruct (Z.leb_spec 0 u); [|lia].
  destruct (Z.leb_spec u 0x7F); [reflexivity|lia].
Qed.

Lemma octal_prefix_digits (s rest : jsstring) :
  octal s = true ->
  forall a, octal_prefix (s ++ rest) (Some a)
            = octal_prefix rest
                (Some (fold_left (fun a u => 8 * a + (u - 48)) s a)).
Proof.
  induction s as [|u s IH]; intros H a; simpl; [reflexivity|].
  simpl in H. apply andb_true_iff in H as [Hu Hs].
  now rewrite Hu, IH.
Qed.

Lemma octal_prefix_start (s rest : jsstring) :
  octal s = true -> s <> [] ->
  octal_prefix (s ++ rest) None
  = octal_prefix rest (Some (octal_value s)).
Proof.
  destruct s as [|u s]; [congruence|]. intros H _. simpl.
  simpl in H. apply andb_true_iff in H as [Hu Hs].
  rewrite Hu. rewrite octal_prefix_digits by assumption.
  reflexivity.
Qed.

Lemma octal_not_ws (u : Z) : is_octal u = true -> is_ws u = false.
Proof.
  unfold is_octal, is_ws, within. intros H.
  apply andb_true_iff in H as [H0 H1]. apply Z.leb_le in H0, H1.
  repeat match goal with
         | |- context [?a <=? ?b] => destruct (Z.leb_spec a b); try lia
         | |- context [?a =? ?b] => destruct (Z.eqb_spec a b); try lia
         end; reflexivity.
Qed.

Lemma octal_not_sign (u : Z) (t : jsstring) :
  is_octal u = true -> split_sign (u :: t) = (false, u :: t).
Proof.
  unfold is_octal, within, split_sign. intros Hu.
  apply andb_true_iff in Hu as [H0 H1]. apply Z.leb_le in H0, H1.
  destruct u as [|p|p]; try reflexivity.
  do 6 (destruct p as [p|p|]; try reflexivity); lia.
Qed.

(** Reading back a numeral: digits, then nothing or something that is not
    a digit. *)
Lemma parseInt8_octal (s rest : jsstring) :
  octal s = true -> s <> [] ->
  match rest with [] => true | u :: _ => negb (is_octal u) end = true ->
  parseInt8 (s ++ rest) = Int (octal_value s).
Proof.
  intros Hs Hne Hrest. unfold parseInt8.
  destruct s as [|u s]; [congruence|].
  pose proof Hs as Hs'. unfold octal in Hs'. cbn [forallb] in Hs'.
  apply andb_true_iff in Hs' as [Hu _].
  change ((u :: s) ++ rest) with (u :: (s ++ rest)).
  cbn [trimStart]. rewrite (octal_not_ws u Hu).
  rewrite (octal_not_sign u (s ++ rest) Hu).
  change (u :: (s ++ rest)) with ((u :: s) ++ rest).
  rewrite (octal_prefix_start (u :: s) rest Hs) by discriminate.
  destruct rest as [|r rest]; [reflexivity|]. cbn [octal_prefix].
  apply negb_true_iff in Hrest. now rewrite Hrest.
Qed.

Lemma octal_value_zeros (n : nat) (s : jsstring) :
  octal_value (repeat 48 n ++ s) = octal_value s.
Proof.
  unfold octal_value. rewrite fold_left_app. f_equal.
  induction n; simpl; auto.
Qed.

Lemma octal_padStart (n : nat) (s : jsstring) :
  octal s = true -> octal (padStart n 48 s) = true.
Proof.
  intros H. unfold padStart, octal. rewrite forallb_app.
  fold (octal s). rewrite H, andb_true_r.
  induction (n - List.length s)%nat; simpl; auto.
Qed.

End Text.

(* ------------------------------------------------------------------ *)
(** ** The layout of an emitted header *)

Section Layout.

(** An ASCII string of at most [n] characters. *)
Definition narrow (n : nat) (s : jsstring) : bool :=
  ascii s && (List.length s <=? n)%nat.

(** The chunk renders into fields of the expected widths: its option
    strings are ASCII and no longer than their fields, its size is an
    integer below 8^11 (8^12 with [sizeExtension]), and its [mtime], or the
    clock in its absence, is an integer with at most 11 octal digits. *)
Definition fits (now : Z) (chunk : TarStreamInput) : bool :=
  narrow 6 (field_or (options chunk) mode
              (if typeflag_of chunk =? 53 then lit "755" else lit "644"))
  && narrow 6 (field_or (options chunk) uid [])
  && narrow 6 (field_or (options chunk) gid [])
  && match chunk with
     | File f =>
         match size f with
         | Int z =>
             (0 <=? z) && (z <? 8 ^ (if sizeExtension f then 12 else 11))
         | _ => false
         end
     | Dir _ => true
     end
  && match field_or (options chunk) mtime (Int now) with
     | Int m => (0 <=? m) && (m <? 8 ^ 11)
     | _ => false
     end
  && narrow 32 (field_or (options chunk) uname [])
  && narrow 32 (field_or (options chunk) gname [])
  && narrow 8 (field_or (options chunk) devmajor [])
  && narrow 8 (field_or (options chunk) devminor []).

Definition bytes_ok (l : bytes) : bool := forallb (within 0 255) l.

(** The five fields in front of the checksum. *)
Definition pre_text (now : Z) (chunk : TarStreamInput) : jsstring :=
  mode_text chunk ++ uid_text chunk ++ gid_text chunk
  ++ size_text chunk ++ mtime_text now chunk.

Lemma firstn_app_l {A} (n : nat) (a b : list A) :
  List.length a = n -> firstn n (a ++ b) = a.
Proof.
  intros <-. rewrite firstn_app, Nat.sub_diag, firstn_all. simpl.
  apply app_nil_r.
Qed.

Lemma skipn_app_l {A} (n : nat) (a b : list A) :
  List.length a = n -> skipn n (a ++ b) = b.
Proof.
  intros <-. rewrite skipn_app, Nat.sub_diag, skipn_all. reflexivity.
Qed.

Lemma skipn_app_more {A} (n m : nat) (a b : list A) :
  List.length a = n -> skipn (n + m) (a ++ b) = skipn m b.
Proof.
  intros <-. rewrite skipn_app, skipn_all2 by lia. simpl. f_equal. lia.
Qed.

Lemma firstn_app_more {A} (n m : nat) (a b : list A) :
  List.length a = n -> firstn (n + m) (a ++ b) = a ++ firstn m b.
Proof.
  intros <-. rewrite firstn_app, firstn_all2 by lia. do 2 f_equal. lia.
Qed.

Lemma skipn_repeat {A} (x : A) (n m : nat) :
  skipn n (repeat x m) = repeat x (m - n).
Proof.
  revert m. induction n as [|n IH]; intros [|m]; simpl; auto.
Qed.

Lemma ascii_cat (a b : list Z) :
  ascii a = true -> ascii b = true -> ascii (a ++ b) = true.
Proof. intros Ha Hb. now rewrite ascii_app, Ha, Hb. Qed.

Lemma length_cat {A} (a b : list A) (n m : nat) :
  List.length a = n -> List.length b = m ->
  List.length (a ++ b) = (n + m)%nat.
Proof. intros <- <-. apply length_app. Qed.

Ltac cat_ascii :=
  repeat (apply ascii_cat; [assumption|]); first [assumption|reflexivity].

Ltac cat_length :=
  repeat (erewrite length_cat; [|eassumption|]);
  first [eassumption|reflexivity].

Lemma set_ok (dst src : bytes) (off : nat) :
  (off + List.length src <= List.length dst)%nat ->
  set dst src off
  = Ok (firstn off dst ++ src ++ skipn (off + List.length src) dst).
Proof.
  intros H. unfold set.
  destruct (Nat.leb_spec (off + List.length src) (List.length dst));
    [reflexivity|lia].
Qed.

Lemma narrow_spec (n : nat) (s : jsstring) :
  narrow n s = true -> ascii s = true /\ (List.length s <= n)%nat.
Proof.
  unfold narrow. intros H. apply andb_true_iff in H as [Ha Hl].
  apply Nat.leb_le in Hl. auto.
Qed.

Lemma padStart_field (n : nat) (s tail : jsstring) :
  narrow n s = true -> ascii tail = true ->
  ascii (padStart n 48 s ++ tail) = true
  /\ List.length (padStart n 48 s ++ tail) = (n + List.length tail)%nat.
Proof.
  intros H Ht. apply narrow_spec in H as [Ha Hl]. split.
  - now rewrite ascii_app, ascii_padStart, Ht.
  - now rewrite length_app, length_padStart.
Qed.

Lemma padEnd_field (n : nat) (s : jsstring) :
  narrow n s = true ->
  ascii (padEnd n 0 s) = true /\ List.length (padEnd n 0 s) = n.
Proof.
  intros H. apply narrow_spec in H as [Ha Hl]. split.
  - now rewrite ascii_padEnd.
  - now rewrite length_padEnd.
Qed.

Lemma toString8_small (k : nat) (z : Z) :
  (1 <= k)%nat -> 0 <= z < 8 ^ Z.of_nat k ->
  toString8 (Int z) = octal_of_nonneg z
  /\ narrow k (toString8 (Int z)) = true.
Proof.
  intros Hk Hz. unfold toString8.
  destruct (Z.ltb_spec z 0); [lia|]. split; [reflexivity|].
  unfold narrow.
  rewrite (octal_ascii _ (octal_of_nonneg_octal z ltac:(lia))).
  pose proof (octal_of_nonneg_length k z Hk Hz).
  apply andb_true_iff. split; [reflexivity|]. apply Nat.leb_le. lia.
Qed.

Section Fields.

Variables (now : Z) (chunk : TarStreamInput).
Hypothesis Hfits : fits now chunk = true.

Lemma fits_size :
  ascii (size_text chunk) = true /\ List.length (size_text chunk) = 12%nat.
Proof.
  unfold fits in Hfits. do 8 (apply andb_true_iff in Hfits as [Hfits ?]).
  unfold size_text, extended. destruct chunk as [f|d].
  - destruct (size f) as [z| | |] eqn:Hs; try discriminate.
    match goal with
    | H : _ && _ = true |- _ => apply andb_true_iff in H as [Hz0 Hz1]
    end.
    apply Z.leb_le in Hz0. apply Z.ltb_lt in Hz1.
    destruct (sizeExtension f).
    + destruct (toString8_small 12 z ltac:(lia) ltac:(split; assumption))
        as [_ Hn].
      destruct (padStart_field 12 _ [] Hn eq_refl) as [Ha Hl].
      rewrite app_nil_r in *. auto.
    + destruct (toString8_small 11 z ltac:(lia) ltac:(split; assumption))
        as [_ Hn].
      apply (padStart_field 11 _ [32] Hn eq_refl).
  - apply (padStart_field 11 [] [32] eq_refl eq_refl).
Qed.

Lemma fits_pre :
  ascii (pre_text now chunk) = true
  /\ List.length (pre_text now chunk) = 48%nat.
Proof.
  pose proof fits_size as [Has Hls].
  unfold fits in Hfits.
  apply andb_true_iff in Hfits as [Hf _].
  apply andb_true_iff in Hf as [Hf _].
  apply andb_true_iff in Hf as [Hf _].
  apply andb_true_iff in Hf as [Hf _].
  apply andb_true_iff in Hf as [Hf Hmt].
  apply andb_true_iff in Hf as [Hf _].
  apply andb_true_iff in Hf as [Hf Hgid].
  apply andb_true_iff in Hf as [Hmode Huid].
  unfold pre_text, mode_text, uid_text, gid_text, mtime_text.
  destruct (field_or (options chunk) mtime (Int now)) as [m| | |];
    try discriminate.
  apply andb_true_iff in Hmt as [Hm0 Hm1].
  apply Z.leb_le in Hm0. apply Z.ltb_lt in Hm1.
  destruct (toString8_small 11 m ltac:(lia) ltac:(split; assumption))
    as [_ Hn].
  destruct (padStart_field 6 _ [32; 0] Hmode eq_refl) as [Ha1 Hl1].
  destruct (padStart_field 6 _ [32; 0] Huid eq_refl) as [Ha2 Hl2].
  destruct (padStart_field 6 _ [32; 0] Hgid eq_refl) as [Ha3 Hl3].
  destruct (padStart_field 11 _ [32] Hn eq_refl) as [Ha4 Hl4].
  split.
  - cat_ascii.
  - rewrite (length_cat _ _ _ _ Hl1
               (length_cat _ _ _ _ Hl2
                  (length_cat _ _ _ _ Hl3 (length_cat _ _ _ _ Hls Hl4)))).
    reflexivity.
Qed.

Lemma fits_tail :
  ascii (tail_text chunk) = true
  /\ List.length (tail_text chunk) = 189%nat.
Proof.
  unfold fits in Hfits. do 8 (apply andb_true_iff in Hfits as [Hfits ?]).
  unfold tail_text.
  repeat match goal with
         | H : narrow ?n ?s = true |- _ =>
             destruct (padEnd_field n s H) as [? ?]; clear H
         end.
  assert (Htf : ascii [typeflag_of chunk] = true)
    by (unfold typeflag_of; now destruct (has_size chunk)).
  assert (Hz : ascii (repeat 0 100) = true) by reflexivity.
  assert (Hu : ascii (lit "ustar") = true) by reflexivity.
  assert (H0' : ascii [0] = true) by reflexivity.
  assert (Hv : ascii (lit "00") = true) by reflexivity.
  split.
  - cat_ascii.
  - rewrite !length_app.
    repeat match goal with
           | H : List.length (padEnd _ _ _) = _ |- _ => rewrite H; clear H
           end.
    reflexivity.
Qed.

Lemma template_split :
  template now chunk = pre_text now chunk ++ repeat 32 8 ++ tail_text chunk.
Proof.
  unfold template, pre_text. now rewrite <- !app_assoc.
Qed.

Lemma fits_template :
  encode (template now chunk) = template now chunk
  /\ List.length (template now chunk) = 245%nat.
Proof.
  pose proof fits_pre as [Hap Hlp]. pose proof fits_tail as [Hat Hlt].
  split.
  - apply encode_ascii. rewrite template_split, !ascii_app, Hap, Hat.
    reflexivity.
  - rewrite template_split, !length_app, Hlp, Hlt. reflexivity.
Qed.

End Fields.

(** *** Sums of bytes *)

Lemma fold_add_acc (l : list Z) (a : Z) :
  fold_left Z.add l a = a + fold_left Z.add l 0.
Proof.
  revert a. induction l as [|x l IH]; intros a; cbn [fold_left]; [lia|].
  rewrite (IH (a + x)), (IH (0 + x)). lia.
Qed.

Lemma sum_app (a b : bytes) : sum (a ++ b) = sum a + sum b.
Proof. unfold sum. rewrite fold_left_app. apply fold_add_acc. Qed.

Lemma sum_cons (x : Z) (l : bytes) : sum (x :: l) = x + sum l.
Proof. unfold sum. cbn [fold_left]. rewrite fold_add_acc. lia. Qed.

Lemma sum_bounds (l : bytes) :
  bytes_ok l = true -> 0 <= sum l <= 255 * len l.
Proof.
  induction l as [|x l IH]; intros H.
  - unfold sum, len. simpl. lia.
  - unfold bytes_ok in H. cbn [forallb] in H.
    apply andb_true_iff in H as [Hx Hl]. specialize (IH Hl).
    unfold within in Hx. apply andb_true_iff in Hx as [H0 H1].
    apply Z.leb_le in H0, H1. rewrite sum_cons, len_cons. lia.
Qed.

Lemma bytes_ok_app (a b : bytes) :
  bytes_ok (a ++ b) = bytes_ok a && bytes_ok b.
Proof. apply forallb_app. Qed.

Lemma ascii_bytes_ok (l : bytes) : ascii l = true -> bytes_ok l = true.
Proof.
  unfold ascii, bytes_ok. induction l as [|x l IH]; cbn [forallb]; auto.
  intros H. apply andb_true_iff in H as [Hx Hl]. rewrite IH by assumption.
  unfold within in *. apply andb_true_iff in Hx as [H0 H1].
  apply Z.leb_le in H1. rewrite H0.
  destruct (Z.leb_spec x 255); [reflexivity|lia].
Qed.

Lemma bytes_ok_firstn (n : nat) (l : bytes) :
  bytes_ok l = true -> bytes_ok (firstn n l) = true.
Proof.
  intros H. rewrite <- (firstn_skipn n l), bytes_ok_app in H.
  now apply andb_true_iff in H as [? _].
Qed.

Lemma bytes_ok_skipn (n : nat) (l : bytes) :
  bytes_ok l = true -> bytes_ok (skipn n l) = true.
Proof.
  intros H. rewrite <- (firstn_skipn n l), bytes_ok_app in H.
  now apply andb_true_iff in H as [_ ?].
Qed.

Lemma bytes_ok_repeat0 (n : nat) : bytes_ok (repeat 0 n) = true.
Proof. induction n; simpl; auto. Qed.

(** *** The header, field by field *)

(** Bytes 0 to 99, and bytes 345 to 511 once [prefix] is written. *)
Definition name_field (name : bytes) : bytes :=
  firstn 100 (name ++ repeat 0 (512 - List.length name)).

Definition prefix_field (prefix name : bytes) : bytes :=
  prefix
  ++ skipn (List.length prefix)
       (skipn 345 (name ++ repeat 0 (512 - List.length name))).

(** The header as it is when its bytes are summed: the checksum field
    holds eight spaces. *)
Definition blank_header (now : Z) (chunk : TarStreamInput)
    (prefix name : bytes) : bytes :=
  name_field name ++ pre_text now chunk ++ repeat 32 8
  ++ tail_text chunk ++ prefix_field prefix name.

Definition full_header (now : Z) (chunk : TarStreamInput)
    (prefix name : bytes) : bytes :=
  name_field name ++ pre_text now chunk
  ++ checksum_text (blank_header now chunk prefix name) ++ [32]
  ++ tail_text chunk ++ prefix_field prefix name.

Section Header.

Variables (now : Z) (chunk : TarStreamInput) (prefix name : bytes).
Hypothesis Hfits : fits now chunk = true.
Hypothesis Hname : (List.length name <= 512)%nat.
Hypothesis Hprefix : (List.length prefix <= 167)%nat.
Hypothesis Hname_ok : bytes_ok name = true.
Hypothesis Hprefix_ok : bytes_ok prefix = true.

Lemma length_name_field : List.length (name_field name) = 100%nat.
Proof.
  unfold name_field. rewrite length_firstn, length_app, repeat_length. lia.
Qed.

Lemma length_prefix_field :
  List.length (prefix_field prefix name) = 167%nat.
Proof.
  unfold prefix_field.
  rewrite length_app, !length_skipn, length_app, repeat_length. lia.
Qed.

Lemma length_blank_header :
  List.length (blank_header now chunk prefix name) = 512%nat.
Proof.
  unfold blank_header.
  destruct (fits_pre now chunk Hfits) as [_ Hp].
  destruct (fits_tail now chunk Hfits) as [_ Ht].
  rewrite !length_app, length_name_field, length_prefix_field, Hp, Ht.
  reflexivity.
Qed.

Lemma bytes_ok_blank_header :
  bytes_ok (blank_header now chunk prefix name) = true.
Proof.
  unfold blank_header, name_field, prefix_field.
  destruct (fits_pre now chunk Hfits) as [Hp _].
  destruct (fits_tail now chunk Hfits) as [Ht _].
  assert (Hx : bytes_ok (name ++ repeat 0 (512 - List.length name)) = true)
    by now rewrite bytes_ok_app, Hname_ok, bytes_ok_repeat0.
  rewrite !bytes_ok_app, (bytes_ok_firstn _ _ Hx), Hprefix_ok.
  rewrite (bytes_ok_skipn _ _ (bytes_ok_skipn 345 _ Hx)).
  now rewrite (ascii_bytes_ok _ Hp), (ascii_bytes_ok _ Ht).
Qed.

Lemma sum_blank_header :
  0 <= sum (blank_header now chunk prefix name) < 8 ^ 6.
Proof.
  pose proof (sum_bounds _ bytes_ok_blank_header) as H.
  unfold len in H. rewrite length_blank_header in H.
  change (8 ^ 6) with 262144. simpl in H. lia.
Qed.

(** The checksum text is six octal digits and a NUL. *)
Lemma checksum_text_digits :
  exists digits,
    checksum_text (blank_header now chunk prefix name) = digits ++ [0]
    /\ octal digits = true /\ List.length digits = 6%nat
    /\ octal_value digits = sum (blank_header now chunk prefix name).
Proof.
  pose proof sum_blank_header as Hs.
  destruct (toString8_small 6 _ ltac:(lia) Hs) as [E Hn].
  apply narrow_spec in Hn as [_ Hl].
  exists (padStart 6 48
            (toString8 (Int (sum (blank_header now chunk prefix name))))).
  split; [reflexivity|]. rewrite E in *. split; [|split].
  - apply octal_padStart, octal_of_nonneg_octal. lia.
  - now apply length_padStart.
  - unfold padStart. rewrite octal_value_zeros.
    apply octal_of_nonneg_value. lia.
Qed.

Lemma make_header_layout :
  make_header now chunk prefix name
  = Ok (full_header now chunk prefix name).
Proof.
  destruct (fits_pre now chunk Hfits) as [Hap Hlp].
  destruct (fits_tail now chunk Hfits) as [Hat Hlt].
  destruct (fits_template now chunk Hfits) as [Het Hlt'].
  destruct checksum_text_digits as (digits & Hck & Hoct & Hlen & _).
  pose proof length_name_field as HlN.
  pose proof length_prefix_field as HlP.
  unfold make_header.
  (* header.set(name) *)
  rewrite set_ok by (rewrite repeat_length; lia).
  cbn [bind firstn app Nat.add]. rewrite skipn_repeat.
  set (X := name ++ repeat 0 (512 - List.length name)).
  assert (HlX : List.length X = 512%nat)
    by (unfold X; rewrite length_app, repeat_length; lia).
  (* header.set(template, 100) *)
  rewrite set_ok by (rewrite Het, Hlt', HlX; lia).
  cbn [bind]. rewrite Het, Hlt', template_split.
  change (100 + 245)%nat with 345%nat.
  change (firstn 100 X) with (name_field name).
  set (T := pre_text now chunk ++ repeat 32 8 ++ tail_text chunk).
  assert (HlT : List.length T = 245%nat)
    by (unfold T; rewrite !length_app, Hlp, Hlt; reflexivity).
  assert (HlNT : List.length (name_field name ++ T) = 345%nat)
    by (rewrite length_app, HlN, HlT; reflexivity).
  (* header.set(prefix, 345) *)
  rewrite set_ok
    by (rewrite !length_app, HlN, HlT, length_skipn, HlX; lia).
  cbn [bind].
  rewrite (app_assoc (name_field name) T).
  rewrite (firstn_app_l 345 _ _ HlNT), (skipn_app_more 345 _ _ _ HlNT).
  assert (H3 : (name_field name ++ T) ++ prefix
               ++ skipn (List.length prefix) (skipn 345 X)
               = blank_header now chunk prefix name)
    by (unfold blank_header, prefix_field, T; now rewrite <- !app_assoc).
  rewrite H3. clear H3.
  (* header.set(checksum, 148) *)
  assert (Hec : encode (checksum_text (blank_header now chunk prefix name))
                = checksum_text (blank_header now chunk prefix name)).
  { apply encode_ascii. rewrite Hck, ascii_app, (octal_ascii _ Hoct).
    reflexivity. }
  assert (Hlc : List.length
                  (checksum_text (blank_header now chunk prefix name))
                = 7%nat)
    by (rewrite Hck, length_app, Hlen; reflexivity).
  rewrite set_ok by (rewrite Hec, Hlc, length_blank_header; lia).
  rewrite Hec, Hlc.
  f_equal. unfold full_header.
  unfold blank_header at 1 3.
  assert (HlNp : List.length (name_field name ++ pre_text now chunk)
                 = 148%nat)
    by (rewrite length_app, HlN, Hlp; reflexivity).
  rewrite !(app_assoc (name_field name) (pre_text now chunk)).
  rewrite (firstn_app_l 148 _ _ HlNp).
  change (148 + 7)%nat with (148 + 7)%nat.
  rewrite (skipn_app_more 148 7 _ _ HlNp).
  cbn [repeat skipn app]. rewrite <- !app_assoc.
  reflexivity.
Qed.

End Header.

(** *** Reading the fields back *)

Lemma slice_nat {A} (l : list A) (lo hi : Z) :
  0 <= lo <= hi ->
  slice l lo hi = firstn (Z.to_nat (hi - lo)) (skipn (Z.to_nat lo) l).
Proof.
  intros H. unfold slice, rel. pose proof (len_nonneg l).
  destruct (Z.ltb_spec lo 0); [lia|].
  destruct (Z.ltb_spec hi 0); [lia|].
  destruct (Z.le_gt_cases lo (len l)).
  - rewrite (Z.min_l lo) by lia.
    destruct (Z.le_gt_cases hi (len l)).
    + now rewrite (Z.min_l hi) by lia.
    + rewrite (Z.min_r hi) by lia.
      rewrite !firstn_all2; auto; rewrite length_skipn; unfold len in *; lia.
  - rewrite !Z.min_r by lia. rewrite Z.sub_diag.
    rewrite !skipn_all2 by (unfold len in *; lia).
    now rewrite !firstn_nil.
Qed.

Lemma slice_at {A} (pre f post : list A) (lo hi : Z) :
  len pre = lo -> len f = hi - lo -> slice (pre ++ f ++ post) lo hi = f.
Proof.
  intros Hpre Hf. pose proof (len_nonneg pre). pose proof (len_nonneg f).
  rewrite slice_nat by lia.
  rewrite skipn_app_l by (unfold len in *; lia).
  apply firstn_app_l. unfold len in *. lia.
Qed.

Lemma concat_split {A} (fs : list (list A)) (k : nat) (f : list A) :
  nth_error fs k = Some f ->
  concat fs = concat (firstn k fs) ++ f ++ concat (skipn (S k) fs).
Proof.
  revert k. induction fs as [|g fs IH]; intros [|k] H; simpl in *;
    try discriminate.
  - now inversion H.
  - now rewrite (IH k H), <- app_assoc.
Qed.

(** The [k]-th of a sequence of fields is found between the offsets the
    fields before it add up to. *)
Lemma slice_field {A} (fs : list (list A)) (k : nat) (f : list A)
    (lo hi : Z) :
  nth_error fs k = Some f ->
  len (concat (firstn k fs)) = lo -> len f = hi - lo ->
  slice (concat fs) lo hi = f.
Proof.
  intros Hk Hlo Hf. rewrite (concat_split fs k f Hk).
  now apply slice_at.
Qed.

Definition checksum_digits (h : bytes) : jsstring :=
  padStart 6 48 (toString8 (Int (sum h))).

(** Bytes 345 to 499, and the twelve bytes that follow. *)
Definition prefix_area (prefix name : bytes) : bytes :=
  firstn 155 (prefix_field prefix name).

Definition pad_area (prefix name : bytes) : bytes :=
  skipn 155 (prefix_field prefix name).

(** The fields of an emitted header, in order. *)
Definition header_fields (now : Z) (chunk : TarStreamInput)
    (prefix name : bytes) : list bytes :=
  [ name_field name;
    mode_text chunk; uid_text chunk; gid_text chunk;
    size_text chunk; mtime_text now chunk;
    checksum_digits (blank_header now chunk prefix name); [0; 32];
    [typeflag_of chunk]; repeat 0 100; ustar_magic;
    padEnd 32 0 (field_or (options chunk) uname []);
    padEnd 32 0 (field_or (options chunk) gname []);
    padEnd 8 0 (field_or (options chunk) devmajor []);
    padEnd 8 0 (field_or (options chunk) devminor []);
    prefix_area prefix name;
    pad_area prefix name ].

Lemma full_header_fields now chunk prefix name :
  full_header now chunk prefix name
  = concat (header_fields now chunk prefix name).
Proof.
  unfold full_header, header_fields, pre_text, tail_text, checksum_text,
    checksum_digits, prefix_area, pad_area.
  cbn [concat]. rewrite app_nil_r, (firstn_skipn 155), <- !app_assoc.
  reflexivity.
Qed.

Section Widths.

Variables (now : Z) (chunk : TarStreamInput).
Hypothesis Hfits : fits now chunk = true.

Lemma fits_widths :
  List.length (mode_text chunk) = 8%nat
  /\ List.length (uid_text chunk) = 8%nat
  /\ List.length (gid_text chunk) = 8%nat
  /\ List.length (size_text chunk) = 12%nat
  /\ List.length (mtime_text now chunk) = 12%nat
  /\ List.length (padEnd 32 0 (field_or (options chunk) uname [])) = 32%nat
  /\ List.length (padEnd 32 0 (field_or (options chunk) gname [])) = 32%nat
  /\ List.length (padEnd 8 0 (field_or (options chunk) devmajor [])) = 8%nat
  /\ List.length (padEnd 8 0 (field_or (options chunk) devminor [])) = 8%nat.
Proof.
  pose proof (fits_size now chunk Hfits) as [_ Hls].
  unfold fits in Hfits.
  apply andb_true_iff in Hfits as [Hf Hdmi].
  apply andb_true_iff in Hf as [Hf Hdma].
  apply andb_true_iff in Hf as [Hf Hgn].
  apply andb_true_iff in Hf as [Hf Hun].
  apply andb_true_iff in Hf as [Hf Hmt].
  apply andb_true_iff in Hf as [Hf _].
  apply andb_true_iff in Hf as [Hf Hgid].
  apply andb_true_iff in Hf as [Hmode Huid].
  unfold mode_text, uid_text, gid_text, mtime_text.
  destruct (field_or (options chunk) mtime (Int now)) as [m| | |];
    try discriminate.
  apply andb_true_iff in Hmt as [Hm0 Hm1].
  apply Z.leb_le in Hm0. apply Z.ltb_lt in Hm1.
  destruct (toString8_small 11 m ltac:(lia) ltac:(split; assumption))
    as [_ Hn].
  repeat split;
    first [ assumption
          | apply (padStart_field 6 _ [32; 0]); [assumption|reflexivity]
          | apply (padStart_field 11 _ [32]); [assumption|reflexivity]
          | apply padEnd_field; assumption ].
Qed.

End Widths.

(* ------------------------------------------------------------------ *)
(** ** The checksum *)

(** [h] with the byte at offset [k] replaced by [v]. *)
Definition poke (k : nat) (v : Z) (h : bytes) : bytes :=
  firstn k h ++ v :: skipn (S k) h.

Lemma split_at (k : nat) (h : bytes) :
  (k < List.length h)%nat ->
  h = firstn k h ++ nth k h 0 :: skipn (S k) h.
Proof.
  revert h. induction k as [|k IH]; intros [|x h] H; simpl in *; try lia.
  - reflexivity.
  - f_equal. apply IH. lia.
Qed.

Lemma checksum_ok_unfold (h : bytes) :
  (156 <= List.length h)%nat ->
  checksum_ok h
  = num_eqb (Int (sum (firstn 148 h) + 256 + sum (skipn 156 h)))
      (parseInt8 (decode (firstn 6 (skipn 148 h)))).
Proof.
  intros H. unfold checksum_ok.
  rewrite set_ok by (rewrite repeat_length; lia).
  rewrite repeat_length, !sum_app.
  rewrite (slice_nat h 148 154) by lia.
  change (sum (repeat 32 8)) with 256.
  change (Z.to_nat (154 - 148)) with 6%nat.
  change (Z.to_nat 148) with 148%nat.
  change (148 + 8)%nat with 156%nat.
  do 2 f_equal. lia.
Qed.

(** With one byte outside the checksum field left open, the sum is linear in
    that byte and the stored numeral does not depend on it. *)
Lemma checksum_ok_linear (a b : bytes) :
  (List.length a < 148 \/ 156 <= List.length a)%nat ->
  (156 <= List.length a + S (List.length b))%nat ->
  exists c stored, forall x,
    checksum_ok (a ++ x :: b) = num_eqb (Int (c + x)) stored.
Proof.
  intros Hk Hlen.
  assert (Hl : forall x, (156 <= List.length (a ++ x :: b))%nat)
    by (intros x; rewrite length_app; simpl; lia).
  destruct Hk as [Hk|Hk].
  - exists (sum a + sum (firstn (147 - List.length a) b) + 256
            + sum (skipn (155 - List.length a) b)),
           (parseInt8 (decode (firstn 6 (skipn (147 - List.length a) b)))).
    intros x. rewrite (checksum_ok_unfold _ (Hl x)).
    rewrite firstn_app, !skipn_app.
    rewrite (firstn_all2 a), !(skipn_all2 a) by lia.
    replace (148 - List.length a)%nat with (S (147 - List.length a)) by lia.
    replace (156 - List.length a)%nat with (S (155 - List.length a)) by lia.
    rewrite firstn_cons, !skipn_cons, !app_nil_l, sum_app, sum_cons.
    f_equal. f_equal. lia.
  - exists (sum (firstn 148 a) + 256 + sum (skipn 156 a) + sum b),
           (parseInt8 (decode (firstn 6 (skipn 148 a)))).
    intros x. rewrite (checksum_ok_unfold _ (Hl x)).
    rewrite firstn_app, !skipn_app.
    replace (148 - List.length a)%nat with 0%nat by lia.
    replace (156 - List.length a)%nat with 0%nat by lia.
    rewrite firstn_O, !skipn_O, app_nil_r, firstn_app, length_skipn.
    replace (6 - (List.length a - 148))%nat with 0%nat by lia.
    rewrite firstn_O, app_nil_r, sum_app, sum_cons.
    f_equal. f_equal. lia.
Qed.

(** A block that passes the decoder's test fails it once any one byte
    outside bytes 148 to 155 is changed. *)
Lemma checksum_sensitive (h : bytes) (k : nat) (v : Z) :
  checksum_ok h = true ->
  (k < List.length h)%nat -> (k < 148 \/ 156 <= k)%nat ->
  v <> nth k h 0 ->
  checksum_ok (poke k v h) = false.
Proof.
  intros Hok Hk Hout Hv.
  assert (Hlen : (156 <= List.length h)%nat).
  { unfold checksum_ok, set in Hok. rewrite repeat_length in Hok.
    destruct (Nat.leb_spec (148 + 8) (List.length h)); [lia|discriminate]. }
  pose proof (split_at k h Hk) as Hsplit.
  assert (Hla : List.length (firstn k h) = k)
    by (rewrite length_firstn; lia).
  destruct (checksum_ok_linear (firstn k h) (skipn (S k) h))
    as (c & stored & Hlin).
  - rewrite Hla. exact Hout.
  - rewrite Hla, length_skipn. lia.
  - unfold poke. rewrite Hlin. rewrite Hsplit, Hlin in Hok.
    destruct stored as [z| | |]; try discriminate.
    cbn [num_eqb] in *. apply Z.eqb_eq in Hok. apply Z.eqb_neq. lia.
Qed.

Section Checksum.

Variables (now : Z) (chunk : TarStreamInput) (prefix name : bytes).
Hypothesis Hfits : fits now chunk = true.
Hypothesis Hname : (List.length name <= 512)%nat.
Hypothesis Hprefix : (List.length prefix <= 167)%nat.
Hypothesis Hname_ok : bytes_ok name = true.
Hypothesis Hprefix_ok : bytes_ok prefix = true.

Lemma length_checksum_digits :
  List.length (checksum_digits (blank_header now chunk prefix name)) = 6%nat
  /\ octal (checksum_digits (blank_header now chunk prefix name)) = true
  /\ octal_value (checksum_digits (blank_header now chunk prefix name))
     = sum (blank_header now chunk prefix name).
Proof.
  destruct (checksum_text_digits now chunk prefix name Hfits Hname Hprefix
              Hname_ok Hprefix_ok) as (digits & Hck & Hoct & Hlen & Hval).
  unfold checksum_text in Hck. apply app_inj_tail in Hck as [Hck _].
  unfold checksum_digits. rewrite Hck. auto.
Qed.

Lemma length_full_header :
  List.length (full_header now chunk prefix name) = 512%nat.
Proof.
  unfold full_header, checksum_text.
  fold (checksum_digits (blank_header now chunk prefix name)).
  destruct (fits_pre now chunk Hfits) as [_ Hp].
  destruct (fits_tail now chunk Hfits) as [_ Ht].
  destruct length_checksum_digits as [Hd _].
  rewrite !length_app, (length_name_field prefix name Hname Hprefix),
    (length_prefix_field prefix name Hname Hprefix), Hp, Ht, Hd.
  reflexivity.
Qed.

(** Blanking the checksum field of the emitted header gives back the bytes
    that were summed. *)
Lemma full_header_blanked :
  firstn 148 (full_header now chunk prefix name) ++ repeat 32 8
  ++ skipn 156 (full_header now chunk prefix name)
  = blank_header now chunk prefix name.
Proof.
  destruct (fits_pre now chunk Hfits) as [_ Hp].
  destruct length_checksum_digits as [Hd _].
  unfold full_header, checksum_text.
  fold (checksum_digits (blank_header now chunk prefix name)).
  set (D := checksum_digits (blank_header now chunk prefix name)) in *.
  unfold blank_header.
  assert (HlNp : List.length (name_field name ++ pre_text now chunk)
                 = 148%nat)
    by (rewrite length_app, (length_name_field prefix name Hname Hprefix),
          Hp; reflexivity).
  rewrite !(app_assoc (name_field name) (pre_text now chunk)).
  rewrite (firstn_app_l 148 _ _ HlNp).
  change 156%nat with (148 + 8)%nat.
  rewrite (skipn_app_more 148 8 _ _ HlNp).
  rewrite (app_assoc (D ++ [0]) [32]).
  rewrite skipn_app_l by (rewrite !length_app, Hd; reflexivity).
  now rewrite <- !app_assoc.
Qed.

(** The six digits stored at offset 148. *)
Lemma full_header_checksum_digits :
  firstn 6 (skipn 148 (full_header now chunk prefix name))
  = checksum_digits (blank_header now chunk prefix name).
Proof.
  destruct (fits_pre now chunk Hfits) as [_ Hp].
  destruct length_checksum_digits as [Hd _].
  unfold full_header, checksum_text.
  fold (checksum_digits (blank_header now chunk prefix name)).
  set (D := checksum_digits (blank_header now chunk prefix name)) in *.
  assert (HlNp : List.length (name_field name ++ pre_text now chunk)
                 = 148%nat)
    by (rewrite length_app, (length_name_field prefix name Hname Hprefix),
          Hp; reflexivity).
  rewrite !(app_assoc (name_field name) (pre_text now chunk)).
  rewrite (skipn_app_l 148 _ _ HlNp), <- app_assoc.
  now apply firstn_app_l.
Qed.

(** The emitted header passes the decoder's test. *)
Lemma full_header_checksum_ok :
  checksum_ok (full_header now chunk prefix name) = true.
Proof.
  destruct length_checksum_digits as (Hd & Hoct & Hval).
  rewrite checksum_ok_unfold by (rewrite length_full_header; lia).
  rewrite full_header_checksum_digits.
  rewrite decode_ascii by now apply octal_ascii.
  rewrite <- (app_nil_r (checksum_digits _)).
  rewrite parseInt8_octal; auto.
  - rewrite Hval. pose proof full_header_blanked as Hb.
    apply (f_equal sum) in Hb. rewrite !sum_app in Hb.
    change (sum (repeat 32 8)) with 256 in Hb.
    cbn [num_eqb]. apply Z.eqb_eq. lia.
  - intros E. rewrite E in Hd. discriminate.
Qed.

End Checksum.

Section Fields_read.

Variables (now : Z) (chunk : TarStreamInput) (prefix name : bytes).
Hypothesis Hfits : fits now chunk = true.
Hypothesis Hname : (List.length name <= 512)%nat.
Hypothesis Hprefix : (List.length prefix <= 167)%nat.
Hypothesis Hname_ok : bytes_ok name = true.
Hypothesis Hprefix_ok : bytes_ok prefix = true.

(** The [k]-th field of the emitted header sits at its ustar offset. *)
Lemma full_header_field (k : nat) (f : bytes) (lo hi : Z) :
  nth_error (header_fields now chunk prefix name) k = Some f ->
  nth_error [0; 100; 108; 116; 124; 136; 148; 154; 156; 157; 257; 265;
             297; 329; 337; 345; 500] k = Some lo ->
  nth_error [100; 108; 116; 124; 136; 148; 154; 156; 157; 257; 265;
             297; 329; 337; 345; 500; 512] k = Some hi ->
  slice (full_header now chunk prefix name) lo hi = f.
Proof.
  intros Hf Hlo Hhi. rewrite full_header_fields.
  destruct (fits_widths now chunk Hfits)
    as (H1 & H2 & H3 & H4 & H5 & H6 & H7 & H8 & H9).
  destruct (length_checksum_digits now chunk prefix name Hfits Hname
              Hprefix Hname_ok Hprefix_ok) as [Hd _].
  pose proof (length_name_field prefix name Hname Hprefix) as H0.
  pose proof (length_prefix_field prefix name Hname Hprefix) as HP.
  assert (Hpa : List.length (prefix_area prefix name) = 155%nat)
    by (unfold prefix_area; rewrite length_firstn; lia).
  assert (Hpd : List.length (pad_area prefix name) = 12%nat)
    by (unfold pad_area; rewrite length_skipn; lia).
  assert (Htf : List.length [typeflag_of chunk] = 1%nat) by reflexivity.
  apply (slice_field _ k); [exact Hf| |];
    unfold header_fields in *;
    do 17 (destruct k as [|k];
           [cbn [nth_error] in Hf, Hlo, Hhi;
            inversion Hf; inversion Hlo; inversion Hhi; subst;
            cbn [firstn concat]; rewrite ?len_app; unfold len;
            rewrite ?H0, ?H1, ?H2, ?H3, ?H4, ?H5, ?H6, ?H7, ?H8, ?H9, ?Hd,
              ?Hpa, ?Hpd;
            reflexivity|]);
    cbn [nth_error] in Hlo; destruct k; discriminate.
Qed.

End Fields_read.

(** A header is only produced when [name] and [prefix] fit the block. *)
Lemma make_header_ok_lengths now chunk prefix name h :
  fits now chunk = true ->
  make_header now chunk prefix name = Ok h ->
  (List.length name <= 512)%nat /\ (List.length prefix <= 167)%nat.
Proof.
  intros Hfits Hok. unfold make_header in Hok.
  destruct (fits_template now chunk Hfits) as [Het Hlt].
  unfold set at 1 in Hok. rewrite repeat_length in Hok.
  destruct (Nat.leb_spec (0 + List.length name) 512) as [Hn|Hn];
    [|discriminate].
  split; [lia|]. cbn [bind] in Hok.
  rewrite set_ok in Hok
    by (rewrite Het, Hlt, !length_app, length_firstn, length_skipn,
          repeat_length; lia).
  cbn [bind] in Hok. unfold set at 1 in Hok.
  rewrite Het, Hlt in Hok.
  match type of Hok with
  | context [(345 + List.length prefix <=? List.length ?l)%nat] =>
      assert (Hl : List.length l = 512%nat)
  end.
  { rewrite !length_app, length_firstn, !length_skipn, !length_app,
      length_firstn, length_skipn, repeat_length, Hlt. lia. }
  rewrite Hl in Hok.
  destruct (Nat.leb_spec (345 + List.length prefix) 512); [lia|].
  discriminate.
Qed.

End Layout.

(** Some field of the chunk's options is left out (or the chunk has no
    options at all). *)
Definition omits {A} (field : TarStreamOptions -> option A)
    (chunk : TarStreamInput) : bool :=
  match options chunk with
  | Some o => match field o with Some _ => false | None => true end
  | None => true
  end.

Lemma field_or_omitted {A} (field : TarStreamOptions -> option A)
    (chunk : TarStreamInput) (fallback : A) :
  omits field chunk = true -> field_or (options chunk) field fallback = fallback.
Proof.
  unfold omits, field_or. destruct (options chunk) as [o|]; auto.
  destruct (field o); [discriminate|reflexivity].
Qed.

(** The spec's reading of the defaults: a header written for a chunk without
    [mode] holds the value 0 in its mode field. *)
Definition absent_mode_is_written_as_zero : Prop :=
  forall now chunk prefix name h,
    omits mode chunk = true ->
    make_header now chunk prefix name = Ok h ->
    parseInt8 (decode (slice h 100 106)) = Int 0.

(** C6, as stated, fails: the header of the directory ['d'] without options
    holds 755 in its mode field. *)
Lemma absent_mode_is_not_zero : ~ absent_mode_is_written_as_zero.
Proof.
  intros H.
  assert (E : exists h,
             make_header 0
               (Dir {| d_pathname := PathString (lit "d");
                       d_options := None |}) [] (lit "d/") = Ok h
             /\ parseInt8 (decode (slice h 100 106)) = Int 493).
  { eexists. split; [vm_compute; reflexivity|]. vm_compute. reflexivity. }
  destruct E as (h & Hh & Hm).
  rewrite (fun E => H _ _ _ _ _ E Hh) in Hm by reflexivity. discriminate.
Qed.

(** C6 (amended).  In the header of a chunk whose fields fit, an absent
    [mode] is written as 644 for a file and 755 for a directory, an absent
    [uid] or [gid] as 000000, each followed by a space and a NUL, and an
    absent [devmajor] or [devminor] as eight NUL bytes. *)
Theorem absent_fields_defaults now chunk prefix name h :
  make_header now chunk prefix name = Ok h ->
  fits now chunk = true ->
  bytes_ok name = true -> bytes_ok prefix = true ->
  (omits mode chunk = true ->
   slice h 100 108
   = (if has_size chunk then lit "000644 " else lit "000755 ") ++ [0])
  /\ (omits uid chunk = true -> slice h 108 116 = lit "000000 " ++ [0])
  /\ (omits gid chunk = true -> slice h 116 124 = lit "000000 " ++ [0])
  /\ (omits devmajor chunk = true -> slice h 329 337 = repeat 0 8)
  /\ (omits devminor chunk = true -> slice h 337 345 = repeat 0 8).
Proof.
  intros Hok Hfits Hn Hp.
  destruct (make_header_ok_lengths _ _ _ _ _ Hfits Hok) as [Hln Hlp].
  rewrite (make_header_layout now chunk prefix name Hfits Hln Hlp Hn Hp)
    in Hok.
  inversion Hok; subst h; clear Hok.
  pose proof (full_header_field now chunk prefix name Hfits Hln Hlp Hn Hp)
    as Hfield.
  repeat split; intros Ho.
  - rewrite (Hfield 1%nat _ 100 108 eq_refl eq_refl eq_refl).
    unfold mode_text. rewrite (field_or_omitted mode chunk _ Ho).
    unfold typeflag_of. now destruct (has_size chunk).
  - rewrite (Hfield 2%nat _ 108 116 eq_refl eq_refl eq_refl).
    unfold uid_text. now rewrite (field_or_omitted uid chunk _ Ho).
  - rewrite (Hfield 3%nat _ 116 124 eq_refl eq_refl eq_refl).
    unfold gid_text. now rewrite (field_or_omitted gid chunk _ Ho).
  - rewrite (Hfield 13%nat _ 329 337 eq_refl eq_refl eq_refl).
    now rewrite (field_or_omitted devmajor chunk _ Ho).
  - rewrite (Hfield 14%nat _ 337 345 eq_refl eq_refl eq_refl).
    now rewrite (field_or_omitted devminor chunk _ Ho).
Qed.

Definition plain_dir : TarStreamInput :=
  Dir {| d_pathname := PathString (lit "d"); d_options := None |}.

Lemma absent_fields_defaults_witness :
  exists h,
    make_header 0 plain_dir [] (lit "d/") = Ok h
    /\ slice h 100 108 = lit "000755 " ++ [0]
    /\ slice h 108 116 = lit "000000 " ++ [0]
    /\ slice h 329 337 = repeat 0 8.
Proof.
  eexists. split; [vm_compute; reflexivity|].
  destruct (absent_fields_defaults 0 plain_dir [] (lit "d/") _
              ltac:(vm_compute; reflexivity) eq_refl eq_refl eq_refl)
    as (Hm & Hu & _ & Hd & _).
  split; [exact (Hm eq_refl)|]. split; [exact (Hu eq_refl)|].
  exact (Hd eq_refl).
Defined.

(** The spec's reading of the checksum: every header the generator yields
    passes the decoder's test. *)
Definition every_emitted_header_passes : Prop :=
  forall fuel now paths chunk h out r,
    gen_turn fuel now paths chunk = (h :: out, r) -> checksum_ok h = true.

(** ['d'] with [{ uname: 'u', mtime: 8^12 }]: thirteen octal digits of
    [mtime]. *)
Definition late_dir : TarStreamInput :=
  Dir {| d_pathname := PathString (lit "d");
         d_options :=
           Some {| mode := None; uid := None; gid := None;
                   mtime := Some (Int (8 ^ 12)); uname := Some (lit "u");
                   gname := None; devmajor := None; devminor := None |} |}.

(** C7, as stated, fails: the header yielded for [late_dir] is summed while
    offset 148 holds the last digit of [mtime], and the decoder, which puts
    a space there, finds another sum. *)
Lemma some_emitted_header_fails : ~ every_emitted_header_passes.
Proof.
  intros H.
  assert (E : exists h, gen_turn 0 0 [] late_dir = ([h], Ok [lit "d/"])
                        /\ checksum_ok h = false).
  { eexists. split; [vm_compute; reflexivity|]. vm_compute. reflexivity. }
  destruct E as (h & Hg & Hc).
  rewrite (H _ _ _ _ _ _ _ Hg) in Hc. discriminate.
Qed.

(** C7 (amended).  For a chunk whose fields fit, the header the encoder
    builds stores at offset 148 the six octal digits of the sum of its bytes
    taken with eight spaces in the checksum field, then a NUL and a space;
    the decoder's test accepts it; and the test rejects it once any one byte
    outside the checksum field is changed. *)
Theorem emitted_checksum_is_sound_and_sensitive now chunk prefix name h :
  make_header now chunk prefix name = Ok h ->
  fits now chunk = true ->
  bytes_ok name = true -> bytes_ok prefix = true ->
  slice h 148 156
  = padStart 6 48
      (toString8
         (Int (sum (firstn 148 h ++ repeat 32 8 ++ skipn 156 h))))
    ++ [0; 32]
  /\ checksum_ok h = true
  /\ forall k v,
      (k < List.length h)%nat -> (k < 148 \/ 156 <= k)%nat ->
      v <> nth k h 0 ->
      checksum_ok (poke k v h) = false.
Proof.
  intros Hok Hfits Hn Hp.
  destruct (make_header_ok_lengths _ _ _ _ _ Hfits Hok) as [Hln Hlp].
  rewrite (make_header_layout now chunk prefix name Hfits Hln Hlp Hn Hp)
    in Hok.
  inversion Hok; subst h; clear Hok.
  pose proof (full_header_checksum_ok now chunk prefix name Hfits Hln Hlp
                Hn Hp) as Hck.
  split; [|split; [exact Hck|]].
  - rewrite (full_header_blanked now chunk prefix name Hfits Hln Hlp Hn Hp).
    pose proof (full_header_field now chunk prefix name Hfits Hln Hlp Hn Hp)
      as Hfield.
    pose proof (Hfield 6%nat _ 148 154 eq_refl eq_refl eq_refl) as H6.
    pose proof (Hfield 7%nat _ 154 156 eq_refl eq_refl eq_refl) as H7.
    rewrite slice_nat in * by lia.
    change (Z.to_nat (156 - 148)) with (6 + 2)%nat.
    change (Z.to_nat (154 - 148)) with 6%nat in H6.
    change (Z.to_nat (156 - 154)) with 2%nat in H7.
    change (Z.to_nat 154) with (6 + 148)%nat in H7.
    change (Z.to_nat 148) with 148%nat in *.
    rewrite <- skipn_skipn in H7.
    set (l := skipn 148 (full_header now chunk prefix name)) in *.
    rewrite <- (firstn_skipn 6 l) at 1.
    rewrite firstn_app, H6.
    destruct (length_checksum_digits now chunk prefix name Hfits Hln Hlp
                Hn Hp) as [Hd _].
    unfold checksum_digits in Hd.
    rewrite firstn_all2 by (unfold checksum_digits; rewrite Hd; lia).
    unfold checksum_digits at 2. rewrite Hd.
    change (6 + 2 - 6)%nat with 2%nat. rewrite H7. reflexivity.
  - intros k v Hk Hout Hv. now apply checksum_sensitive.
Qed.

Definition plain_file : TarStreamInput :=
  File {| f_pathname := PathString (lit "a.txt"); size := Int 5;
          sizeExtension := false; iterable := [lit "hello"];
          f_options := None |}.

Lemma emitted_checksum_witness :
  exists h,
    make_header 1700000000 plain_file [] (lit "a.txt") = Ok h
    /\ checksum_ok h = true
    /\ checksum_ok (poke 0 98 h) = false.
Proof.
  eexists. split; [vm_compute; reflexivity|].
  destruct (emitted_checksum_is_sound_and_sensitive 1700000000 plain_file
              [] (lit "a.txt") _ ltac:(vm_compute; reflexivity)
              eq_refl eq_refl eq_refl) as (_ & Hc & Hs).
  split; [exact Hc|].
  apply Hs; [vm_compute; lia|left; lia|vm_compute; discriminate].
Defined.

(* ------------------------------------------------------------------ *)
(** ** One body stream at a time: the theorem *)

Lemma start_invariant chunks upstream :
  invariant (UnTarStream chunks upstream).
Proof.
  unfold UnTarStream. destruct (reader chunks upstream) as [blocks fin].
  intros k b H. unfold body_at, body_in in H. simpl in H.
  destruct k; discriminate.
Qed.

Lemma reachable_invariant (d : decoder) : reachable d -> invariant d.
Proof.
  induction 1 as [chunks upstream|d e d' _ IH Hstep].
  - apply start_invariant.
  - eapply step_preserves_invariant; eassumption.
Qed.

Lemma consume_reachable (fuel : nat) :
  forall d, reachable d -> reachable (consume fuel d).
Proof.
  induction fuel as [|fuel IH]; intros d Hd; simpl; [assumption|].
  destruct (next_event d) as [e|]; [|assumption].
  destruct (step e d) as [d'|] eqn:Hs; [|assumption].
  apply IH. eapply reach_step; eassumption.
Qed.

(** *** Cancellation drains the body *)

Lemma after_read (i : number) (v : bytes) (rest : list bytes) :
  after (dec i) rest
  = skipn (if positive_num i then 0 else 1) (after i (v :: rest)).
Proof.
  destruct i as [z| | |]; cbn [after dec positive_num lt]; try reflexivity.
  destruct (Z.ltb_spec 0 z).
  - replace (Z.to_nat z) with (S (Z.to_nat (z - 1))) by lia. reflexivity.
  - replace (Z.to_nat z) with 0%nat by lia.
    replace (Z.to_nat (z - 1)) with 0%nat by lia. reflexivity.
Qed.

Lemma after_nil (i : number) : after i [] = [].
Proof. destruct i as [z| | |]; cbn [after]; auto. apply skipn_nil. Qed.

Lemma after_done (i : number) (inp : list bytes) :
  positive_num i = false -> after i inp = inp.
Proof.
  destruct i as [z| | |]; cbn [after positive_num lt]; try reflexivity;
    [|discriminate].
  intros H. apply Z.ltb_ge in H.
  replace (Z.to_nat z) with 0%nat by lia. reflexivity.
Qed.

(** The stream of entry [k] is being cancelled and [header] is still held:
    what [reader] has to give, less the blocks the stream has still to
    take, is [T] less [j] blocks; [exact] stands for a cancellation that
    found no BYOB pull suspended. *)
Definition draining (k : nat) (T : list bytes) (exact : Prop) (d : decoder)
  : Prop :=
  exists b j,
    body_at k d = Some b /\ b_state b = Cancelling
    /\ S k = List.length (entries d) /\ header d <> None
    /\ after_body b (input d) = skipn j T
    /\ (exact -> b_buffer b = None /\ j = 0%nat).

(** [header] has been released: [reader] is left with [T] less [j]
    blocks. *)
Definition drained (T : list bytes) (exact : Prop) (d : decoder) : Prop :=
  header d = None
  /\ exists j, input d = skipn j T /\ (exact -> j = 0%nat).

Lemma body_at_update (k j : nat) (b b' : body_stream) (d d0 : decoder) :
  body_at k d = Some b -> entries d0 = entries d ->
  body_at j (update_body k b' d0)
  = if Nat.eqb j k then Some b' else body_at j d.
Proof.
  intros Hk Hes. unfold body_at, update_body. cbn [entries set_entries].
  rewrite Hes. now apply (body_in_put_body _ _ _ _ b).
Qed.

Lemma length_entries_update (k : nat) (b' : body_stream) (d0 : decoder) :
  List.length (entries (update_body k b' d0)) = List.length (entries d0).
Proof. unfold update_body. cbn [entries set_entries]. apply length_put_body. Qed.

(** In a decoder whose last entry is [k], a stream that is not released is
    that of [k]. *)
Lemma only_the_last (d : decoder) (k j : nat) (b bj : body_stream) :
  invariant d -> body_at k d = Some b -> S k = List.length (entries d) ->
  body_at j d = Some bj -> released bj = false -> j = k /\ bj = b.
Proof.
  intros Hinv Hk Hlast Hj Hr.
  destruct (ok_last _ _ _ _ _ (Hinv _ _ Hj) Hr) as [Hl _].
  assert (j = k) by lia. subst j. split; [reflexivity|congruence].
Qed.

(** Once [header] is released, nothing but the top-level [pull] takes a
    block from [reader]. *)
Lemma released_header_is_quiet (d d' : decoder) (e : event) :
  invariant d -> header d = None -> e <> Proceed ->
  step e d = Some d' ->
  header d' = None /\ input d' = input d.
Proof.
  intros Hinv Hh He Hstep.
  assert (Hbusy : forall k b, body_at k d = Some b -> busy b = false).
  { intros k b Hk. destruct (busy b) eqn:Hb; [|reflexivity].
    destruct (ok_busy _ _ _ _ _ (Hinv _ _ Hk) Hb). exact Hh. }
  destruct e as [| | |k|k n|k|k|k]; cbn [step] in Hstep.
  - destruct (is_readable (top d) && negb (polling d)); inversion Hstep.
    auto.
  - congruence.
  - destruct (is_readable (top d)); inversion Hstep. auto.
  - destruct (body_at k d) as [b|] eqn:Hk; [|discriminate].
    pose proof (Hbusy _ _ Hk) as Hb. unfold busy in Hb.
    apply orb_false_iff in Hb as [Ho _]. rewrite Ho in Hstep. discriminate.
  - destruct (body_at k d) as [b|] eqn:Hk; [|discriminate].
    pose proof (Hbusy _ _ Hk) as Hb. unfold busy in Hb.
    apply orb_false_iff in Hb as [Ho _]. rewrite Ho in Hstep. discriminate.
  - destruct (body_at k d) as [b|] eqn:Hk; [|discriminate].
    pose proof (Hbusy _ _ Hk) as Hb. unfold busy in Hb.
    apply orb_false_iff in Hb as [_ Hp]. rewrite Hp in Hstep. discriminate.
  - destruct (body_at k d) as [b|] eqn:Hk; [|discriminate].
    pose proof (Hbusy _ _ Hk) as Hb. unfold busy in Hb.
    apply orb_false_iff in Hb as [Ho _]. rewrite Ho in Hstep. discriminate.
  - destruct (body_at k d) as [b|] eqn:Hk; [|discriminate].
    destruct (is_cancelling (b_state b)) eqn:Hc; [|discriminate].
    destruct (negb (b_lock b)); [|discriminate]. cbn [andb] in Hstep.
    inversion Hstep; subst d'; clear Hstep.
    destruct (ok_last _ _ _ _ _ (Hinv _ _ Hk)
                (cancelling_not_released b Hc)) as [_ [Hne|Hin]];
      [contradiction|].
    unfold body_drain, read. rewrite Hin.
    destruct (positive_num (b_i b)); [destruct (input_end d)|];
      unfold update_body, set_entries, set_header;
      cbn [header input]; auto.
Qed.

Ltac settle_fields :=
  unfold update_body, set_entries, set_header, after_body;
  cbn [header input entries b_state b_i b_buffer].

Lemma draining_step (k : nat) (T : list bytes) (exact : Prop)
    (d d' : decoder) (e : event) :
  invariant d -> draining k T exact d -> e <> Proceed ->
  step e d = Some d' ->
  draining k T exact d' \/ drained T exact d'.
Proof.
  intros Hinv (b & j & Hk & Hst & Hlast & Hh & Haft & Hex) He Hstep.
  pose proof (Hinv _ _ Hk) as Hok.
  assert (Hnot : forall k' b', body_at k' d = Some b' ->
                               released b' = false -> k' = k /\ b' = b)
    by (intros k' b' Hk' Hr; now apply (only_the_last d k k' b b')).
  assert (Hopen : is_open (b_state b) = false) by now rewrite Hst.
  unfold after_body in Haft.
  assert (Hstay : forall b' d0,
             entries d0 = entries d -> header d0 = header d ->
             b_state b' = Cancelling ->
             (exists c, after (b_i b') (input d0) = skipn (c + j) T
                        /\ (exact -> b_buffer b' = None /\ c = 0%nat)) ->
             draining k T exact (update_body k b' d0)).
  { intros b' d0 Hes Hhd Hst' (c & Hc & Hex').
    exists b', (c + j)%nat.
    rewrite (body_at_update k k b b' d d0 Hk Hes), Nat.eqb_refl.
    rewrite length_entries_update, Hes. settle_fields.
    rewrite Hhd.
    split; [reflexivity|]. split; [exact Hst'|]. split; [exact Hlast|].
    split; [exact Hh|]. split; [exact Hc|].
    intros H. destruct (Hex H), (Hex' H). split; [assumption|lia]. }
  assert (Hgone : forall b' d0,
             input d0 = [] -> input d = [] ->
             drained T exact (update_body k b' (set_header None d0))).
  { intros b' d0 Hin0 Hin. split; [reflexivity|]. exists j.
    settle_fields. rewrite Hin, after_nil in Haft.
    split; [congruence|tauto]. }
  destruct e as [| | |k'|k' n|k'|k'|k']; cbn [step] in Hstep.
  - (* Pull *)
    destruct (is_readable (top d) && negb (polling d)); inversion Hstep.
    left. exists b, j. unfold body_at, after_body in *.
    cbn [header input entries set_polling]. tauto.
  - congruence.
  - (* TopCancel *)
    destruct (is_readable (top d)); inversion Hstep.
    left. exists b, j. unfold body_at, after_body in *.
    cbn [header input entries]. tauto.
  - (* BodyPull *)
    destruct (body_at k' d) as [b'|] eqn:Hk'; [|discriminate].
    destruct (is_open (b_state b')) eqn:Ho; [|discriminate].
    destruct (Hnot _ _ Hk' (open_not_released _ Ho)) as [-> ->].
    congruence.
  - (* BodyPullInto *)
    destruct (body_at k' d) as [b'|] eqn:Hk'; [|discriminate].
    destruct (is_open (b_state b')) eqn:Ho; [|discriminate].
    destruct (Hnot _ _ Hk' (open_not_released _ Ho)) as [-> ->].
    congruence.
  - (* BodyResume *)
    destruct (body_at k' d) as [b'|] eqn:Hk'; [|discriminate].
    destruct (b_pulling b') eqn:Hpl; [|discriminate].
    destruct (Hnot _ _ Hk'
                (pulling_not_released _ _ _ _ _ (Hinv _ _ Hk') Hpl))
      as [-> ->].
    inversion Hstep; subst d'; clear Hstep.
    destruct (b_buffer b) as [[n written]|] eqn:Hbf.
    + (* a BYOB pull: the cancellation is not exact *)
      assert (Hno : ~ exact) by (intros H; destruct (Hex H); discriminate).
      unfold body_resume_into, read.
      destruct (input d) as [|value rest] eqn:Hin.
      * destruct (input_end d) as [[]|m|].
        -- right. now apply Hgone.
        -- left. apply Hstay; auto.
           ++ cbn [b_state]. now rewrite Hopen.
           ++ exists 0%nat. cbn [b_i b_buffer]. rewrite Hin.
              split; [exact Haft|tauto].
        -- left. apply Hstay; auto.
           ++ cbn [b_state]. now rewrite Hopen.
           ++ exists 0%nat. cbn [b_i b_buffer]. rewrite Hin.
              split; [exact Haft|tauto].
      * cbv zeta.
        assert (Hnext : exists c,
                   after (dec (b_i b)) rest = skipn (c + j) T
                   /\ (exact -> c = 0%nat)).
        { exists (if positive_num (b_i b) then 0 else 1)%nat.
          split; [|tauto].
          rewrite (after_read _ value), Haft. apply skipn_skipn. }
        destruct Hnext as (c & Hc & _).
        destruct (_ <? _)%nat; [|destruct (_ <? _)%nat];
          (left; apply Hstay; auto;
           exists c; cbn [b_i b_buffer input];
           split; [exact Hc|tauto]).
    + (* a pull of a default reader *)
      pose proof (ok_pull _ _ _ _ _ Hok Hpl Hbf) as Hpos.
      unfold body_resume, read.
      destruct (input d) as [|value rest] eqn:Hin.
      * destruct (input_end d) as [[]|m|].
        -- right. now apply Hgone.
        -- left. apply Hstay; auto.
           ++ cbn [b_state]. now rewrite Hopen.
           ++ exists 0%nat. cbn [b_i b_buffer]. rewrite Hin.
              split; [exact Haft|tauto].
        -- left. apply Hstay; auto.
           ++ cbn [b_state]. now rewrite Hopen.
           ++ exists 0%nat. cbn [b_i b_buffer]. rewrite Hin.
              split; [exact Haft|tauto].
      * cbv zeta. left. apply Hstay; auto.
        -- cbn [b_state]. now rewrite Hopen.
        -- exists 0%nat. cbn [b_i b_buffer input].
           rewrite (after_read _ value), Hpos, Haft.
           split; [reflexivity|tauto].
  - (* BodyCancel *)
    destruct (body_at k' d) as [b'|] eqn:Hk'; [|discriminate].
    destruct (is_open (b_state b')) eqn:Ho; [|discriminate].
    destruct (Hnot _ _ Hk' (open_not_released _ Ho)) as [-> ->].
    congruence.
  - (* BodyDrain *)
    destruct (body_at k' d) as [b'|] eqn:Hk'; [|discriminate].
    destruct (is_cancelling (b_state b')) eqn:Hc; [|discriminate].
    destruct (Hnot _ _ Hk' (cancelling_not_released _ Hc)) as [-> ->].
    destruct (negb (b_lock b)); [|discriminate]. cbn [andb] in Hstep.
    inversion Hstep; subst d'; clear Hstep.
    unfold body_drain, read.
    destruct (positive_num (b_i b)) eqn:Hpos.
    + destruct (input d) as [|value rest] eqn:Hin.
      * right. destruct (input_end d); now apply Hgone.
      * left. apply Hstay; auto.
        exists 0%nat. cbn [b_i b_buffer input].
        rewrite (after_read _ value), Hpos, Haft.
        split; [reflexivity|]. intros H. destruct (Hex H). auto.
    + right. split; [reflexivity|]. exists j. settle_fields.
      rewrite (after_done _ _ Hpos) in Haft. split; [exact Haft|tauto].
Qed.

Lemma draining_run (k : nat) (T : list bytes) (exact : Prop)
    (evs : list event) :
  forall d d',
    reachable d ->
    draining k T exact d \/ drained T exact d ->
    ~ In Proceed evs ->
    run evs d = Some d' ->
    draining k T exact d' \/ drained T exact d'.
Proof.
  induction evs as [|e evs IH]; intros d d' Hreach Hd Hno Hrun.
  - inversion Hrun; subst. exact Hd.
  - cbn [run] in Hrun. destruct (step e d) as [d1|] eqn:Hstep;
      [|discriminate].
    assert (He : e <> Proceed) by (intros ->; apply Hno; now left).
    apply (IH d1 d'); [eapply reach_step; eassumption| |
                       intros H; apply Hno; now right|exact Hrun].
    pose proof (reachable_invariant d Hreach) as Hinv.
    destruct Hd as [Hd|[Hh (j & Hin & Hex)]].
    + eapply draining_step; eassumption.
    + right.
      destruct (released_header_is_quiet d d1 e Hinv Hh He Hstep)
        as [Hh1 Hin1].
      split; [exact Hh1|]. exists j. split; [congruence|exact Hex].
Qed.

(** C8.  In every state the decoder can reach, whatever readers (default or
    BYOB) are used, at most one entry has an open body stream; the
    top-level [pull] gets past its polling loop only when no body stream is
    open or in a pull; when it then has a header block to parse, every
    earlier body stream was either read to its end or cancelled, and in
    both cases has no block left to read; and a cancellation releases
    [header] only once the blocks that the body had still to take have been
    taken from the reader: until the top-level [pull] goes on, the reader
    is then left with what it had when [cancel] was called less those
    blocks, exactly so when no BYOB pull was suspended at that time, and
    possibly less some more blocks otherwise. *)
Theorem one_body_stream_at_a_time (d : decoder) :
  reachable d ->
  (forall j k bj bk,
      body_at j d = Some bj -> body_at k d = Some bk ->
      b_state bj = Open -> b_state bk = Open -> j = k)
  /\ (forall d', step Proceed d = Some d' ->
        forall k b, body_at k d = Some b ->
          b_state b <> Open /\ b_pulling b = false
          /\ (input d <> [] ->
              (b_state b = Done \/ b_state b = Cancelled)
              /\ positive_num (b_i b) = false))
  /\ (forall k b evs d',
        body_at k d = Some b ->
        ~ In Proceed evs ->
        run (BodyCancel k :: evs) d = Some d' ->
        header d' = None ->
        exists j,
          input d' = skipn j (after_body b (input d))
          /\ (b_buffer b = None -> j = 0%nat)).
Proof.
  intros Hreach. pose proof (reachable_invariant d Hreach) as Hinv.
  split; [|split].
  - intros j k bj bk Hj Hk Hoj Hok.
    assert (Hrj : released bj = false) by (unfold released; now rewrite Hoj).
    assert (Hrk : released bk = false) by (unfold released; now rewrite Hok).
    destruct (ok_last _ _ _ _ _ (Hinv _ _ Hj) Hrj) as [Ej _].
    destruct (ok_last _ _ _ _ _ (Hinv _ _ Hk) Hrk) as [Ek _].
    lia.
  - intros d' Hstep k b Hk. simpl in Hstep.
    destruct (polling d); [|discriminate].
    destruct (header d) eqn:Hh; [discriminate|].
    pose proof (Hinv _ _ Hk) as Hok.
    assert (Hu : busy b = false).
    { destruct (busy b) eqn:Hu; [|reflexivity].
      pose proof (ok_busy _ _ _ _ _ Hok Hu) as Hne.
      rewrite Hh in Hne. congruence. }
    unfold busy in Hu.
    apply orb_false_iff in Hu as [Hopen Hpull].
    split; [intros E; rewrite E in Hopen; discriminate|].
    split; [exact Hpull|]. intros Hin.
    assert (Hrel : released b = true).
    { destruct (released b) eqn:Hr; [reflexivity|].
      destruct (ok_last _ _ _ _ _ Hok Hr) as [_ [Hne|Hne]].
      - rewrite Hh in Hne. congruence.
      - contradiction. }
    split.
    + unfold released in Hrel. destruct (b_state b); try discriminate; auto.
    + destruct (ok_drained _ _ _ _ _ Hok Hrel); [assumption|contradiction].
  - intros k b evs d' Hk Hno Hrun Hrel.
    cbn [run step] in Hrun. rewrite Hk in Hrun.
    destruct (is_open (b_state b)) eqn:Ho; [|discriminate].
    set (b0 := {| b_size := b_size b; b_i := b_i b; b_lock := b_lock b;
                  b_pulling := b_pulling b; b_state := Cancelling;
                  b_chunks := b_chunks b; b_leftover := b_leftover b;
                  b_buffer := b_buffer b |}) in *.
    pose proof (Hinv _ _ Hk) as Hok.
    assert (Hstart : draining k (after_body b (input d))
                       (b_buffer b = None) (update_body k b0 d)).
    { exists b0, 0%nat.
      rewrite (body_at_update k k b _ d d Hk eq_refl), Nat.eqb_refl.
      rewrite length_entries_update.
      destruct (ok_last _ _ _ _ _ Hok (open_not_released b Ho)) as [Hl _].
      assert (Hb : busy b = true) by (unfold busy; now rewrite Ho).
      pose proof (ok_busy _ _ _ _ _ Hok Hb) as Hh.
      unfold update_body, set_entries. cbn [header input].
      repeat split; auto. }
    assert (Hreach0 : reachable (update_body k b0 d)).
    { apply (reach_step d (BodyCancel k)); [exact Hreach|].
      cbn [step]. now rewrite Hk, Ho. }
    destruct (draining_run k _ _ evs _ d' Hreach0 (or_introl Hstart)
                Hno Hrun)
      as [(b1 & j & _ & _ & _ & Hh & _)|[_ Hd]].
    + contradiction.
    + exact Hd.
Qed.

(** The decoder of the archive of [plain_file], once the consumer has asked
    for the first entry and started to read its body. *)
Definition demo_decoder : decoder :=
  consume 3
    (UnTarStream (fst (TarStream 0 (fun _ => 0) [plain_file]))
       (snd (TarStream 0 (fun _ => 0) [plain_file]))).

Lemma one_body_stream_witness :
  reachable demo_decoder
  /\ (forall j k bj bk,
         body_at j demo_decoder = Some bj ->
         body_at k demo_decoder = Some bk ->
         b_state bj = Open -> b_state bk = Open -> j = k)
  /\ (forall d', step Proceed demo_decoder = Some d' ->
        forall k b, body_at k demo_decoder = Some b ->
          b_state b <> Open /\ b_pulling b = false
          /\ (input demo_decoder <> [] ->
              (b_state b = Done \/ b_state b = Cancelled)
              /\ positive_num (b_i b) = false))
  /\ (forall k b evs d',
        body_at k demo_decoder = Some b ->
        ~ In Proceed evs ->
        run (BodyCancel k :: evs) demo_decoder = Some d' ->
        header d' = None ->
        exists j,
          input d' = skipn j (after_body b (input demo_decoder))
          /\ (b_buffer b = None -> j = 0%nat)).
Proof.
  assert (H : reachable demo_decoder)
    by (apply consume_reachable, reach_start).
  split; [exact H|].
  exact (one_body_stream_at_a_time demo_decoder H).
Defined.

(* ------------------------------------------------------------------ *)
(** ** The draining consumer *)

Lemma consume_stalled (d : decoder) :
  next_event d = None -> forall fuel, consume fuel d = d.
Proof. intros H [|fuel]; simpl; [reflexivity|now rewrite H]. Qed.

Lemma consume_add (n m : nat) :
  forall d, consume (n + m) d = consume m (consume n d).
Proof.
  induction n as [|n IH]; intros d; [reflexivity|].
  cbn [Nat.add consume].
  destruct (next_event d) as [e|] eqn:He.
  - destruct (step e d) as [d'|] eqn:Hs; [apply IH|].
    destruct m; simpl; [reflexivity|now rewrite He, Hs].
  - now rewrite consume_stalled.
Qed.

(** ['a.txt'], 512 bytes, all of them 7. *)
Definition file_512 : TarStreamInput :=
  File {| f_pathname := PathString (lit "a.txt"); size := Int 512;
          sizeExtension := false; iterable := [repeat 7 512%nat];
          f_options := None |}.

(** C2 (as the code has it).  The archive of a file of 512 bytes decodes to
    an entry of declared size 512 whose body stream hands out no byte: the
    only block of the body is cut to [512 % 512 = 0] bytes, which the byte
    stream refuses, so the stream ends in an error; [header] is never reset
    and the decoder waits for ever, the trailer unread. *)
Theorem body_of_512_bytes_is_lost :
  forall fuel,
    let out := TarStream 0 (fun _ => 0) [file_512] in
    let d := consume (5 + fuel) (UnTarStream (fst out) (snd out)) in
    snd out = Ok tt
    /\ map seen (entries d)
       = [(lit "a.txt", Int 512,
           Some ([], Failed "TypeError: chunk is empty"))]
    /\ header d <> None
    /\ top d = Readable.
Proof.
  intros fuel out d. subst d. rewrite consume_add.
  set (start := UnTarStream (fst out) (snd out)).
  let v := eval vm_compute in (consume 5 start) in
  assert (E : consume 5 start = v) by (vm_compute; reflexivity);
  rewrite E; clear E.
  rewrite consume_stalled by (vm_compute; reflexivity).
  repeat split; try (vm_compute; reflexivity).
  vm_compute. discriminate.
Qed.

(* ------------------------------------------------------------------ *)
(** ** Regrouping the input into blocks *)

Section Reassembly.

(** The first [n] blocks of 512 bytes of [l]. *)
Fixpoint blocks (n : nat) (l : bytes) : list bytes :=
  match n with
  | O => []
  | S n' => firstn 512 l :: blocks n' (skipn 512 l)
  end.

Lemma blocks_app (a b : nat) (X Y : bytes) :
  List.length X = (512 * a)%nat ->
  blocks (a + b) (X ++ Y) = blocks a X ++ blocks b Y.
Proof.
  revert X. induction a as [|a IH]; intros X HX.
  - destruct X; [reflexivity|discriminate].
  - cbn [Nat.add blocks app].
    rewrite firstn_app, skipn_app.
    replace (512 - List.length X)%nat with 0%nat by lia.
    rewrite firstn_O, skipn_O, app_nil_r.
    rewrite IH by (rewrite length_skipn; lia). reflexivity.
Qed.

Lemma blocks_one (X : bytes) :
  List.length X = 512%nat -> blocks 1 X = [X].
Proof. intros H. cbn [blocks]. now rewrite firstn_all2 by lia. Qed.

Lemma blocks_prefix (q : nat) (X Y : bytes) :
  (512 * q <= List.length X)%nat -> blocks q (X ++ Y) = blocks q X.
Proof.
  revert X. induction q as [|q IH]; intros X HX; [reflexivity|].
  cbn [blocks]. rewrite firstn_app, skipn_app.
  replace (512 - List.length X)%nat with 0%nat by lia.
  rewrite firstn_O, skipn_O, app_nil_r.
  rewrite IH by (rewrite length_skipn; lia). reflexivity.
Qed.

Lemma length_blocks (n : nat) (l : bytes) : List.length (blocks n l) = n.
Proof. revert l. induction n; intros l; simpl; auto. Qed.

Lemma slices_are_blocks (y : bytes) (q : nat) :
  forall s,
    map (fun k => slice y (512 * Z.of_nat k) (512 * Z.of_nat k + 512))
        (seq s q)
    = blocks q (skipn (512 * s) y).
Proof.
  induction q as [|q IH]; intros s; [reflexivity|].
  cbn [seq map blocks]. rewrite IH, skipn_skipn.
  rewrite slice_nat by lia.
  replace (Z.to_nat (512 * Z.of_nat s + 512 - 512 * Z.of_nat s))
    with 512%nat by lia.
  replace (Z.to_nat (512 * Z.of_nat s)) with (512 * s)%nat by lia.
  replace (512 * S s)%nat with (512 + 512 * s)%nat by lia.
  reflexivity.
Qed.

Lemma to_nat_div512 (n : nat) :
  Z.to_nat (Z.of_nat n / 512) = (n / 512)%nat.
Proof.
  change 512 with (Z.of_nat 512). rewrite <- Nat2Z.inj_div.
  apply Nat2Z.id.
Qed.

Lemma of_nat_mod512 (n : nat) :
  Z.of_nat n mod 512 = Z.of_nat (n mod 512).
Proof. change 512 with (Z.of_nat 512). now rewrite <- Nat2Z.inj_mod. Qed.

(** The first transform hands on the whole blocks of carry and chunk and
    keeps the rest. *)
Lemma slicer_transform_blocks (x chunk : bytes) :
  let y := x ++ chunk in
  slicer_transform x chunk
  = (blocks (List.length y / 512) y,
     skipn (512 * (List.length y / 512)) y).
Proof.
  intros y. unfold slicer_transform. fold y. f_equal.
  - unfold len. rewrite to_nat_div512, slices_are_blocks.
    reflexivity.
  - unfold len. rewrite of_nat_mod512.
    pose proof (Nat.div_mod_eq (List.length y) 512) as Hdm.
    pose proof (Nat.mod_upper_bound (List.length y) 512 ltac:(lia)) as Hlt.
    destruct (Z.eqb_spec (Z.of_nat (List.length y mod 512)) 0) as [E|E].
    + rewrite skipn_all2 by lia. reflexivity.
    + unfold slice_from, slice, rel, len.
      destruct (Z.ltb_spec (- Z.of_nat (List.length y mod 512)) 0); [|lia].
      destruct (Z.ltb_spec (Z.of_nat (List.length y)) 0); [lia|].
      rewrite Z.min_id, Z.max_l by lia.
      replace (Z.to_nat
                 (Z.of_nat (List.length y)
                  + - Z.of_nat (List.length y mod 512)))
        with (512 * (List.length y / 512))%nat by lia.
      apply firstn_all2. rewrite length_skipn. lia.
Qed.

Lemma slicer_blocks (chunks : list bytes) :
  forall x,
    (List.length x < 512)%nat ->
    let y := x ++ concat chunks in
    slicer x chunks
    = (blocks (List.length y / 512) y,
       skipn (512 * (List.length y / 512)) y).
Proof.
  induction chunks as [|c r IH]; intros x Hx y; subst y.
  - cbn [concat slicer]. rewrite app_nil_r.
    rewrite Nat.div_small by assumption. reflexivity.
  - cbn [concat slicer]. rewrite slicer_transform_blocks.
    set (y := x ++ c).
    pose proof (Nat.div_mod_eq (List.length y) 512) as Hdm.
    pose proof (Nat.mod_upper_bound (List.length y) 512 ltac:(lia)) as Hlt.
    set (q := (List.length y / 512)%nat) in *.
    rewrite IH by (rewrite length_skipn; lia).
    set (y2 := skipn (512 * q) y ++ concat r).
    assert (Hy : x ++ c ++ concat r = firstn (512 * q) y ++ y2).
    { unfold y2. rewrite (app_assoc (firstn (512 * q) y)), firstn_skipn.
      unfold y. now rewrite <- app_assoc. }
    assert (Hlf : List.length (firstn (512 * q) y) = (512 * q)%nat)
      by (rewrite length_firstn; lia).
    rewrite Hy, length_app, Hlf.
    replace (512 * q + List.length y2)%nat
      with (q * 512 + List.length y2)%nat by lia.
    rewrite Nat.div_add_l by lia.
    rewrite (blocks_app q _ _ _ Hlf).
    rewrite <- (firstn_skipn (512 * q) y) at 1.
    rewrite (blocks_prefix q) by lia.
    f_equal.
    replace (512 * (q + List.length y2 / 512))%nat
      with (512 * q + 512 * (List.length y2 / 512))%nat by lia.
    now rewrite (skipn_app_more (512 * q) _ _ _ Hlf).
Qed.

(** A stream of [n] whole blocks, however it is chunked, is regrouped into
    those [n] blocks with nothing left over. *)
Lemma slicer_aligned (chunks : list bytes) (n : nat) :
  List.length (concat chunks) = (512 * n)%nat ->
  slicer [] chunks = (blocks n (concat chunks), []).
Proof.
  intros H. rewrite slicer_blocks by (simpl; lia).
  cbn [app]. rewrite H.
  replace (512 * n)%nat with (n * 512)%nat by lia.
  rewrite Nat.div_mul by lia.
  rewrite skipn_all2 by lia. reflexivity.
Qed.

(** The second transform forwards every block but the last two. *)
Lemma trimmer_holds_two (bs : list bytes) :
  forall x,
    (List.length x <= 2)%nat ->
    trimmer x bs
    = (firstn (List.length (x ++ bs) - 2) (x ++ bs),
       skipn (List.length (x ++ bs) - 2) (x ++ bs)).
Proof.
  induction bs as [|b r IH]; intros x Hx.
  - cbn [trimmer]. rewrite app_nil_r.
    replace (List.length x - 2)%nat with 0%nat by lia. reflexivity.
  - cbn [trimmer]. unfold trimmer_transform.
    destruct x as [|a1 [|a2 [|a3 x]]]; cbn [List.length] in Hx; try lia;
      cbn [app List.length Nat.eqb];
      rewrite IH by (cbn [List.length app]; lia);
      cbn [app List.length];
      rewrite ?Nat.sub_0_r; try reflexivity;
      try (destruct r; reflexivity);
      try (replace (S (S (S (List.length r))) - 2)%nat
             with (S (List.length r)) by lia; reflexivity).
Qed.

Lemma trimmer_trailer (bs : list bytes) (z1 z2 : bytes) :
  trimmer [] (bs ++ [z1; z2]) = (bs, [z1; z2]).
Proof.
  rewrite trimmer_holds_two by (simpl; lia). cbn [app].
  rewrite length_app. cbn [List.length].
  replace (List.length bs + 2 - 2)%nat with (List.length bs) by lia.
  rewrite firstn_app, skipn_app, firstn_all, skipn_all, Nat.sub_diag.
  cbn [firstn skipn app]. now rewrite app_nil_r.
Qed.

End Reassembly.

(* ------------------------------------------------------------------ *)
(** ** TextEncoder then TextDecoder *)

Section Utf8.

(** A string of UTF-16 code units without lone surrogates. *)
Fixpoint well_formed (s : jsstring) : bool :=
  match s with
  | [] => true
  | u :: rest =>
      if is_high u then
        match rest with
        | l :: rest' => is_low l && well_formed rest'
        | [] => false
        end
      else negb (is_low u) && within 0 0xFFFF u && well_formed rest
  end.

Definition scalar (c : Z) : Prop :=
  0 <= c < 0xD800 \/ 0xE000 <= c < 0x110000.

Lemma within_true (lo hi b : Z) : lo <= b <= hi -> within lo hi b = true.
Proof.
  intros H. unfold within.
  destruct (Z.leb_spec lo b); [|lia].
  destruct (Z.leb_spec b hi); [reflexivity|lia].
Qed.

Lemma within_false (lo hi b : Z) : b < lo \/ hi < b -> within lo hi b = false.
Proof.
  intros H. unfold within.
  destruct (Z.leb_spec lo b); [|reflexivity].
  destruct (Z.leb_spec b hi); [lia|reflexivity].
Qed.

Lemma within_spec (lo hi b : Z) : within lo hi b = true -> lo <= b <= hi.
Proof.
  unfold within. intros H. apply andb_true_iff in H as [H0 H1].
  apply Z.leb_le in H0, H1. lia.
Qed.

Ltac euclid := Z.to_euclidean_division_equations; lia.

Lemma decode_cps_two (b c1 : Z) (r : bytes) :
  0xC2 <= b <= 0xDF -> 0x80 <= c1 <= 0xBF ->
  decode_cps (b :: c1 :: r)
  = ((b - 0xC0) * 64 + (c1 - 0x80)) :: decode_cps r.
Proof.
  intros Hb Hc. cbn [decode_cps].
  destruct (Z.leb_spec b 0x7F); [lia|].
  now rewrite (within_true 0xC2 0xDF b), (within_true 0x80 0xBF c1).
Qed.

Lemma decode_cps_three (b c1 c2 : Z) (r : bytes) :
  0xE0 <= b <= 0xEF ->
  (if b =? 0xE0 then 0xA0 else 0x80) <= c1
  <= (if b =? 0xED then 0x9F else 0xBF) ->
  0x80 <= c2 <= 0xBF ->
  decode_cps (b :: c1 :: c2 :: r)
  = ((b - 0xE0) * 4096 + (c1 - 0x80) * 64 + (c2 - 0x80)) :: decode_cps r.
Proof.
  intros Hb Hc1 Hc2. cbn [decode_cps].
  destruct (Z.leb_spec b 0x7F); [lia|].
  rewrite (within_false 0xC2 0xDF b) by lia.
  rewrite (within_true 0xE0 0xEF b) by lia.
  rewrite (within_true _ _ c1 Hc1).
  now rewrite (within_true 0x80 0xBF c2).
Qed.

Lemma decode_cps_four (b c1 c2 c3 : Z) (r : bytes) :
  0xF0 <= b <= 0xF4 ->
  (if b =? 0xF0 then 0x90 else 0x80) <= c1
  <= (if b =? 0xF4 then 0x8F else 0xBF) ->
  0x80 <= c2 <= 0xBF -> 0x80 <= c3 <= 0xBF ->
  decode_cps (b :: c1 :: c2 :: c3 :: r)
  = ((b - 0xF0) * 262144 + (c1 - 0x80) * 4096 + (c2 - 0x80) * 64
     + (c3 - 0x80)) :: decode_cps r.
Proof.
  intros Hb Hc1 Hc2 Hc3. cbn [decode_cps].
  destruct (Z.leb_spec b 0x7F); [lia|].
  rewrite (within_false 0xC2 0xDF b) by lia.
  rewrite (within_false 0xE0 0xEF b) by lia.
  rewrite (within_true 0xF0 0xF4 b) by lia.
  rewrite (within_true _ _ c1 Hc1).
  rewrite (within_true 0x80 0xBF c2) by lia.
  now rewrite (within_true 0x80 0xBF c3).
Qed.

(** The decoder reads back the code point the encoder wrote. *)
Lemma decode_cps_utf8 (c : Z) (rest : bytes) :
  scalar c -> decode_cps (utf8_of_cp c ++ rest) = c :: decode_cps rest.
Proof.
  intros Hc. unfold utf8_of_cp, scalar in *.
  destruct (Z.ltb_spec c 0x80).
  - cbn [app]. apply decode_cps_low. lia.
  - destruct (Z.ltb_spec c 0x800).
    + cbn [app]. rewrite decode_cps_two by euclid. f_equal. euclid.
    + destruct (Z.ltb_spec c 0x10000).
      * cbn [app]. rewrite decode_cps_three.
        -- f_equal. euclid.
        -- euclid.
        -- destruct (Z.eqb_spec (0xE0 + c / 4096) 0xE0);
             destruct (Z.eqb_spec (0xE0 + c / 4096) 0xED); euclid.
        -- euclid.
      * cbn [app]. rewrite decode_cps_four.
        -- f_equal. euclid.
        -- euclid.
        -- destruct (Z.eqb_spec (0xF0 + c / 262144) 0xF0);
             destruct (Z.eqb_spec (0xF0 + c / 262144) 0xF4); euclid.
        -- euclid.
        -- euclid.
Qed.

Lemma utf8_bytes_ok (c : Z) : scalar c -> bytes_ok (utf8_of_cp c) = true.
Proof.
  intros Hc. unfold utf8_of_cp, scalar, bytes_ok in *.
  destruct (Z.ltb_spec c 0x80); [|destruct (Z.ltb_spec c 0x800);
    [|destruct (Z.ltb_spec c 0x10000)]];
    cbn [forallb]; rewrite ?within_true; try reflexivity; euclid.
Qed.

(** The first byte of the encoding of a code point, and when the encoding
    is the byte order mark. *)
Lemma utf8_no_bom (c : Z) (rest : bytes) :
  scalar c -> c <> 0xFEFF -> has_bom (utf8_of_cp c ++ rest) = false.
Proof.
  intros Hc Hne. unfold utf8_of_cp, scalar in *.
  destruct (Z.ltb_spec c 0x80); [|destruct (Z.ltb_spec c 0x800);
    [|destruct (Z.ltb_spec c 0x10000)]]; cbn [app]; unfold has_bom.
  - destruct rest as [|b1 [|b2 r]]; try reflexivity.
    destruct (Z.eqb_spec c 0xEF); [lia|reflexivity].
  - destruct rest as [|b2 r]; try reflexivity.
    destruct (Z.eqb_spec (0xC0 + c / 64) 0xEF); [euclid|reflexivity].
  - destruct (Z.eqb_spec (0xE0 + c / 4096) 0xEF); [|reflexivity].
    destruct (Z.eqb_spec (0x80 + (c / 64) mod 64) 0xBB); [|reflexivity].
    destruct (Z.eqb_spec (0x80 + c mod 64) 0xBF); [|reflexivity].
    exfalso. euclid.
  - destruct (Z.eqb_spec (0xF0 + c / 262144) 0xEF); [euclid|reflexivity].
Qed.

Lemma encode_pair (u l : Z) (rest : jsstring) :
  is_high u = true -> is_low l = true ->
  encode (u :: l :: rest)
  = utf8_of_cp (0x10000 + (u - 0xD800) * 1024 + (l - 0xDC00))
    ++ encode rest.
Proof.
  intros Hh Hl.
  change (encode (u :: l :: rest))
    with (if is_high u then
            if is_low l
            then utf8_of_cp (0x10000 + (u - 0xD800) * 1024 + (l - 0xDC00))
                   ++ encode rest
            else utf8_of_cp 0xFFFD ++ encode (l :: rest)
          else if is_low u then utf8_of_cp 0xFFFD ++ encode (l :: rest)
          else utf8_of_cp u ++ encode (l :: rest)).
  now rewrite Hh, Hl.
Qed.

Lemma pair_scalar (u l : Z) :
  is_high u = true -> is_low l = true ->
  let c := 0x10000 + (u - 0xD800) * 1024 + (l - 0xDC00) in
  0x10000 <= c < 0x110000 /\ utf16_of_cp c = [u; l].
Proof.
  intros Hh Hl c. apply within_spec in Hh, Hl. subst c. split; [lia|].
  unfold utf16_of_cp.
  destruct (Z.ltb_spec (0x10000 + (u - 0xD800) * 1024 + (l - 0xDC00))
              0x10000); [lia|].
  f_equal; [euclid|]. f_equal. euclid.
Qed.

Lemma plain_scalar (u : Z) :
  is_high u = false -> is_low u = false -> within 0 0xFFFF u = true ->
  scalar u /\ utf16_of_cp u = [u].
Proof.
  intros Hh Hl Hw. apply within_spec in Hw. unfold is_high, is_low in *.
  fold (within 0xD800 0xDBFF u) in Hh. fold (within 0xDC00 0xDFFF u) in Hl.
  assert (Hs : scalar u).
  { unfold scalar.
    destruct (Z.lt_ge_cases u 0xD800); [lia|].
    destruct (Z.le_gt_cases u 0xDBFF);
      [rewrite within_true in Hh by lia; discriminate|].
    destruct (Z.le_gt_cases u 0xDFFF);
      [rewrite within_true in Hl by lia; discriminate|lia]. }
  split; [exact Hs|]. unfold utf16_of_cp.
  destruct (Z.ltb_spec u 0x10000); [reflexivity|lia].
Qed.

(** Decoding what was encoded from a well-formed string gives the string
    back, whatever bytes follow. *)
Lemma decode_cps_encode (n : nat) :
  forall s rest,
    (List.length s <= n)%nat -> well_formed s = true ->
    flat_map utf16_of_cp (decode_cps (encode s ++ rest))
    = s ++ flat_map utf16_of_cp (decode_cps rest).
Proof.
  induction n as [|n IH]; intros s rest Hn Hw.
  - destruct s; [reflexivity|simpl in Hn; lia].
  - destruct s as [|u t]; [reflexivity|].
    cbn [well_formed] in Hw. cbn [List.length] in Hn.
    destruct (is_high u) eqn:Hh.
    + destruct t as [|l t']; [discriminate|].
      apply andb_true_iff in Hw as [Hl Hw].
      cbn [List.length] in Hn.
      rewrite (encode_pair u l t' Hh Hl), <- app_assoc.
      destruct (pair_scalar u l Hh Hl) as [Hc Hu].
      rewrite decode_cps_utf8 by (right; lia).
      cbn [flat_map]. rewrite Hu, IH by (assumption || lia).
      reflexivity.
    + apply andb_true_iff in Hw as [Hw Hwt].
      apply andb_true_iff in Hw as [Hl Hr].
      apply negb_true_iff in Hl.
      destruct (plain_scalar u Hh Hl Hr) as [Hs Hu].
      rewrite (encode_plain u t Hh Hl), <- app_assoc.
      rewrite decode_cps_utf8 by assumption.
      cbn [flat_map]. rewrite Hu, IH by (assumption || lia).
      reflexivity.
Qed.

Lemma encode_bytes_ok (n : nat) :
  forall s, (List.length s <= n)%nat -> well_formed s = true ->
            bytes_ok (encode s) = true.
Proof.
  induction n as [|n IH]; intros s Hn Hw.
  - destruct s; [reflexivity|simpl in Hn; lia].
  - destruct s as [|u t]; [reflexivity|].
    cbn [well_formed] in Hw. cbn [List.length] in Hn.
    destruct (is_high u) eqn:Hh.
    + destruct t as [|l t']; [discriminate|].
      apply andb_true_iff in Hw as [Hl Hw].
      cbn [List.length] in Hn.
      rewrite (encode_pair u l t' Hh Hl), bytes_ok_app.
      destruct (pair_scalar u l Hh Hl) as [Hc _].
      rewrite utf8_bytes_ok by (right; lia).
      rewrite IH by (assumption || lia). reflexivity.
    + apply andb_true_iff in Hw as [Hw Hwt].
      apply andb_true_iff in Hw as [Hl Hr].
      apply negb_true_iff in Hl.
      destruct (plain_scalar u Hh Hl Hr) as [Hs _].
      rewrite (encode_plain u t Hh Hl), bytes_ok_app.
      rewrite utf8_bytes_ok, IH by (assumption || lia). reflexivity.
Qed.

(** The string does not start with U+FEFF. *)
Definition no_mark (s : jsstring) : bool :=
  match s with
  | u :: _ => negb (u =? 0xFEFF)
  | [] => true
  end.

Lemma encode_no_bom (s : jsstring) (k : nat) :
  well_formed s = true -> no_mark s = true ->
  has_bom (encode s ++ repeat 0 k) = false.
Proof.
  intros Hw Hm. destruct s as [|u t].
  - cbn [encode app]. destruct k as [|[|[|k]]]; reflexivity.
  - cbn [well_formed] in Hw. cbn [no_mark] in Hm.
    apply negb_true_iff in Hm. apply Z.eqb_neq in Hm.
    destruct (is_high u) eqn:Hh.
    + destruct t as [|l t']; [discriminate|].
      apply andb_true_iff in Hw as [Hl Hw].
      rewrite (encode_pair u l t' Hh Hl), <- app_assoc.
      destruct (pair_scalar u l Hh Hl) as [Hc _].
      apply utf8_no_bom; [right; lia|lia].
    + apply andb_true_iff in Hw as [Hw Hwt].
      apply andb_true_iff in Hw as [Hl Hr].
      apply negb_true_iff in Hl.
      destruct (plain_scalar u Hh Hl Hr) as [Hs _].
      rewrite (encode_plain u t Hh Hl), <- app_assoc.
      now apply utf8_no_bom.
Qed.

Lemma decode_cps_zeros (k : nat) : decode_cps (repeat 0 k) = repeat 0 k.
Proof. apply decode_cps_ascii, ascii_repeat. reflexivity. Qed.

(** A well-formed string that does not start with U+FEFF comes back from
    its encoding, NUL padding included. *)
Lemma decode_encode_padded (s : jsstring) (k : nat) :
  well_formed s = true -> no_mark s = true ->
  decode (encode s ++ repeat 0 k) = s ++ repeat 0 k.
Proof.
  intros Hw Hm. unfold decode. rewrite (encode_no_bom s k Hw Hm).
  rewrite (decode_cps_encode (List.length s)) by (auto; lia).
  rewrite decode_cps_zeros.
  now rewrite flat_map_utf16_ascii by (apply ascii_repeat; reflexivity).
Qed.

Lemma decode_encode (s : jsstring) :
  well_formed s = true -> no_mark s = true -> decode (encode s) = s.
Proof.
  intros Hw Hm. pose proof (decode_encode_padded s 0 Hw Hm) as H.
  cbn [repeat] in H. now rewrite !app_nil_r in H.
Qed.

Lemma strip_nul_padded (s : jsstring) (k : nat) :
  forallb (fun u => negb (u =? 0)) s = true ->
  strip_nul (s ++ repeat 0 k) = s.
Proof.
  intros H. unfold strip_nul. rewrite filter_app.
  assert (E : filter (fun u => negb (u =? 0)) (repeat 0 k) = [])
    by (induction k; simpl; auto).
  rewrite E, app_nil_r. clear E.
  induction s as [|u s IH]; [reflexivity|].
  cbn [forallb] in H. apply andb_true_iff in H as [Hu Hs].
  cbn [filter]. rewrite Hu. f_equal. now apply IH.
Qed.

End Utf8.

(* ------------------------------------------------------------------ *)
(** ** Reading an emitted header back *)

Section Parse.

Lemma firstn_repeat {A} (x : A) (n m : nat) :
  firstn n (repeat x m) = repeat x (Nat.min n m).
Proof.
  revert m. induction n as [|n IH]; intros [|m]; simpl; auto.
  now rewrite IH.
Qed.

Lemma name_field_short (name : bytes) :
  (List.length name <= 100)%nat ->
  name_field name = name ++ repeat 0 (100 - List.length name).
Proof.
  intros H. unfold name_field.
  rewrite firstn_app, firstn_all2, firstn_repeat by lia.
  do 2 f_equal. lia.
Qed.

Lemma prefix_area_empty (name : bytes) :
  (List.length name <= 100)%nat -> prefix_area [] name = repeat 0 155.
Proof.
  intros H. unfold prefix_area, prefix_field. cbn [app List.length].
  rewrite skipn_O, skipn_app, (skipn_all2 name), skipn_repeat by lia.
  rewrite app_nil_l, firstn_repeat. f_equal. lia.
Qed.

Lemma octal_rev (s : jsstring) : octal s = true -> octal (rev s) = true.
Proof.
  unfold octal. rewrite !forallb_forall. intros H x Hx.
  apply H. now apply in_rev.
Qed.

Lemma trimStart_octal (s : jsstring) :
  octal s = true -> trimStart s = s.
Proof.
  destruct s as [|u s]; [reflexivity|]. unfold octal. cbn [forallb].
  intros H. apply andb_true_iff in H as [Hu _].
  cbn [trimStart]. now rewrite (octal_not_ws u Hu).
Qed.

Lemma trimEnd_octal (s : jsstring) : octal s = true -> trimEnd s = s.
Proof.
  intros H. unfold trimEnd.
  rewrite (trimStart_octal _ (octal_rev s H)). apply rev_involutive.
Qed.

Lemma trimEnd_octal_space (s : jsstring) :
  octal s = true -> trimEnd (s ++ [32]) = s.
Proof.
  intros H. unfold trimEnd. rewrite rev_app_distr.
  cbn [rev app trimStart].
  change (is_ws 32) with true. cbv iota.
  rewrite (trimStart_octal _ (octal_rev s H)). apply rev_involutive.
Qed.

(** The number read back from a zero-padded octal numeral. *)
Lemma parse_padded (n : nat) (z : Z) (tail : jsstring) :
  0 <= z -> tail = [] \/ tail = [32] ->
  parseInt8 (trimEnd (decode (padStart n 48 (octal_of_nonneg z) ++ tail)))
  = Int z.
Proof.
  intros Hz Htail.
  pose proof (octal_padStart n _ (octal_of_nonneg_octal z Hz)) as Hoct.
  assert (Hne : padStart n 48 (octal_of_nonneg z) <> []).
  { unfold padStart. intros E. apply app_eq_nil in E as [_ E].
    pose proof (octal_of_nonneg_length 22 z ltac:(lia)) as Hl.
    unfold octal_of_nonneg in *. rewrite octal_digits_step in E.
    destruct (z <? 8); [discriminate|].
    apply app_eq_nil in E as [_ E]. discriminate. }
  assert (Hval : octal_value (padStart n 48 (octal_of_nonneg z)) = z)
    by (unfold padStart;
        now rewrite octal_value_zeros, octal_of_nonneg_value).
  rewrite decode_ascii.
  - destruct Htail as [-> | ->].
    + rewrite app_nil_r, trimEnd_octal by assumption.
      rewrite <- (app_nil_r (padStart _ _ _)).
      rewrite parseInt8_octal by auto. now rewrite Hval.
    + rewrite trimEnd_octal_space by assumption.
      rewrite <- (app_nil_r (padStart _ _ _)).
      rewrite parseInt8_octal by auto. now rewrite Hval.
  - rewrite ascii_app, (octal_ascii _ Hoct).
    destruct Htail as [-> | ->]; reflexivity.
Qed.

(** The size a header declares: the file's, or 0 for a directory. *)
Definition declared_size (chunk : TarStreamInput) : number :=
  match chunk with
  | File f => size f
  | Dir _ => Int 0
  end.

Lemma parse_size_text now chunk :
  fits now chunk = true ->
  parseInt8 (trimEnd (decode (size_text chunk))) = declared_size chunk.
Proof.
  intros Hfits. unfold fits in Hfits.
  do 5 (apply andb_true_iff in Hfits as [Hfits _]).
  apply andb_true_iff in Hfits as [_ Hsize].
  unfold size_text, extended, declared_size.
  destruct chunk as [f|d]; [|reflexivity].
  destruct (size f) as [z| | |]; try discriminate.
  apply andb_true_iff in Hsize as [Hz0 Hz1].
  apply Z.leb_le in Hz0.
  assert (E : toString8 (Int z) = octal_of_nonneg z)
    by (unfold toString8; destruct (Z.ltb_spec z 0); [lia|reflexivity]).
  rewrite E. destruct (sizeExtension f); apply parse_padded; auto.
Qed.

Lemma prefix_area_short (prefix name : bytes) :
  (List.length prefix <= 155)%nat -> (List.length name <= 100)%nat ->
  prefix_area prefix name = prefix ++ repeat 0 (155 - List.length prefix).
Proof.
  intros Hp Hn. unfold prefix_area, prefix_field.
  rewrite skipn_app, (skipn_all2 name), skipn_repeat by lia.
  rewrite app_nil_l, skipn_repeat.
  rewrite firstn_app, firstn_all2, firstn_repeat by lia.
  do 2 f_equal. lia.
Qed.

Section Emitted.

(** The header of a chunk archived under the prefix [q] and the name [p],
    both of them texts that the codec returns unchanged. *)
Variables (now : Z) (chunk : TarStreamInput) (q p : jsstring).
Hypothesis Hfits : fits now chunk = true.
Hypothesis Hwq : well_formed q = true.
Hypothesis Hmq : no_mark q = true.
Hypothesis Hnq : forallb (fun u => negb (u =? 0)) q = true.
Hypothesis Hlq : (List.length (encode q) <= 155)%nat.
Hypothesis Hwf : well_formed p = true.
Hypothesis Hmark : no_mark p = true.
Hypothesis Hnul : forallb (fun u => negb (u =? 0)) p = true.
Hypothesis Hshort : (List.length (encode p) <= 100)%nat.

Let H := full_header now chunk (encode q) (encode p).

Lemma emitted_field (k : nat) (f : bytes) (lo hi : Z) :
  nth_error (header_fields now chunk (encode q) (encode p)) k = Some f ->
  nth_error [0; 100; 108; 116; 124; 136; 148; 154; 156; 157; 257; 265;
             297; 329; 337; 345; 500] k = Some lo ->
  nth_error [100; 108; 116; 124; 136; 148; 154; 156; 157; 257; 265;
             297; 329; 337; 345; 500; 512] k = Some hi ->
  slice H lo hi = f.
Proof.
  apply full_header_field; auto; try lia.
  - apply (encode_bytes_ok (List.length p)); auto.
  - apply (encode_bytes_ok (List.length q)); auto.
Qed.

Lemma emitted_header :
  make_header now chunk (encode q) (encode p) = Ok H.
Proof.
  apply make_header_layout; auto; try lia.
  - apply (encode_bytes_ok (List.length p)); auto.
  - apply (encode_bytes_ok (List.length q)); auto.
Qed.

Lemma emitted_checksum_ok : checksum_ok H = true.
Proof.
  apply full_header_checksum_ok; auto; try lia.
  - apply (encode_bytes_ok (List.length p)); auto.
  - apply (encode_bytes_ok (List.length q)); auto.
Qed.

Lemma emitted_length : List.length H = 512%nat.
Proof.
  apply length_full_header; auto; try lia.
  - apply (encode_bytes_ok (List.length p)); auto.
  - apply (encode_bytes_ok (List.length q)); auto.
Qed.

Lemma emitted_name : h_name (parse_header H) = p.
Proof.
  unfold parse_header. cbn [h_name].
  rewrite (emitted_field 0 _ 0 100 eq_refl eq_refl eq_refl).
  rewrite name_field_short by assumption.
  rewrite decode_encode_padded by assumption.
  now apply strip_nul_padded.
Qed.

Lemma emitted_size : h_size (parse_header H) = declared_size chunk.
Proof.
  unfold parse_header. cbn [h_size].
  rewrite (emitted_field 4 _ 124 136 eq_refl eq_refl eq_refl).
  now apply (parse_size_text now).
Qed.

Lemma emitted_typeflag :
  h_typeflag (parse_header H) = [typeflag_of chunk].
Proof.
  unfold parse_header. cbn [h_typeflag].
  rewrite (emitted_field 8 _ 156 157 eq_refl eq_refl eq_refl).
  unfold typeflag_of. destruct (has_size chunk); reflexivity.
Qed.

Lemma emitted_pathname :
  entry_pathname (parse_header H)
  = if nonempty q then q ++ 47 :: p else p.
Proof.
  unfold entry_pathname.
  assert (E : h_ustar (parse_header H)
              = Some {| h_magic := decode (slice H 257 263);
                        h_version := decode (slice H 263 265);
                        h_uname := strip_nul (decode (slice H 265 297));
                        h_gname := strip_nul (decode (slice H 297 329));
                        h_devmajor := strip_nul (decode (slice H 329 337));
                        h_devminor := strip_nul (decode (slice H 337 345));
                        h_prefix := strip_nul (decode (slice H 345 500)) |}).
  { unfold parse_header. cbn [h_ustar].
    now rewrite (emitted_field 10 _ 257 265 eq_refl eq_refl eq_refl). }
  rewrite E. cbn [h_prefix].
  rewrite (emitted_field 15 _ 345 500 eq_refl eq_refl eq_refl).
  rewrite prefix_area_short by assumption.
  rewrite decode_encode_padded by assumption.
  rewrite strip_nul_padded by assumption.
  now rewrite emitted_name.
Qed.

End Emitted.

End Parse.

(* ------------------------------------------------------------------ *)
(** ** What the encoder emits for well-behaved input *)

Section Emission.

(** A text that the codec returns unchanged: well formed, without NUL and
    without a leading U+FEFF. *)
Definition plain (s : jsstring) : bool :=
  well_formed s && no_mark s && forallb (fun u => negb (u =? 0)) s.

(** A pathname that the text codec returns unchanged and that fits the
    [name] field on its own. *)
Definition path_ok (p : jsstring) : bool :=
  well_formed p && no_mark p && forallb (fun u => negb (u =? 0)) p
  && (List.length (encode p) <=? 100)%nat.

(** One half of a pre-split pathname: at most [n] bytes that are the
    encoding of such a text. *)
Definition half_ok (n : nat) (bs : bytes) : bool :=
  plain (decode bs) && str_eqb (encode (decode bs)) bs
  && (List.length bs <=? n)%nat.

(** The pathname under which a chunk is archived. *)
Definition entry_path (chunk : TarStreamInput) : jsstring :=
  match pathname chunk with
  | PathString s => normalize s (negb (has_size chunk))
  | PathPair prefix name => joined prefix name
  end.

(** The prefix and the name written to its header. *)
Definition halves (chunk : TarStreamInput) : bytes * bytes :=
  match pathname chunk with
  | PathString s => ([], encode (normalize s (negb (has_size chunk))))
  | PathPair prefix name => (prefix, name)
  end.

(** The body of a file has the declared size, comes in non-empty chunks,
    and its size is zero or not a multiple of 512. *)
Definition body_ready (chunk : TarStreamInput) : bool :=
  match chunk with
  | File f =>
      match size f with
      | Int z =>
          (z =? len (concat (iterable f)))
          && forallb nonempty (iterable f)
          && ((z =? 0) || negb (z mod 512 =? 0))
      | _ => false
      end
  | Dir _ => true
  end.

(** A chunk the round trip holds for.  Its pathname is a string whose
    normalized form fits the [name] field, or a pair [prefix, name] of at
    most 155 and 100 bytes with the suffix its kind calls for. *)
Definition ready (now : Z) (chunk : TarStreamInput) : bool :=
  match pathname chunk with
  | PathString _ => path_ok (entry_path chunk)
  | PathPair prefix name =>
      negb (Bool.eqb (has_size chunk) (ends_with_slash name))
      && half_ok 155 prefix && half_ok 100 name
  end
  && match options chunk with
     | Some o => validTarStreamOptions o
     | None => true
     end
  && fits now chunk
  && body_ready chunk.

Fixpoint all_ready (clock : nat -> Z) (k : nat)
    (inputs : list TarStreamInput) : bool :=
  match inputs with
  | [] => true
  | c :: r => ready (clock k) c && all_ready clock (S k) r
  end.

Definition body_chunks (chunk : TarStreamInput) : list bytes :=
  match chunk with
  | File f => iterable f
  | Dir _ => []
  end.

Definition padding (chunk : TarStreamInput) : list bytes :=
  match chunk with
  | File f =>
      if rem512 (size f) =? 0 then []
      else [repeat 0 (Z.to_nat (512 - rem512 (size f)))]
  | Dir _ => []
  end.

(** The header the generator yields for a chunk. *)
Definition wire_header (now : Z) (chunk : TarStreamInput) : bytes :=
  full_header now chunk (fst (halves chunk)) (snd (halves chunk)).

(** The chunks the generator yields for one chunk of input. *)
Definition wire_chunks (now : Z) (chunk : TarStreamInput) : list bytes :=
  wire_header now chunk :: body_chunks chunk ++ padding chunk.

(** The chunks that are archived, with the clock reading of each: those
    whose pathname was not seen before. *)
Fixpoint first_seen (clock : nat -> Z) (k : nat) (paths : list jsstring)
    (inputs : list TarStreamInput) : list (Z * TarStreamInput) :=
  match inputs with
  | [] => []
  | c :: r =>
      if includes paths (entry_path c) then first_seen clock (S k) paths r
      else (clock k, c)
             :: first_seen clock (S k) (paths ++ [entry_path c]) r
  end.

Lemma ready_parts now chunk :
  ready now chunk = true ->
  match options chunk with
  | Some o => validTarStreamOptions o
  | None => true
  end = true
  /\ fits now chunk = true
  /\ body_ready chunk = true.
Proof.
  unfold ready. intros H.
  apply andb_true_iff in H as [H Hb].
  apply andb_true_iff in H as [H Hf].
  apply andb_true_iff in H as [Hp Ho].
  auto.
Qed.

Lemma path_ok_parts (p : jsstring) :
  path_ok p = true ->
  well_formed p = true /\ no_mark p = true
  /\ forallb (fun u => negb (u =? 0)) p = true
  /\ (List.length (encode p) <= 100)%nat.
Proof.
  unfold path_ok. intros H.
  apply andb_true_iff in H as [H Hl].
  apply andb_true_iff in H as [H Hn].
  apply andb_true_iff in H as [Hw Hm].
  apply Nat.leb_le in Hl. auto.
Qed.

Lemma str_eqb_eq (a b : jsstring) : str_eqb a b = true -> a = b.
Proof.
  revert b. induction a as [|x a IH]; intros [|y b]; cbn [str_eqb];
    try discriminate; [reflexivity|].
  intros H. apply andb_true_iff in H as [Hx Ha].
  apply Z.eqb_eq in Hx. subst. f_equal. now apply IH.
Qed.

Lemma half_ok_parts (n : nat) (bs : bytes) :
  half_ok n bs = true ->
  bs = encode (decode bs)
  /\ well_formed (decode bs) = true /\ no_mark (decode bs) = true
  /\ forallb (fun u => negb (u =? 0)) (decode bs) = true
  /\ (List.length bs <= n)%nat.
Proof.
  unfold half_ok, plain. intros H.
  apply andb_true_iff in H as [H Hl].
  apply andb_true_iff in H as [H He].
  apply andb_true_iff in H as [H Hn].
  apply andb_true_iff in H as [Hw Hm].
  apply Nat.leb_le in Hl. apply str_eqb_eq in He. auto.
Qed.

(** The two halves of the pathname of a chunk that is ready: the encodings
    of two texts [q] and [p] that the codec returns unchanged, under which
    the encoder archives the chunk. *)
Lemma ready_halves fuel now chunk :
  ready now chunk = true ->
  exists q p,
    halves chunk = (encode q, encode p)
    /\ (well_formed q = true /\ no_mark q = true
        /\ forallb (fun u => negb (u =? 0)) q = true
        /\ (List.length (encode q) <= 155)%nat)
    /\ (well_formed p = true /\ no_mark p = true
        /\ forallb (fun u => negb (u =? 0)) p = true
        /\ (List.length (encode p) <= 100)%nat)
    /\ split_pathname fuel chunk = Ok (encode q, encode p)
    /\ joined (encode q) (encode p) = entry_path chunk
    /\ entry_path chunk = if nonempty q then q ++ 47 :: p else p.
Proof.
  unfold ready, halves, entry_path, split_pathname. intros H.
  apply andb_true_iff in H as [H _].
  apply andb_true_iff in H as [H _].
  apply andb_true_iff in H as [Hp _].
  destruct (pathname chunk) as [s|prefix name].
  - set (p := normalize s (negb (has_size chunk))) in *.
    destruct (path_ok_parts _ Hp) as (Hw & Hm & Hn & Hl).
    exists [], p. cbn [encode nonempty List.length].
    assert (Ej : joined [] (encode p) = p)
      by (unfold joined; cbn [nonempty]; now apply decode_encode).
    repeat split; auto; try lia.
    apply parsePathname_short. unfold len. fold p. lia.
  - apply andb_true_iff in Hp as [Hp Hname].
    apply andb_true_iff in Hp as [Hsuf Hprefix].
    apply half_ok_parts in Hprefix as (Eq & Hwq & Hmq & Hnq & Hlq).
    apply half_ok_parts in Hname as (Ep & Hwp & Hmp & Hnp & Hlp).
    exists (decode prefix), (decode name).
    rewrite <- Eq, <- Ep.
    apply negb_true_iff in Hsuf. rewrite Hsuf.
    assert (Ene : nonempty prefix = nonempty (decode prefix)).
    { destruct prefix as [|x prefix]; [reflexivity|].
      destruct (decode (x :: prefix)) eqn:Ed; [|reflexivity].
      discriminate Eq. }
    unfold joined. rewrite Ene.
    repeat split; auto.
Qed.

Lemma fits_size_accepted now (f : TarStreamFile) :
  fits now (File f) = true -> size_rejected f = false.
Proof.
  intros Hfits. unfold fits in Hfits.
  do 5 (apply andb_true_iff in Hfits as [Hfits _]).
  apply andb_true_iff in Hfits as [_ Hsize].
  apply size_rejected_false_iff.
  destruct (size f) as [z| | |]; try discriminate.
  apply andb_true_iff in Hsize as [Hz0 Hz1].
  apply Z.leb_le in Hz0. apply Z.ltb_lt in Hz1.
  exists z. split; [reflexivity|lia].
Qed.

(** What the decoder reads in the header of a chunk that is ready. *)
Lemma wire_header_read now chunk :
  ready now chunk = true ->
  make_header now chunk (fst (halves chunk)) (snd (halves chunk))
  = Ok (wire_header now chunk)
  /\ checksum_ok (wire_header now chunk) = true
  /\ List.length (wire_header now chunk) = 512%nat
  /\ entry_pathname (parse_header (wire_header now chunk))
     = entry_path chunk
  /\ h_size (parse_header (wire_header now chunk)) = declared_size chunk
  /\ h_typeflag (parse_header (wire_header now chunk))
     = [typeflag_of chunk].
Proof.
  intros Hr.
  destruct (ready_parts now chunk Hr) as (_ & Hf & _).
  destruct (ready_halves 0 now chunk Hr)
    as (q & p & Eh & (Hwq & Hmq & Hnq & Hlq) & (Hw & Hm & Hn & Hl)
        & _ & _ & Ep).
  unfold wire_header. rewrite Eh. cbn [fst snd]. rewrite Ep.
  split; [now apply emitted_header|].
  split; [now apply emitted_checksum_ok|].
  split; [now apply emitted_length|].
  split; [now apply emitted_pathname|].
  split; [now apply emitted_size|now apply emitted_typeflag].
Qed.

Lemma gen_turn_ready fuel now paths chunk :
  ready now chunk = true ->
  gen_turn fuel now paths chunk
  = if includes paths (entry_path chunk) then ([], Ok paths)
    else (wire_chunks now chunk, Ok (paths ++ [entry_path chunk])).
Proof.
  intros Hr.
  destruct (ready_parts now chunk Hr) as (Ho & Hf & Hb).
  destruct (ready_halves fuel now chunk Hr)
    as (q & p & Eh & _ & _ & Es & Ej & _).
  destruct (wire_header_read now chunk Hr) as (Emk & _).
  rewrite Eh in Emk. cbn [fst snd] in Emk.
  unfold gen_turn.
  assert (E1 : match options chunk with
               | Some o => negb (validTarStreamOptions o)
               | None => false
               end = false)
    by (destruct (options chunk); [now rewrite Ho|reflexivity]).
  rewrite E1.
  assert (E2 : match chunk with
               | File f => size_rejected f
               | Dir _ => false
               end = false)
    by (destruct chunk; [now apply (fits_size_accepted now)|reflexivity]).
  rewrite E2, Es, Ej.
  destruct (includes paths (entry_path chunk)); [reflexivity|].
  rewrite Emk.
  unfold wire_chunks, body_chunks, padding.
  destruct chunk as [f|d]; [|reflexivity].
  unfold body_of. cbn [body_ready] in Hb.
  destruct (size f) as [z| | |] eqn:Hz; try discriminate.
  apply andb_true_iff in Hb as [Hb _].
  apply andb_true_iff in Hb as [Heq _].
  cbn [num_eqb]. rewrite Heq. reflexivity.
Qed.

Lemma gen_ready fuel clock (inputs : list TarStreamInput) :
  forall k paths,
    all_ready clock k inputs = true ->
    gen fuel clock k paths inputs
    = (concat (map (fun e => wire_chunks (fst e) (snd e))
                 (first_seen clock k paths inputs))
       ++ [repeat 0 1024%nat],
       Ok tt).
Proof.
  induction inputs as [|c r IH]; intros k paths H; [reflexivity|].
  cbn [all_ready] in H. apply andb_true_iff in H as [Hc Hr].
  cbn [gen first_seen]. rewrite (gen_turn_ready fuel _ paths c Hc).
  destruct (includes paths (entry_path c)).
  - now rewrite (IH (S k) paths Hr).
  - rewrite (IH (S k) _ Hr). cbn [map concat fst snd].
    now rewrite <- app_assoc.
Qed.

Lemma readable_all (out : list bytes) (r : result unit) :
  forallb nonempty out = true -> readable out r = (out, r).
Proof.
  induction out as [|c out IH]; [reflexivity|].
  cbn [forallb readable]. intros H. apply andb_true_iff in H as [Hc Ho].
  unfold enqueue_ok. now rewrite Hc, (IH Ho).
Qed.

Lemma nonempty_length (l : bytes) :
  (0 < List.length l)%nat -> nonempty l = true.
Proof. destruct l; simpl; [lia|reflexivity]. Qed.

Lemma wire_chunks_nonempty now chunk :
  ready now chunk = true -> forallb nonempty (wire_chunks now chunk) = true.
Proof.
  intros Hr.
  destruct (ready_parts now chunk Hr) as (_ & Hf & Hb).
  destruct (wire_header_read now chunk Hr) as (_ & _ & Hlen & _).
  unfold wire_chunks. cbn [forallb].
  rewrite nonempty_length by (rewrite Hlen; lia).
  rewrite forallb_app. unfold body_chunks, padding.
  destruct chunk as [f|d]; [|reflexivity].
  cbn [body_ready] in Hb. destruct (size f) as [z| | |]; try discriminate.
  apply andb_true_iff in Hb as [Hb Hz].
  apply andb_true_iff in Hb as [_ Hne].
  unfold bytes, jsstring in *. rewrite Hne. cbn [andb rem512].
  destruct (Z.eqb_spec (Z.rem z 512) 0); [reflexivity|].
  cbn [forallb]. rewrite nonempty_length; [reflexivity|].
  rewrite repeat_length.
  pose proof (Z.rem_bound_abs z 512 ltac:(lia)) as Habs. lia.
Qed.

Lemma first_seen_ready clock (inputs : list TarStreamInput) :
  forall k paths,
    all_ready clock k inputs = true ->
    Forall (fun e => ready (fst e) (snd e) = true)
      (first_seen clock k paths inputs).
Proof.
  induction inputs as [|c r IH]; intros k paths H; [constructor|].
  cbn [all_ready] in H. apply andb_true_iff in H as [Hc Hr].
  cbn [first_seen]. destruct (includes paths (entry_path c)); auto.
Qed.

(** The encoder's output for well-behaved input: the chunks of the entries
    seen first, then the trailer, and a normal end. *)
Lemma TarStream_ready fuel clock (inputs : list TarStreamInput) :
  all_ready clock 0 inputs = true ->
  TarStream fuel clock inputs
  = (concat (map (fun e => wire_chunks (fst e) (snd e))
               (first_seen clock 0 [] inputs))
     ++ [repeat 0 1024%nat],
     Ok tt).
Proof.
  intros H. unfold TarStream. rewrite (gen_ready fuel clock inputs 0 [] H).
  apply readable_all. rewrite forallb_app. cbn [forallb].
  change (nonempty (repeat 0 1024%nat)) with true.
  rewrite !andb_true_r.
  pose proof (first_seen_ready clock inputs 0%nat [] H) as Hall.
  induction Hall as [|e l He _ IH]; [reflexivity|].
  cbn [map concat]. rewrite forallb_app, IH, andb_true_r.
  now apply wire_chunks_nonempty.
Qed.

End Emission.

(* ------------------------------------------------------------------ *)
(** ** The decoder on emitted entries *)

Section Decoding.

(** The decoder between two entries: nothing pending, [bs] still to be
    read, [es] already handed out. *)
Definition idle (bs : list bytes) (es : list TarStreamEntry) : decoder :=
  {| input := bs; input_end := Ok tt; header := None; cancelled := false;
     polling := false; top := Readable; entries := es |}.

(** The decoder while the body of the last entry is being read. *)
Definition streaming (bs : list bytes) (es : list TarStreamEntry)
    (hd : TarStreamHeader) (b : body_stream) : decoder :=
  {| input := bs; input_end := Ok tt; header := Some hd; cancelled := false;
     polling := false; top := Readable;
     entries := es ++ [{| e_pathname := entry_pathname hd; e_header := hd;
                          e_readable := Some b |}] |}.

(** The stream of the last entry, if it has one, is not open. *)
Definition last_closed (es : list TarStreamEntry) : Prop :=
  match body_in es (List.length es - 1) with
  | Some b => is_open (b_state b) = false
  | None => True
  end.

Lemma consume_step (n : nat) (d d' : decoder) (e : event) :
  next_event d = Some e -> step e d = Some d' ->
  consume (S n) d = consume n d'.
Proof. intros He Hs. cbn [consume]. now rewrite He, Hs. Qed.

Lemma body_in_last (es : list TarStreamEntry) (e : TarStreamEntry) :
  body_in (es ++ [e]) (List.length (es ++ [e]) - 1) = e_readable e.
Proof.
  unfold body_in. rewrite length_app. cbn [List.length].
  replace (List.length es + 1 - 1)%nat with (List.length es) by lia.
  rewrite nth_error_app2, Nat.sub_diag by lia. reflexivity.
Qed.

Lemma put_body_last (es : list TarStreamEntry) (e : TarStreamEntry)
    (b : body_stream) :
  put_body (List.length (es ++ [e]) - 1) b (es ++ [e])
  = es ++ [{| e_pathname := e_pathname e; e_header := e_header e;
              e_readable := Some b |}].
Proof.
  rewrite length_app. cbn [List.length].
  replace (List.length es + 1 - 1)%nat with (List.length es) by lia.
  induction es as [|x es IH]; [reflexivity|].
  cbn [List.length app put_body]. now rewrite IH.
Qed.

Lemma last_closed_snoc (es : list TarStreamEntry) (e : TarStreamEntry) :
  match e_readable e with
  | Some b => is_open (b_state b) = false
  | None => True
  end ->
  last_closed (es ++ [e]).
Proof. unfold last_closed. now rewrite body_in_last. Qed.

Lemma next_event_idle (bs : list bytes) (es : list TarStreamEntry) :
  last_closed es -> next_event (idle bs es) = Some Pull.
Proof.
  unfold last_closed, next_event, body_at. cbn [entries idle].
  destruct (body_in es (List.length es - 1)) as [[sz i lk pl st ch]|];
    [|reflexivity].
  cbn [b_state]. destruct st; try discriminate; reflexivity.
Qed.

(** The consumer asks for the next entry and the decoder parses a block. *)
Lemma consume_header (n : nat) (value : bytes) (bs : list bytes)
    (es : list TarStreamEntry) :
  last_closed es -> checksum_ok value = true ->
  consume (S (S n)) (idle (value :: bs) es)
  = consume n
      (if str_eqb (h_typeflag (parse_header value)) [48]
       then streaming bs es (parse_header value)
              (new_body (parse_header value))
       else idle bs
              (es ++ [{| e_pathname := entry_pathname (parse_header value);
                         e_header := parse_header value;
                         e_readable := None |}])).
Proof.
  intros Hl Hc.
  rewrite (consume_step (S n) (idle (value :: bs) es)
             (set_polling true (idle (value :: bs) es)) Pull
             (next_event_idle _ _ Hl) eq_refl).
  assert (Hn : next_event (set_polling true (idle (value :: bs) es))
               = Some Proceed).
  { unfold last_closed in Hl.
    unfold next_event, body_at. cbn [entries idle set_polling].
    destruct (body_in es (List.length es - 1)) as [[sz i lk pl st ch]|];
      [|reflexivity].
    cbn [b_state] in Hl. destruct st; try discriminate Hl; reflexivity. }
  rewrite (consume_step n _
             (proceed (set_polling false
                         (set_polling true (idle (value :: bs) es))))
             Proceed Hn eq_refl).
  f_equal. unfold proceed, read.
  cbn [input idle set_polling]. rewrite Hc. cbn [negb].
  cbn [top set_header set_polling idle is_readable negb].
  destruct (str_eqb (h_typeflag (parse_header value)) [48]); reflexivity.
Qed.

(** The end of the input: the decoder closes. *)
Lemma consume_end (n : nat) (es : list TarStreamEntry) :
  last_closed es ->
  consume (S (S n)) (idle [] es)
  = {| input := []; input_end := Ok tt; header := None; cancelled := false;
       polling := false; top := Closed; entries := es |}.
Proof.
  intros Hl.
  rewrite (consume_step (S n) (idle [] es) (set_polling true (idle [] es))
             Pull (next_event_idle _ _ Hl) eq_refl).
  assert (Hn : next_event (set_polling true (idle [] es)) = Some Proceed).
  { unfold last_closed in Hl.
    unfold next_event, body_at. cbn [entries idle set_polling].
    destruct (body_in es (List.length es - 1)) as [[sz i lk pl st ch]|];
      [|reflexivity].
    cbn [b_state] in Hl. destruct st; try discriminate Hl; reflexivity. }
  rewrite (consume_step n _
             (proceed (set_polling false (set_polling true (idle [] es))))
             Proceed Hn eq_refl).
  apply consume_stalled.
  unfold last_closed in Hl. unfold next_event, body_at.
  cbn [entries idle set_polling proceed read input input_end finish_top
         top is_readable set_top polling].
  destruct (body_in es (List.length es - 1)) as [[sz i lk pl st ch]|];
    [|reflexivity].
  cbn [b_state] in Hl. destruct st; try discriminate Hl; reflexivity.
Qed.

Definition body (z : Z) (i : Z) (pulling : bool) (st : body_state)
    (cs : list bytes) : body_stream :=
  {| b_size := Int z; b_i := Int i; b_lock := pulling; b_pulling := pulling;
     b_state := st; b_chunks := cs; b_leftover := []; b_buffer := None |}.

(** One pull of the body that finds a block. *)
Lemma consume_block (n : nat) (value : bytes) (bs : list bytes)
    (es : list TarStreamEntry) (hd : TarStreamHeader) (z i : Z)
    (cs : list bytes) :
  0 < i ->
  let chunk := if i =? 1 then slice value 0 (Z.rem z 512) else value in
  nonempty chunk = true ->
  consume (S (S n)) (streaming (value :: bs) es hd (body z i false Open cs))
  = consume n
      (streaming bs es hd (body z (i - 1) false Open (cs ++ [chunk]))).
Proof.
  intros Hi chunk Hne.
  set (e := {| e_pathname := entry_pathname hd; e_header := hd;
               e_readable := Some (body z i false Open cs) |}).
  set (k := (List.length (es ++ [e]) - 1)%nat).
  assert (Hb : body_at k (streaming (value :: bs) es hd
                            (body z i false Open cs))
               = Some (body z i false Open cs))
    by (unfold body_at; cbn [entries streaming]; apply (body_in_last es e)).
  assert (Hn1 : next_event (streaming (value :: bs) es hd
                              (body z i false Open cs))
                = Some (BodyPull k)).
  { unfold next_event. cbn [entries streaming]. fold e. fold k.
    now rewrite Hb. }
  assert (Hs1 : step (BodyPull k)
                  (streaming (value :: bs) es hd (body z i false Open cs))
                = Some (streaming (value :: bs) es hd
                          (body z i true Open cs))).
  { cbn [step]. rewrite Hb. cbn [body b_state b_pulling is_open negb andb].
    unfold body_pull. cbn [body b_i positive_num lt].
    destruct (Z.ltb_spec 0 i); [|lia].
    unfold update_body, set_entries. cbn [entries streaming].
    fold e. fold k. rewrite (put_body_last es e). reflexivity. }
  rewrite (consume_step (S n) _ _ _ Hn1 Hs1).
  set (e' := {| e_pathname := entry_pathname hd; e_header := hd;
                e_readable := Some (body z i true Open cs) |}).
  assert (Hk : k = (List.length (es ++ [e']) - 1)%nat)
    by (unfold k; now rewrite !length_app).
  assert (Hb' : body_at k (streaming (value :: bs) es hd
                             (body z i true Open cs))
                = Some (body z i true Open cs))
    by (unfold body_at; cbn [entries streaming]; rewrite Hk;
        apply (body_in_last es e')).
  assert (Hn2 : next_event (streaming (value :: bs) es hd
                              (body z i true Open cs))
                = Some (BodyResume k)).
  { unfold next_event. cbn [entries streaming]. fold e'. rewrite <- Hk.
    now rewrite Hb'. }
  assert (Hs2 : step (BodyResume k)
                  (streaming (value :: bs) es hd (body z i true Open cs))
                = Some (streaming bs es hd
                          (body z (i - 1) false Open (cs ++ [chunk])))).
  { cbn [step]. rewrite Hb'. cbn [body b_pulling].
    unfold body_resume, read. cbn [input streaming].
    cbn [body b_i b_size b_state b_chunks b_lock num_eqb rem512 is_open
           dec andb].
    fold chunk. unfold enqueue_ok. rewrite Hne. cbn [negb].
    unfold update_body, set_entries. cbn [entries].
    fold e'. rewrite Hk, (put_body_last es e'). reflexivity. }
  now rewrite (consume_step n _ _ _ Hn2 Hs2).
Qed.

(** The pull that finds nothing left to read closes the body and frees the
    decoder. *)
Lemma consume_close (n : nat) (bs : list bytes) (es : list TarStreamEntry)
    (hd : TarStreamHeader) (z i : Z) (cs : list bytes) :
  i <= 0 ->
  consume (S n) (streaming bs es hd (body z i false Open cs))
  = consume n
      (idle bs (es ++ [{| e_pathname := entry_pathname hd; e_header := hd;
                          e_readable := Some (body z i false Done cs) |}])).
Proof.
  intros Hi.
  set (e := {| e_pathname := entry_pathname hd; e_header := hd;
               e_readable := Some (body z i false Open cs) |}).
  set (k := (List.length (es ++ [e]) - 1)%nat).
  assert (Hb : body_at k (streaming bs es hd (body z i false Open cs))
               = Some (body z i false Open cs))
    by (unfold body_at; cbn [entries streaming]; apply (body_in_last es e)).
  assert (Hn1 : next_event (streaming bs es hd (body z i false Open cs))
                = Some (BodyPull k)).
  { unfold next_event. cbn [entries streaming]. fold e. fold k.
    now rewrite Hb. }
  apply (consume_step n _ _ _ Hn1).
  cbn [step]. rewrite Hb. cbn [body b_state b_pulling is_open negb andb].
  unfold body_pull, body_close. cbn [body b_i positive_num lt].
  destruct (Z.ltb_spec 0 i); [lia|].
  cbn [set_header cancelled streaming].
  unfold update_body, set_entries. cbn [entries].
  fold e. fold k. rewrite (put_body_last es e). reflexivity.
Qed.

End Decoding.

(* ------------------------------------------------------------------ *)
(** ** Reading a body *)

Section Bodies.

(** The chunks a body stream hands out for [j] blocks of [data]: the blocks
    themselves, the last one cut to [r] bytes. *)
Fixpoint cuts (j : nat) (r : Z) (data : bytes) : list bytes :=
  match j with
  | O => []
  | S j' =>
      (if Z.of_nat j =? 1 then slice (firstn 512 data) 0 r
       else firstn 512 data)
        :: cuts j' r (skipn 512 data)
  end.

Lemma firstn_plus {A} (a b : nat) (l : list A) :
  firstn (a + b) l = firstn a l ++ firstn b (skipn a l).
Proof.
  revert l. induction a as [|a IH]; intros [|x l]; cbn [Nat.add firstn skipn app];
    try reflexivity.
  - now rewrite firstn_nil.
  - now rewrite IH.
Qed.

Lemma concat_cuts (j : nat) (r : nat) :
  forall data,
    (0 < r <= 512)%nat -> List.length data = (512 * S j)%nat ->
    concat (cuts (S j) (Z.of_nat r) data) = firstn (512 * j + r) data.
Proof.
  induction j as [|j IH]; intros data Hr Hd.
  - cbn [cuts concat]. change (Z.of_nat 1 =? 1) with true. cbv iota.
    rewrite app_nil_r, slice_nat by lia.
    rewrite skipn_O, Z.sub_0_r, Nat2Z.id, firstn_firstn.
    f_equal. lia.
  - change (cuts (S (S j)) (Z.of_nat r) data)
      with ((if Z.of_nat (S (S j)) =? 1
             then slice (firstn 512 data) 0 (Z.of_nat r)
             else firstn 512 data)
              :: cuts (S j) (Z.of_nat r) (skipn 512 data)).
    destruct (Z.eqb_spec (Z.of_nat (S (S j))) 1); [lia|].
    cbn [concat]. rewrite IH by (auto; rewrite length_skipn; lia).
    replace (512 * S j + r)%nat with (512 + (512 * j + r))%nat by lia.
    now rewrite (firstn_plus 512 (512 * j + r) data).
Qed.

(** Reading a body of [j] blocks to its end. *)
Lemma consume_body (z : Z) (hd : TarStreamHeader) (bs : list bytes)
    (es : list TarStreamEntry) (n : nat) (j : nat) :
  forall data cs,
    0 < Z.rem z 512 <= 512 -> List.length data = (512 * j)%nat ->
    consume (2 * j + 1 + n)
      (streaming (blocks j data ++ bs) es hd
         (body z (Z.of_nat j) false Open cs))
    = consume n
        (idle bs
           (es ++ [{| e_pathname := entry_pathname hd; e_header := hd;
                      e_readable :=
                        Some (body z 0 false Done
                                (cs ++ cuts j (Z.rem z 512) data)) |}])).
Proof.
  induction j as [|j IH]; intros data cs Hr Hd.
  - cbn [blocks app cuts Nat.mul Nat.add]. rewrite app_nil_r.
    apply consume_close. reflexivity.
  - replace (2 * S j + 1 + n)%nat with (S (S (2 * j + 1 + n))) by lia.
    cbn [blocks app].
    assert (Hv : List.length (firstn 512 data) = 512%nat)
      by (rewrite length_firstn; lia).
    rewrite consume_block.
    + replace (Z.of_nat (S j) - 1) with (Z.of_nat j) by lia.
      rewrite IH by (auto; rewrite length_skipn; lia).
      do 5 f_equal. f_equal.
      change (cuts (S j) (Z.rem z 512) data)
        with ((if Z.of_nat (S j) =? 1
               then slice (firstn 512 data) 0 (Z.rem z 512)
               else firstn 512 data)
                :: cuts j (Z.rem z 512) (skipn 512 data)).
      now rewrite <- app_assoc.
    + lia.
    + destruct (Z.of_nat (S j) =? 1).
      * apply nonempty_length. rewrite slice_nat by lia.
        rewrite skipn_O, length_firstn, Hv. lia.
      * apply nonempty_length. lia.
Qed.

End Bodies.

(* ------------------------------------------------------------------ *)
(** ** Round trip *)

Section Round_trip.

(** The number of blocks the body of a chunk takes in the archive. *)
Definition nblocks (chunk : TarStreamInput) : nat :=
  match declared_size chunk with
  | Int z => Z.to_nat (- ((- z) / 512))
  | _ => 0%nat
  end.

Definition body_bytes (chunk : TarStreamInput) : bytes :=
  concat (body_chunks chunk ++ padding chunk).

(** The blocks of one archived chunk. *)
Definition entry_blocks (now : Z) (chunk : TarStreamInput) : list bytes :=
  wire_header now chunk :: blocks (nblocks chunk) (body_bytes chunk).

(** What the consumer is to see of a chunk: its pathname, its size, and for
    a file its bytes and a stream that ended normally. *)
Definition expected (chunk : TarStreamInput)
  : jsstring * number * option (bytes * body_state) :=
  (entry_path chunk, declared_size chunk,
   match chunk with
   | File f => Some (concat (iterable f), Done)
   | Dir _ => None
   end).

Lemma file_ready_size now (f : TarStreamFile) :
  ready now (File f) = true ->
  exists z, size f = Int z /\ z = len (concat (iterable f)) /\ 0 <= z
            /\ (z = 0 \/ 0 < z mod 512 < 512).
Proof.
  intros Hr. destruct (ready_parts _ _ Hr) as (_ & _ & Hb).
  cbn [body_ready] in Hb. destruct (size f) as [z| | |]; try discriminate.
  apply andb_true_iff in Hb as [Hb Hz].
  apply andb_true_iff in Hb as [Heq _]. apply Z.eqb_eq in Heq.
  exists z. split; [reflexivity|]. split; [exact Heq|].
  pose proof (len_nonneg (concat (iterable f))). split; [lia|].
  apply orb_true_iff in Hz as [Hz|Hz].
  - left. now apply Z.eqb_eq.
  - right. apply negb_true_iff, Z.eqb_neq in Hz.
    pose proof (Z.mod_pos_bound z 512 ltac:(lia)). lia.
Qed.

Lemma body_bytes_file (f : TarStreamFile) (z : Z) :
  size f = Int z -> z = len (concat (iterable f)) ->
  (z = 0 \/ 0 < z mod 512 < 512) ->
  body_bytes (File f)
  = concat (iterable f)
    ++ (if z =? 0 then [] else repeat 0 (Z.to_nat (512 - z mod 512)))
  /\ List.length (body_bytes (File f)) = (512 * nblocks (File f))%nat.
Proof.
  intros Hs Hz Hm. pose proof (len_nonneg (concat (iterable f))) as Hn.
  unfold body_bytes, body_chunks, padding, nblocks, declared_size.
  rewrite Hs. cbn [rem512]. rewrite Z.rem_mod_nonneg by lia.
  rewrite concat_app.
  destruct Hm as [-> | Hm].
  - change (0 mod 512 =? 0) with true. cbv iota. cbn [concat].
    split; [reflexivity|].
    rewrite app_nil_r. unfold len in Hz. change (- (- 0 / 512)) with 0.
    cbn [Z.to_nat]. lia.
  - destruct (Z.eqb_spec (z mod 512) 0); [lia|].
    destruct (Z.eqb_spec z 0) as [->|]; [cbn in Hm; lia|].
    cbn [concat]. rewrite app_nil_r. split; [reflexivity|].
    rewrite length_app, repeat_length. unfold len in Hz.
    assert (E : - (- z / 512) = z / 512 + 1)
      by (Z.to_euclidean_division_equations; lia).
    rewrite E.
    pose proof (Z.div_mod z 512 ltac:(lia)).
    pose proof (Z.div_pos z 512 ltac:(lia) ltac:(lia)). lia.
Qed.

Lemma body_bytes_dir (d : TarStreamDir) :
  body_bytes (Dir d) = [] /\ nblocks (Dir d) = 0%nat.
Proof. split; reflexivity. Qed.

(** The consumer reads one archived chunk. *)
Lemma consume_entry now chunk (bs : list bytes) (es : list TarStreamEntry) :
  ready now chunk = true -> last_closed es ->
  exists k e,
    (forall n,
        consume (k + n) (idle (entry_blocks now chunk ++ bs) es)
        = consume n (idle bs (es ++ [e])))
    /\ seen e = expected chunk
    /\ last_closed (es ++ [e]).
Proof.
  intros Hr Hl.
  set (H := wire_header now chunk).
  destruct (wire_header_read now chunk Hr)
    as (_ & Hck & _ & Hpn & Hsz & Htf).
  fold H in Hck, Hpn, Hsz, Htf.
  unfold entry_blocks. fold H. cbn [app].
  destruct chunk as [f|d].
  - (* a file *)
    destruct (file_ready_size now f Hr) as (z & Hz & Hlen & Hz0 & Hmod).
    destruct (body_bytes_file f z Hz Hlen Hmod) as [Hbb Hbl].
    assert (Hnb : new_body (parse_header H)
                  = body z (Z.of_nat (nblocks (File f))) false Open []).
    { unfold new_body, body. rewrite Hsz. cbn [declared_size].
      rewrite Hz. cbn [ceil512]. unfold nblocks. cbn [declared_size].
      rewrite Hz. rewrite Z2Nat.id; [reflexivity|].
      Z.to_euclidean_division_equations; lia. }
    destruct Hmod as [Hzero|Hmod].
    + (* an empty file *)
      assert (Hn0 : nblocks (File f) = 0%nat)
        by (unfold nblocks; cbn [declared_size]; rewrite Hz, Hzero;
            reflexivity).
      exists 3%nat. eexists. split; [|split].
      * intros n. cbn [Nat.add].
        rewrite (consume_header (S n) H _ es Hl Hck), Htf.
        cbn [typeflag_of has_size str_eqb Z.eqb Pos.eqb andb].
        rewrite Hnb, Hn0. cbn [blocks app].
        apply consume_close. cbn [Z.of_nat]. lia.
      * unfold seen, expected. cbn [e_pathname e_header e_readable].
        rewrite Hpn, Hsz. cbn [body b_chunks b_state concat].
        do 2 f_equal.
        assert (E : concat (iterable f) = []).
        { rewrite Hzero in Hlen. unfold len in Hlen.
          destruct (concat (iterable f)); [reflexivity|].
          cbn [List.length] in Hlen. lia. }
        now rewrite E.
      * apply last_closed_snoc. reflexivity.
    + (* a file with bytes *)
      set (j := nblocks (File f)) in *.
      assert (Hrem : Z.rem z 512 = z mod 512)
        by (apply Z.rem_mod_nonneg; lia).
      assert (Hj : Z.of_nat j = z / 512 + 1).
      { unfold j, nblocks. cbn [declared_size]. rewrite Hz.
        rewrite Z2Nat.id; Z.to_euclidean_division_equations; lia. }
      pose proof (Z.div_pos z 512 ltac:(lia) ltac:(lia)) as Hq.
      destruct j as [|j'] eqn:Ej; [lia|].
      exists (2 + (2 * S j' + 1))%nat. eexists. split; [|split].
      * intros n.
        replace (2 + (2 * S j' + 1) + n)%nat
          with (S (S (2 * S j' + 1 + n))) by lia.
        rewrite (consume_header _ H _ es Hl Hck), Htf.
        cbn [typeflag_of has_size str_eqb Z.eqb Pos.eqb andb].
        rewrite Hnb.
        apply (consume_body z (parse_header H) bs es n (S j')).
        -- lia.
        -- exact Hbl.
      * unfold seen, expected. cbn [e_pathname e_header e_readable].
        rewrite Hpn, Hsz. cbn [body b_chunks b_state app declared_size].
        rewrite Hz. do 2 f_equal. f_equal.
        rewrite Hrem.
        replace (z mod 512) with (Z.of_nat (Z.to_nat (z mod 512))) by lia.
        rewrite concat_cuts by (auto; lia).
        rewrite Hbb. unfold len in Hlen.
        rewrite firstn_app.
        replace (512 * j' + Z.to_nat (z mod 512)
                 - List.length (concat (iterable f)))%nat
          with 0%nat
          by (pose proof (Z.div_mod z 512 ltac:(lia)); lia).
        rewrite firstn_O, app_nil_r. apply firstn_all2.
        pose proof (Z.div_mod z 512 ltac:(lia)). lia.
      * apply last_closed_snoc. reflexivity.
  - (* a directory *)
    exists 2%nat. eexists. split; [|split].
    + intros n. cbn [Nat.add].
      rewrite (consume_header n H _ es Hl Hck), Htf.
      cbn [typeflag_of has_size str_eqb Z.eqb Pos.eqb andb].
      reflexivity.
    + unfold seen, expected. cbn [e_pathname e_header e_readable].
      now rewrite Hpn, Hsz.
    + apply last_closed_snoc. exact I.
Qed.

(** The consumer reads all the archived chunks, in order. *)
Lemma consume_entries (firsts : list (Z * TarStreamInput))
    (bs : list bytes) :
  Forall (fun e => ready (fst e) (snd e) = true) firsts ->
  forall es,
    last_closed es ->
    exists k es',
      (forall n,
          consume (k + n)
            (idle (concat (map (fun e => entry_blocks (fst e) (snd e))
                             firsts) ++ bs) es)
          = consume n (idle bs (es ++ es')))
      /\ map seen es' = map (fun e => expected (snd e)) firsts
      /\ last_closed (es ++ es').
Proof.
  induction 1 as [|[now chunk] firsts Hr _ IH]; intros es Hl.
  - exists 0%nat, []. rewrite app_nil_r. repeat split; auto.
  - cbn [map concat fst snd] in *. 
    destruct (consume_entry now chunk
                (concat (map (fun e => entry_blocks (fst e) (snd e))
                           firsts) ++ bs) es Hr Hl)
      as (k1 & e & Hrun1 & Hseen & Hl1).
    destruct (IH (es ++ [e]) Hl1) as (k2 & es' & Hrun2 & Hseen2 & Hl2).
    exists (k1 + k2)%nat, (e :: es'). split; [|split].
    + intros n. rewrite <- app_assoc, <- Nat.add_assoc, Hrun1, Hrun2.
      now rewrite <- app_assoc.
    + cbn [map]. now rewrite Hseen, Hseen2.
    + now rewrite <- app_assoc in Hl2.
Qed.

End Round_trip.

Section Pipe.

Lemma concat_concat_map {A B} (f : A -> list (list B)) (l : list A) :
  concat (concat (map f l)) = concat (map (fun e => concat (f e)) l).
Proof.
  induction l as [|x l IH]; [reflexivity|].
  cbn [map concat]. now rewrite concat_app, IH.
Qed.

Lemma wire_bytes now chunk :
  ready now chunk = true ->
  List.length (concat (wire_chunks now chunk))
  = (512 * (1 + nblocks chunk))%nat
  /\ blocks (1 + nblocks chunk) (concat (wire_chunks now chunk))
     = entry_blocks now chunk.
Proof.
  intros Hr.
  assert (Hh : List.length (wire_header now chunk) = (512 * 1)%nat)
    by (destruct (wire_header_read now chunk Hr) as (_ & _ & Hlen & _);
        rewrite Hlen; reflexivity).
  assert (Hb : List.length (body_bytes chunk) = (512 * nblocks chunk)%nat).
  { destruct chunk as [f|d]; [|reflexivity].
    destruct (file_ready_size now f Hr) as (z & Hz & Hlen & Hz0 & Hmod).
    apply (body_bytes_file f z Hz Hlen Hmod). }
  unfold wire_chunks, entry_blocks. cbn [concat].
  fold (body_bytes chunk). split.
  - rewrite length_app, Hh, Hb. lia.
  - rewrite (blocks_app 1 (nblocks chunk) _ _ Hh).
    rewrite blocks_one by (rewrite Hh; reflexivity). reflexivity.
Qed.

(** The archive of the chunks seen first, cut into blocks. *)
Lemma archive_blocks (firsts : list (Z * TarStreamInput)) :
  Forall (fun e => ready (fst e) (snd e) = true) firsts ->
  exists N,
    List.length (concat (map (fun e => concat (wire_chunks (fst e) (snd e)))
                           firsts) ++ repeat 0 1024)
    = (512 * N)%nat
    /\ blocks N (concat (map (fun e => concat (wire_chunks (fst e) (snd e)))
                           firsts) ++ repeat 0 1024)
       = concat (map (fun e => entry_blocks (fst e) (snd e)) firsts)
         ++ [repeat 0 512; repeat 0 512].
Proof.
  induction 1 as [|[now chunk] firsts Hr _ (N & Hlen & Hbl)].
  - exists 2%nat. split; reflexivity.
  - destruct (wire_bytes now chunk Hr) as [Hw Hb].
    exists (1 + nblocks chunk + N)%nat. cbn [map concat fst snd].
    rewrite <- !app_assoc. split.
    + rewrite length_app, Hw, Hlen. lia.
    + now rewrite (blocks_app _ N _ _ Hw), Hb, Hbl.
Qed.

(** What the decoder's [reader] hands out for the output of the encoder,
    however that output is chunked on the way. *)
Lemma reader_of_archive (firsts : list (Z * TarStreamInput))
    (chunks : list bytes) :
  Forall (fun e => ready (fst e) (snd e) = true) firsts ->
  concat chunks
  = concat (concat (map (fun e => wire_chunks (fst e) (snd e)) firsts)
            ++ [repeat 0 1024%nat]) ->
  reader chunks (Ok tt)
  = (concat (map (fun e => entry_blocks (fst e) (snd e)) firsts), Ok tt).
Proof.
  intros Hall Hc.
  destruct (archive_blocks firsts Hall) as (N & Hlen & Hbl).
  unfold bytes in *.
  rewrite concat_app, concat_concat_map in Hc. cbn [concat] in Hc.
  rewrite app_nil_r in Hc.
  unfold reader. rewrite (slicer_aligned chunks N) by now rewrite Hc.
  rewrite Hc, Hbl, trimmer_trailer. reflexivity.
Qed.

(** The bytes of the descriptors as the claim has them: pathname as given,
    duplicates by pathname as given. *)
Definition given_path (chunk : TarStreamInput) : jsstring :=
  match pathname chunk with
  | PathString s => s
  | PathPair prefix name => joined prefix name
  end.

Fixpoint first_given (paths : list jsstring) (inputs : list TarStreamInput)
  : list TarStreamInput :=
  match inputs with
  | [] => []
  | c :: r =>
      if includes paths (given_path c) then first_given paths r
      else c :: first_given (paths ++ [given_path c]) r
  end.

Definition stated (chunk : TarStreamInput)
  : jsstring * number * option (bytes * body_state) :=
  (given_path chunk, declared_size chunk,
   match chunk with
   | File f => Some (concat (iterable f), Done)
   | Dir _ => None
   end).

(** The round trip as the spec has it: whatever the encoder accepts comes
    back with the pathnames, sizes and bodies that went in. *)
Definition round_trip_as_stated : Prop :=
  forall fuel clock inputs chunks,
    TarStream fuel clock inputs = (chunks, Ok tt) ->
    exists k, forall n,
      map seen (entries (consume (k + n) (UnTarStream chunks (Ok tt))))
      = map stated (first_given [] inputs).



(** Two files of five and three bytes. *)
Definition two_files : list TarStreamInput :=
  [ File {| f_pathname := PathString (lit "a.txt"); size := Int 5;
            sizeExtension := false;
            iterable := [[104; 101; 108; 108; 111]];
            f_options := None |};
    File {| f_pathname := PathString (lit "b.txt"); size := Int 3;
            sizeExtension := false; iterable := [[1; 2; 3]];
            f_options := None |} ].

(** Why the round trip is stated for default readers.  A BYOB reader that
    offers a buffer of 1024 bytes for the body of ['a.txt'] gets 1024 bytes
    back for a declared size of 5: the loop of the BYOB branch tests the
    buffer only, so that after the five bytes of the body it goes on to
    take the header block of ['b.txt'] and the block of its body. *)
Lemma byob_reader_reads_past_the_body :
  let out := TarStream 0 (fun _ => 0) two_files in
  snd out = Ok tt
  /\ exists d,
      run [Pull; Proceed; BodyPullInto 0 1024;
           BodyResume 0; BodyResume 0; BodyResume 0]
        (UnTarStream (fst out) (snd out)) = Some d
      /\ map (fun e => (e_pathname e, h_size (e_header e),
                        option_map (fun b => len (concat (b_chunks b)))
                          (e_readable e)))
           (entries d)
         = [(lit "a.txt", Int 5, Some 1024)].
Proof.
  intros out. split; [vm_compute; reflexivity|].
  eexists. split; [vm_compute; reflexivity|].
  vm_compute. reflexivity.
Qed.

Definition sample_inputs : list TarStreamInput :=
  [ Dir {| d_pathname := PathString (lit "potato"); d_options := None |};
    plain_file;
    File {| f_pathname := PathPair (lit "deep/er") (lit "c.txt");
            size := Int 3; sizeExtension := false; iterable := [[1; 2; 3]];
            f_options := None |};
    Dir {| d_pathname := PathPair [] (lit "deep/"); d_options := None |};
    File {| f_pathname := PathString (lit "./a.txt"); size := Int 1;
            sizeExtension := false; iterable := [[120]];
            f_options := None |};
    File {| f_pathname := PathString (lit "potato//b"); size := Int 600;
            sizeExtension := false;
            iterable := [repeat 1 100%nat; repeat 2 500%nat];
            f_options := None |} ].


End Pipe.

(* ================================================================== *)
(** * Further properties of the encoder and of the decoder *)

Section Front.

Lemma blocks_full (q : nat) :
  forall y : bytes,
    (512 * q <= List.length y)%nat ->
    Forall (fun b : bytes => List.length b = 512%nat) (blocks q y)
    /\ concat (blocks q y) = firstn (512 * q) y.
Proof.
  induction q as [|q IH]; intros y Hy.
  - split; [constructor|reflexivity].
  - cbn [blocks concat].
    destruct (IH (skipn 512 y)) as [Hall Hcat];
      [rewrite length_skipn; lia|].
    split.
    + constructor; [rewrite length_firstn; lia|exact Hall].
    + rewrite Hcat.
      replace (512 * S q)%nat with (512 + 512 * q)%nat by lia.
      rewrite <- (firstn_skipn 512 y) at 3.
      rewrite firstn_app, length_firstn.
      replace (Nat.min 512 (List.length y)) with 512%nat by lia.
      rewrite firstn_firstn.
      replace (Nat.min (512 + 512 * q) 512) with 512%nat by lia.
      replace (512 + 512 * q - 512)%nat with (512 * q)%nat by lia.
      reflexivity.
Qed.

(** X1. Whatever the sizes of the chunks written to the decoder, its first
    transform hands on blocks of exactly 512 bytes which, followed by the
    carry it keeps, are the bytes written; the carry is shorter than a
    block. *)
Theorem reassembly_keeps_the_bytes (chunks : list bytes) :
  Forall (fun b : bytes => List.length b = 512%nat) (fst (slicer [] chunks))
  /\ concat (fst (slicer [] chunks)) ++ snd (slicer [] chunks)
     = concat chunks
  /\ (List.length (snd (slicer [] chunks)) < 512)%nat.
Proof.
  pose proof (slicer_blocks chunks [] ltac:(simpl; lia)) as E.
  cbv zeta in E. cbn [app] in E. rewrite E. cbn [fst snd].
  set (y := concat chunks). set (q := (List.length y / 512)%nat).
  assert (Hq : (512 * q <= List.length y)%nat)
    by (apply Nat.Div0.mul_div_le).
  destruct (blocks_full q y Hq) as [Hall Hcat].
  split; [exact Hall|]. split.
  - rewrite Hcat. apply firstn_skipn.
  - rewrite length_skipn.
    pose proof (Nat.div_mod_eq (List.length y) 512).
    pose proof (Nat.mod_upper_bound (List.length y) 512).
    fold q in H. lia.
Qed.

(** X2. A stream whose length is not a multiple of 512 bytes ends in the
    error of the first transform, whatever its chunks. *)
Theorem misaligned_stream_is_refused (chunks : list bytes) :
  (List.length (concat chunks) mod 512 <> 0)%nat ->
  snd (reader chunks (Ok tt))
  = Throw "Tarball has an unexpected number of bytes.!!".
Proof.
  intros Hm. unfold reader.
  pose proof (slicer_blocks chunks [] ltac:(simpl; lia)) as E.
  cbv zeta in E. cbn [app] in E. rewrite E.
  destruct (trimmer [] _) as [forwarded x']. cbn [snd bind].
  unfold slicer_flush.
  set (y := concat chunks) in *.
  destruct (skipn (512 * (List.length y / 512)) y) eqn:Es.
  - apply (f_equal (@List.length Z)) in Es. rewrite length_skipn in Es.
    cbn [List.length] in Es.
    pose proof (Nat.div_mod_eq (List.length y) 512). lia.
  - reflexivity.
Qed.

Lemma misaligned_stream_witness :
  (List.length (concat [[1; 2]; [3]]) mod 512 <> 0)%nat
  /\ snd (reader [[1; 2]; [3]] (Ok tt))
     = Throw "Tarball has an unexpected number of bytes.!!".
Proof.
  split; [vm_compute; discriminate|].
  apply misaligned_stream_is_refused. vm_compute. discriminate.
Defined.

(** X3. For a stream of [n] whole blocks, the decoder's reader hands out
    all blocks but the last two; it ends normally when those two hold only
    zero bytes, with "invalid ending" when they do not, and with "too
    small" when there are fewer than two blocks. *)
Theorem trailer_is_held_back (chunks : list bytes) (n : nat) :
  List.length (concat chunks) = (512 * n)%nat ->
  reader chunks (Ok tt)
  = (firstn (n - 2) (blocks n (concat chunks)),
     if (n <? 2)%nat then Throw "Tarball was too small to be valid."
     else if forallb (fun b => b =? 0)
               (skipn (512 * (n - 2)) (concat chunks))
          then Ok tt
          else Throw "Tarball has invalid ending.").
Proof.
  intros Hn. unfold reader.
  rewrite (slicer_aligned chunks n Hn).
  pose proof (trimmer_holds_two (blocks n (concat chunks)) []
                ltac:(simpl; lia)) as E.
  cbn [app] in E. rewrite length_blocks in E. rewrite E.
  cbn [bind slicer_flush nonempty]. f_equal.
  unfold trimmer_flush. rewrite length_skipn, length_blocks.
  destruct (Nat.ltb_spec n 2) as [Hlt|Hge].
  - replace (n - (n - 2) <? 2)%nat with true
      by (symmetry; apply Nat.ltb_lt; lia). reflexivity.
  - replace (n - (n - 2) <? 2)%nat with false
      by (symmetry; apply Nat.ltb_ge; lia).
    set (y := concat chunks) in *.
    assert (Hz : forallb (forallb (fun b => b =? 0))
                   (skipn (n - 2) (blocks n y))
                 = forallb (fun b => b =? 0) (skipn (512 * (n - 2)) y)).
    { replace n with ((n - 2) + 2)%nat at 2 by lia.
      rewrite <- (firstn_skipn (512 * (n - 2)) y) at 1.
      rewrite blocks_app
        by (rewrite length_firstn; lia).
      rewrite skipn_app, length_blocks, Nat.sub_diag, skipn_O.
      rewrite skipn_all2 by (rewrite length_blocks; lia).
      cbn [app].
      destruct (blocks_full 2 (skipn (512 * (n - 2)) y)) as [_ Hcat];
        [rewrite length_skipn; lia|].
      rewrite firstn_all2 in Hcat by (rewrite length_skipn; lia).
      rewrite <- Hcat at 2.
      generalize (blocks 2 (skipn (512 * (n - 2)) y)).
      intros l. induction l as [|a l IH]; [reflexivity|].
      cbn [forallb concat]. rewrite forallb_app, IH. reflexivity. }
    unfold bytes in *. rewrite Hz.
    destruct (forallb (fun b => b =? 0) (skipn (512 * (n - 2)) y));
      reflexivity.
Qed.

Lemma trailer_is_held_back_witness :
  List.length (concat [repeat 0 1000%nat; repeat 0 24%nat])
  = (512 * 2)%nat
  /\ reader [repeat 0 1000%nat; repeat 0 24%nat] (Ok tt) = ([], Ok tt).
Proof.
  split; [vm_compute; reflexivity|].
  rewrite (trailer_is_held_back _ 2) by (vm_compute; reflexivity).
  vm_compute. reflexivity.
Defined.

End Front.

Section Checksum_field.

Lemma checksum_ok_tail (a b : bytes) (x : Z) :
  (154 <= List.length a <= 155)%nat ->
  (156 <= List.length a + S (List.length b))%nat ->
  checksum_ok (a ++ x :: b)
  = num_eqb
      (Int (sum (firstn 148 a) + 256
            + sum (skipn (156 - List.length a) (x :: b))))
      (parseInt8 (decode (firstn 6 (skipn 148 a)))).
Proof.
  intros Ha Hb.
  rewrite checksum_ok_unfold by (rewrite length_app; cbn [List.length]; lia).
  rewrite firstn_app.
  replace (148 - List.length a)%nat with 0%nat by lia.
  rewrite firstn_O, app_nil_r.
  rewrite !skipn_app.
  rewrite (@skipn_all2 _ 156 a) by lia.
  replace (148 - List.length a)%nat with 0%nat by lia.
  rewrite skipn_O. cbn [app].
  rewrite firstn_app.
  replace (6 - List.length (skipn 148 a))%nat with 0%nat
    by (rewrite length_skipn; lia).
  rewrite firstn_O, app_nil_r. reflexivity.
Qed.

(** X4. The checksum test of the decoder reads the six digits at offsets
    148 to 153 only: the bytes at offsets 154 and 155 of a header block
    have no effect on whether the block is accepted. *)
Theorem checksum_ignores_its_terminators (h : bytes) (k : nat) (v : Z) :
  (156 <= List.length h)%nat ->
  k = 154%nat \/ k = 155%nat ->
  checksum_ok (poke k v h) = checksum_ok h.
Proof.
  intros Hh Hk.
  assert (Hlt : (k < List.length h)%nat) by lia.
  rewrite (split_at k h Hlt) at 2. unfold poke.
  assert (Ha : List.length (firstn k h) = k)
    by (rewrite length_firstn; lia).
  rewrite !checksum_ok_tail
    by (rewrite ?Ha, ?length_skipn; lia).
  rewrite Ha.
  destruct Hk as [-> | ->].
  - change (156 - 154)%nat with 2%nat. cbn [skipn]. reflexivity.
  - change (156 - 155)%nat with 1%nat. cbn [skipn]. reflexivity.
Qed.

Lemma checksum_ignores_its_terminators_witness :
  (156 <= List.length (repeat 0 512%nat))%nat
  /\ (154%nat = 154%nat \/ 154%nat = 155%nat)
  /\ checksum_ok (poke 154 7 (repeat 0 512%nat))
     = checksum_ok (repeat 0 512%nat).
Proof.
  assert (H : (156 <= List.length (repeat 0 512%nat))%nat)
    by (rewrite repeat_length; lia).
  split; [exact H|]. split; [left; reflexivity|].
  apply checksum_ignores_its_terminators; [exact H|left; reflexivity].
Defined.

End Checksum_field.

Section Generator.

Lemma length_set (dst src r : bytes) (off : nat) :
  set dst src off = Ok r -> List.length r = List.length dst.
Proof.
  unfold set. destruct (Nat.leb_spec (off + List.length src)
                          (List.length dst)) as [H|H]; [|discriminate].
  intros E. inversion E; subst.
  rewrite !length_app, length_firstn, length_skipn. lia.
Qed.

Lemma length_make_header now chunk prefix name (h : bytes) :
  make_header now chunk prefix name = Ok h -> List.length h = 512%nat.
Proof.
  unfold make_header. intros E.
  destruct (set (repeat 0 512%nat) name 0) as [h0| |] eqn:E0;
    try discriminate E.
  cbn [bind] in E.
  destruct (set h0 (encode (template now chunk)) 100) as [h1| |] eqn:E1;
    try discriminate E.
  cbn [bind] in E.
  destruct (set h1 prefix 345) as [h2| |] eqn:E2; try discriminate E.
  cbn [bind] in E.
  apply length_set in E0, E1, E2, E.
  rewrite repeat_length in E0. congruence.
Qed.

(** X5. Whatever the chunk, its pathname and its options, a header that
    the encoder manages to build is a block of exactly 512 bytes. *)
Theorem header_is_one_block now chunk prefix name (h : bytes) :
  make_header now chunk prefix name = Ok h -> List.length h = 512%nat.
Proof. apply length_make_header. Qed.

Lemma header_is_one_block_witness :
  exists h,
    make_header 0 (Dir {| d_pathname := PathString (lit "d");
                          d_options := None |}) [] (lit "d/") = Ok h
    /\ List.length h = 512%nat.
Proof.
  eexists. split; [vm_compute; reflexivity|].
  apply (header_is_one_block 0
           (Dir {| d_pathname := PathString (lit "d"); d_options := None |})
           [] (lit "d/")).
  vm_compute. reflexivity.
Defined.

Lemma body_of_aligned (f : TarStreamFile) (out : list bytes) :
  body_of f = (out, Ok tt) -> len (concat out) mod 512 = 0.
Proof.
  unfold body_of.
  destruct (num_eqb (size f) (Int (len (concat (iterable f))))) eqn:E;
    [|discriminate].
  destruct (size f) as [z| | |]; try discriminate E.
  cbn [num_eqb] in E. apply Z.eqb_eq in E.
  pose proof (len_nonneg (concat (iterable f))) as Hz.
  change (rem512 (Int z)) with (Z.rem z 512).
  rewrite Z.rem_mod_nonneg by lia.
  intros H. apply (f_equal fst) in H. unfold fst in H. subst out.
  destruct (Z.eqb_spec (z mod 512) 0) as [Hr|Hr].
  - rewrite app_nil_r. now rewrite <- E.
  - rewrite concat_app, len_app, concat_cons, concat_nil, app_nil_r.
    unfold len at 2. rewrite repeat_length.
    pose proof (Z.mod_pos_bound z 512 ltac:(lia)).
    rewrite Z2Nat.id by lia. rewrite <- E.
    replace (z + (512 - z mod 512)) with (z - z mod 512 + 1 * 512) by lia.
    rewrite Z.mod_add by lia.
    rewrite Zminus_mod, Zmod_mod, Z.sub_diag. reflexivity.
Qed.

Lemma gen_turn_aligned fuel now paths chunk out paths' :
  gen_turn fuel now paths chunk = (out, Ok paths') ->
  len (concat out) mod 512 = 0.
Proof.
  unfold gen_turn.
  destruct (match options chunk with
            | Some o => negb (validTarStreamOptions o)
            | None => false
            end); [discriminate|].
  destruct (match chunk with
            | File f => size_rejected f
            | Dir _ => false
            end); [discriminate|].
  destruct (split_pathname fuel chunk) as [[prefix name]| |];
    try discriminate.
  destruct (includes paths (joined prefix name)).
  - intros H. inversion H. reflexivity.
  - destruct (make_header now chunk prefix name) as [header| |] eqn:Eh;
      try discriminate.
    apply length_make_header in Eh.
    destruct chunk as [f|d].
    + destruct (body_of f) as [o r] eqn:Eb.
      destruct r as [[]| |]; cbn [bind]; try discriminate.
      intros H. inversion H; subst. cbn [concat].
      rewrite len_app. unfold len at 1. rewrite Eh.
      apply body_of_aligned in Eb.
      rewrite Z.add_mod, Eb by lia. reflexivity.
    + intros H. inversion H; subst. cbn [concat]. rewrite app_nil_r.
      unfold len. rewrite Eh. reflexivity.
Qed.

(** X6. When the generator of the encoder runs to its end, the bytes it
    has yielded are a whole number of 512-byte blocks and its last chunk is
    the trailer of 1024 zero bytes. *)
Theorem archive_is_block_aligned fuel clock (inputs : list TarStreamInput) :
  forall k paths out,
    gen fuel clock k paths inputs = (out, Ok tt) ->
    len (concat out) mod 512 = 0
    /\ exists entries, out = entries ++ [repeat 0 1024%nat].
Proof.
  induction inputs as [|chunk rest IH]; intros k paths out.
  - cbn [gen]. intros H. apply (f_equal fst) in H. unfold fst in H.
    subst out. split.
    + rewrite concat_cons, concat_nil, app_nil_r. unfold len.
      rewrite repeat_length. reflexivity.
    + exists []. reflexivity.
  - cbn [gen].
    destruct (gen_turn fuel (clock k) paths chunk) as [o r] eqn:Et.
    destruct r as [paths'| |]; try discriminate.
    destruct (gen fuel clock (S k) paths' rest) as [o' r'] eqn:Eg.
    intros H. inversion H; subst.
    destruct (IH _ _ _ Eg) as [Hlen [es Hes]].
    apply gen_turn_aligned in Et. split.
    + rewrite concat_app, len_app, Z.add_mod, Et, Hlen by lia. reflexivity.
    + exists (o ++ es). rewrite Hes. apply app_assoc.
Qed.

Lemma archive_is_block_aligned_witness :
  exists out,
    gen 0 (fun _ => 0) 0 []
      [Dir {| d_pathname := PathString (lit "d"); d_options := None |}]
    = (out, Ok tt)
    /\ len (concat out) mod 512 = 0
    /\ exists entries, out = entries ++ [repeat 0 1024%nat].
Proof.
  eexists. split; [vm_compute; reflexivity|].
  apply (archive_is_block_aligned 0 (fun _ => 0)
           [Dir {| d_pathname := PathString (lit "d"); d_options := None |}]
           0%nat []).
  vm_compute. reflexivity.
Defined.

(** X7. A file whose iterable does not deliver the declared number of bytes
    is never archived silently: unless the chunk is refused or skipped
    before anything is yielded, the generator yields the header and every
    chunk of the body and only then throws, without padding. *)
Theorem declared_size_is_checked_last fuel now paths (f : TarStreamFile)
    (out : list bytes) (r : result (list jsstring)) :
  size f <> Int (len (concat (iterable f))) ->
  gen_turn fuel now paths (File f) = (out, r) ->
  out = []
  \/ (exists header, out = header :: iterable f)
     /\ r = Throw "Invalid Tarball! Provided size did not match bytes read from iterable.".
Proof.
  intros Hsize. unfold gen_turn.
  destruct (match options (File f) with
            | Some o => negb (validTarStreamOptions o)
            | None => false
            end); [intros H; inversion H; auto|].
  destruct (size_rejected f); [intros H; inversion H; auto|].
  destruct (split_pathname fuel (File f)) as [[prefix name]| |];
    try (intros H; inversion H; auto; fail).
  destruct (includes paths (joined prefix name));
    [intros H; inversion H; auto|].
  destruct (make_header now (File f) prefix name) as [header| |];
    try (intros H; inversion H; auto; fail).
  unfold body_of.
  destruct (num_eqb (size f) (Int (len (concat (iterable f))))) eqn:E.
  - exfalso. apply Hsize.
    destruct (size f) as [z| | |]; try discriminate E.
    cbn [num_eqb] in E. apply Z.eqb_eq in E. now subst.
  - cbn [bind]. intros H. inversion H; subst. right. eauto.
Qed.

Lemma declared_size_is_checked_last_witness :
  let f := {| f_pathname := PathString (lit "a"); size := Int 3;
              sizeExtension := false; iterable := [[1; 2]];
              f_options := None |} in
  size f <> Int (len (concat (iterable f)))
  /\ exists out r,
       gen_turn 0 0 [] (File f) = (out, r)
       /\ (out = []
           \/ (exists header, out = header :: iterable f)
              /\ r = Throw "Invalid Tarball! Provided size did not match bytes read from iterable.").
Proof.
  intros f.
  assert (H : size f <> Int (len (concat (iterable f))))
    by (vm_compute; discriminate).
  split; [exact H|].
  eexists. eexists. split; [vm_compute; reflexivity|].
  apply (declared_size_is_checked_last 0 0 [] f); [exact H|].
  vm_compute. reflexivity.
Defined.

Definition invalid_size : string :=
  "Invalid Size Provided! Size cannot exceed 8 GiBs by default or 64 GiBs with sizeExtension set to true.".

Lemma parsePathname_not_size fuel s d m :
  parsePathname fuel s d = Throw m -> m <> invalid_size.
Proof.
  unfold parsePathname.
  destruct (len (encode (normalize s d)) <=? 100); [discriminate|].
  destruct (256 <? len (encode (normalize s d)));
    [intros H; inversion H; discriminate|].
  destruct (100 <? _); [intros H; inversion H; discriminate|].
  destruct (scan _ _ _); [|discriminate].
  destruct (155 <? _); [intros H; inversion H; discriminate|discriminate].
Qed.

Lemma make_header_not_size now chunk prefix name m :
  make_header now chunk prefix name = Throw m -> m <> invalid_size.
Proof.
  assert (Hset : forall dst src off m,
             set dst src off = Throw m ->
             m = "RangeError: offset is out of bounds"%string).
  { intros dst src off m0. unfold set.
    destruct (_ <=? _)%nat; [discriminate|]. intros H. now inversion H. }
  unfold make_header. intros E.
  destruct (set (repeat 0 512%nat) name 0) as [h0| |] eqn:E0;
    cbn [bind] in E; try discriminate E.
  2:{ inversion E; subst. apply Hset in E0. subst. discriminate. }
  destruct (set h0 (encode (template now chunk)) 100) as [h1| |] eqn:E1;
    cbn [bind] in E; try discriminate E.
  2:{ inversion E; subst. apply Hset in E1. subst. discriminate. }
  destruct (set h1 prefix 345) as [h2| |] eqn:E2;
    cbn [bind] in E; try discriminate E.
  2:{ inversion E; subst. apply Hset in E2. subst. discriminate. }
  apply Hset in E. subst. discriminate.
Qed.



End Generator.

Section Duplicates.

Lemma str_eqb_refl (a : jsstring) : str_eqb a a = true.
Proof.
  induction a as [|x a IH]; [reflexivity|].
  cbn [str_eqb]. now rewrite Z.eqb_refl, IH.
Qed.

Lemma includes_app (paths more : list jsstring) (p : jsstring) :
  includes (paths ++ more) p = includes paths p || includes more p.
Proof. unfold includes. apply existsb_app. Qed.

Lemma first_seen_repeated clock (inputs : list TarStreamInput)
    (c : TarStreamInput) :
  forall k paths,
    includes paths (entry_path c) = true
    \/ In (entry_path c) (map entry_path inputs) ->
    first_seen clock k paths (inputs ++ [c])
    = first_seen clock k paths inputs.
Proof.
  induction inputs as [|a r IH]; intros k paths H.
  - destruct H as [H|[]]. cbn [app first_seen]. now rewrite H.
  - cbn [app first_seen].
    destruct (includes paths (entry_path a)) eqn:Ea.
    + apply IH. destruct H as [H|[H|H]]; auto.
      left. now rewrite <- H.
    + f_equal. apply IH. rewrite includes_app.
      destruct H as [H|[H|H]]; auto.
      * left. now rewrite H.
      * left. rewrite <- H. unfold includes at 2. cbn [existsb].
        rewrite str_eqb_refl. now rewrite orb_true_r.
Qed.

Lemma all_ready_app clock (inputs rest : list TarStreamInput) :
  forall k,
    all_ready clock k (inputs ++ rest) = true ->
    all_ready clock k inputs = true.
Proof.
  induction inputs as [|a r IH]; intros k H; [reflexivity|].
  cbn [app all_ready] in *. apply andb_true_iff in H as [Ha Hr].
  now rewrite Ha, (IH _ Hr).
Qed.

(** X9. A chunk whose archived pathname (the normalized string, or the
    prefix and the name joined) is that of an earlier chunk adds nothing to
    the archive: with it or without it at the end of well-behaved input,
    the encoder produces the same chunks. *)
Theorem repeated_pathname_is_skipped fuel clock
    (inputs : list TarStreamInput) (c : TarStreamInput) :
  all_ready clock 0 (inputs ++ [c]) = true ->
  In (entry_path c) (map entry_path inputs) ->
  TarStream fuel clock (inputs ++ [c]) = TarStream fuel clock inputs.
Proof.
  intros Hall Hin.
  rewrite (TarStream_ready fuel clock _ Hall).
  rewrite (TarStream_ready fuel clock _ (all_ready_app clock _ _ _ Hall)).
  rewrite first_seen_repeated by (right; exact Hin). reflexivity.
Qed.

Lemma repeated_pathname_is_skipped_witness :
  let a := File {| f_pathname := PathString (lit "a"); size := Int 1;
                   sizeExtension := false; iterable := [[7]];
                   f_options := None |} in
  let c := File {| f_pathname := PathString (lit "./a"); size := Int 2;
                   sizeExtension := false; iterable := [[8; 9]];
                   f_options := None |} in
  all_ready (fun _ => 0) 0 ([a] ++ [c]) = true
  /\ In (entry_path c) (map entry_path [a])
  /\ TarStream 0 (fun _ => 0) ([a] ++ [c]) = TarStream 0 (fun _ => 0) [a].
Proof.
  intros a c.
  assert (H1 : all_ready (fun _ => 0) 0 ([a] ++ [c]) = true)
    by (vm_compute; reflexivity).
  assert (H2 : In (entry_path c) (map entry_path [a]))
    by (left; vm_compute; reflexivity).
  split; [exact H1|]. split; [exact H2|].
  exact (repeated_pathname_is_skipped 0 (fun _ => 0) [a] c H1 H2).
Defined.

End Duplicates.

Section Cancellation.

Ltac fields :=
  cbn [entries streaming idle input input_end header cancelled polling top
         body b_size b_i b_lock b_pulling b_state b_chunks b_leftover
         b_buffer e_readable e_pathname e_header].

Lemma body_in_end (es : list TarStreamEntry) (e : TarStreamEntry) :
  body_in (es ++ [e]) (List.length es) = e_readable e.
Proof.
  unfold body_in. rewrite nth_error_app2, Nat.sub_diag by lia. reflexivity.
Qed.

Lemma put_body_end (es : list TarStreamEntry) (e : TarStreamEntry)
    (b : body_stream) :
  put_body (List.length es) b (es ++ [e])
  = es ++ [{| e_pathname := e_pathname e; e_header := e_header e;
              e_readable := Some b |}].
Proof.
  induction es as [|x es IH]; [reflexivity|].
  cbn [List.length app put_body]. now rewrite IH.
Qed.

Lemma cancel_starts (bs : list bytes) (es : list TarStreamEntry)
    (hd : TarStreamHeader) (z i : Z) (cs : list bytes) :
  step (BodyCancel (List.length es))
    (streaming bs es hd (body z i false Open cs))
  = Some (streaming bs es hd (body z i false Cancelling cs)).
Proof.
  cbn [step]. unfold body_at. fields.
  rewrite body_in_end. fields. cbn [is_open].
  unfold update_body, set_entries. fields.
  rewrite put_body_end. fields. reflexivity.
Qed.

Lemma drain_skips_a_block (value : bytes) (bs : list bytes)
    (es : list TarStreamEntry) (hd : TarStreamHeader) (z i : Z)
    (cs : list bytes) :
  0 < i ->
  step (BodyDrain (List.length es))
    (streaming (value :: bs) es hd (body z i false Cancelling cs))
  = Some (streaming bs es hd (body z (i - 1) false Cancelling cs)).
Proof.
  intros Hi. cbn [step]. unfold body_at. fields.
  rewrite body_in_end. fields. cbn [is_cancelling negb andb].
  unfold body_drain, read, update_body, set_entries, set_header. fields.
  cbn [positive_num lt dec].
  destruct (Z.ltb_spec 0 i); [|lia].
  rewrite put_body_end. fields. reflexivity.
Qed.

Lemma drain_ends (bs : list bytes) (es : list TarStreamEntry)
    (hd : TarStreamHeader) (z i : Z) (cs : list bytes) :
  i <= 0 ->
  step (BodyDrain (List.length es))
    (streaming bs es hd (body z i false Cancelling cs))
  = Some (idle bs
            (es ++ [{| e_pathname := entry_pathname hd; e_header := hd;
                       e_readable :=
                         Some (body z (i - 1) false Cancelled cs) |}])).
Proof.
  intros Hi. cbn [step]. unfold body_at. fields.
  rewrite body_in_end. fields. cbn [is_cancelling negb andb].
  unfold body_drain, read, update_body, set_entries, set_header. fields.
  cbn [positive_num lt dec].
  destruct (Z.ltb_spec 0 i); [lia|].
  rewrite put_body_end. fields. reflexivity.
Qed.

Lemma drain_ends_early (es : list TarStreamEntry)
    (hd : TarStreamHeader) (z i : Z) (cs : list bytes) :
  0 < i ->
  step (BodyDrain (List.length es))
    (streaming [] es hd (body z i false Cancelling cs))
  = Some (idle []
            (es ++ [{| e_pathname := entry_pathname hd; e_header := hd;
                       e_readable :=
                         Some (body z (i - 1) false
                                 (CancelFailed "Tarball ended unexpectedly.")
                                 cs) |}])).
Proof.
  intros Hi. cbn [step]. unfold body_at. fields.
  rewrite body_in_end. fields. cbn [is_cancelling negb andb].
  unfold body_drain, read, update_body, set_entries, set_header. fields.
  cbn [positive_num lt dec].
  destruct (Z.ltb_spec 0 i); [|lia].
  rewrite put_body_end. fields. reflexivity.
Qed.

Lemma drains_skip (skipped : list bytes) :
  forall (rest : list bytes) (es : list TarStreamEntry)
         (hd : TarStreamHeader) (z i : Z) (cs : list bytes),
    i = len skipped ->
    run (repeat (BodyDrain (List.length es)) (S (List.length skipped)))
      (streaming (skipped ++ rest) es hd (body z i false Cancelling cs))
    = Some (idle rest
              (es ++ [{| e_pathname := entry_pathname hd; e_header := hd;
                         e_readable :=
                           Some (body z (-1) false Cancelled cs) |}])).
Proof.
  induction skipped as [|v skipped IH]; intros rest es hd z i cs Hi.
  - cbn [List.length repeat run app]. rewrite drain_ends by (subst; cbn; lia).
    subst i. reflexivity.
  - rewrite len_cons in Hi. pose proof (len_nonneg skipped).
    cbn [List.length]. cbn [repeat run app].
    rewrite drain_skips_a_block by lia.
    apply IH. lia.
Qed.

(** X10. Cancelling the stream of an entry, at any point between two of
    its pulls, makes the decoder read and drop the blocks of the body that
    are still unread: afterwards the stream is cancelled and the decoder is
    between two entries, in front of the block that follows the body. *)
Theorem cancel_skips_the_rest_of_the_body (skipped rest : list bytes)
    (es : list TarStreamEntry) (hd : TarStreamHeader) (z i : Z)
    (cs : list bytes) :
  i = len skipped ->
  run (BodyCancel (List.length es)
         :: repeat (BodyDrain (List.length es)) (S (List.length skipped)))
    (streaming (skipped ++ rest) es hd (body z i false Open cs))
  = Some (idle rest
            (es ++ [{| e_pathname := entry_pathname hd; e_header := hd;
                       e_readable :=
                         Some (body z (-1) false Cancelled cs) |}])).
Proof.
  intros Hi. cbn [run]. rewrite cancel_starts. now apply drains_skip.
Qed.

Lemma cancel_skips_witness :
  2 = len [[1]; [2]]
  /\ run (BodyCancel 0 :: repeat (BodyDrain 0) 3)
       (streaming ([[1]; [2]] ++ [[3]]) [] (parse_header [])
          (body 700 2 false Open []))
     = Some (idle [[3]]
               [{| e_pathname := entry_pathname (parse_header []);
                   e_header := parse_header [];
                   e_readable := Some (body 700 (-1) false Cancelled []) |}]).
Proof.
  split; [reflexivity|].
  exact (cancel_skips_the_rest_of_the_body [[1]; [2]] [[3]] []
           (parse_header []) 700 2 [] eq_refl).
Defined.

(** X11. When the archive ends before the blocks of a cancelled body have
    all been dropped, the cancellation fails with "Tarball ended
    unexpectedly." and the decoder is released all the same. *)
Theorem cancel_fails_on_a_short_archive (skipped : list bytes)
    (es : list TarStreamEntry) (hd : TarStreamHeader) (z i : Z)
    (cs : list bytes) :
  len skipped < i ->
  run (BodyCancel (List.length es)
         :: repeat (BodyDrain (List.length es)) (S (List.length skipped)))
    (streaming skipped es hd (body z i false Open cs))
  = Some (idle []
            (es ++ [{| e_pathname := entry_pathname hd; e_header := hd;
                       e_readable :=
                         Some (body z (i - len skipped - 1) false
                                 (CancelFailed "Tarball ended unexpectedly.")
                                 cs) |}])).
Proof.
  intros Hi. cbn [run]. rewrite cancel_starts.
  revert i Hi. induction skipped as [|v skipped IH]; intros i Hi.
  - cbn [List.length repeat run]. change (len (@nil bytes)) with 0 in *.
    rewrite drain_ends_early by lia. now rewrite Z.sub_0_r.
  - rewrite len_cons in *. pose proof (len_nonneg skipped).
    cbn [List.length]. cbn [repeat run].
    rewrite drain_skips_a_block by lia.
    replace (i - (len skipped + 1) - 1) with (i - 1 - len skipped - 1)
      by lia.
    apply IH. lia.
Qed.

Lemma cancel_fails_witness :
  len [[1]] < 2
  /\ run (BodyCancel 0 :: repeat (BodyDrain 0) 2)
       (streaming [[1]] [] (parse_header []) (body 700 2 false Open []))
     = Some (idle []
               [{| e_pathname := entry_pathname (parse_header []);
                   e_header := parse_header [];
                   e_readable :=
                     Some (body 700 (2 - len [[1]] - 1) false
                             (CancelFailed "Tarball ended unexpectedly.")
                             []) |}]).
Proof.
  split; [reflexivity|].
  exact (cancel_fails_on_a_short_archive [[1]] [] (parse_header []) 700 2 []
           eq_refl).
Defined.

(** X12. When the archive ends while the body of an entry still has blocks
    to come, the pull of that body errors its stream with "Tarball ended
    unexpectedly." and releases the decoder; the chunks handed out before
    are kept. *)
Theorem body_ends_with_the_archive (es : list TarStreamEntry)
    (hd : TarStreamHeader) (z i : Z) (cs : list bytes) :
  0 < i ->
  run [BodyPull (List.length es); BodyResume (List.length es)]
    (streaming [] es hd (body z i false Open cs))
  = Some (idle []
            (es ++ [{| e_pathname := entry_pathname hd; e_header := hd;
                       e_readable :=
                         Some {| b_size := Int z; b_i := Int i;
                                 b_lock := true; b_pulling := false;
                                 b_state :=
                                   Failed "Tarball ended unexpectedly.";
                                 b_chunks := cs; b_leftover := [];
                                 b_buffer := None |} |}])).
Proof.
  intros Hi. cbn [run].
  assert (H1 : step (BodyPull (List.length es))
                 (streaming [] es hd (body z i false Open cs))
               = Some (streaming [] es hd (body z i true Open cs))).
  { cbn [step]. unfold body_at. fields.
    rewrite body_in_end. fields. cbn [is_open negb andb].
    unfold body_pull, update_body, set_entries. fields.
    cbn [positive_num lt].
    destruct (Z.ltb_spec 0 i); [|lia].
    rewrite put_body_end. fields. reflexivity. }
  rewrite H1.
  cbn [step]. unfold body_at. fields.
  rewrite body_in_end. fields.
  unfold body_resume, read, update_body, set_entries, set_header. fields.
  cbn [is_open].
  rewrite put_body_end. fields. reflexivity.
Qed.

Lemma body_ends_with_the_archive_witness :
  0 < 2
  /\ run [BodyPull 0; BodyResume 0]
       (streaming [] [] (parse_header []) (body 700 2 false Open [[1]]))
     = Some (idle []
               [{| e_pathname := entry_pathname (parse_header []);
                   e_header := parse_header [];
                   e_readable :=
                     Some {| b_size := Int 700; b_i := Int 2;
                             b_lock := true; b_pulling := false;
                             b_state :=
                               Failed "Tarball ended unexpectedly.";
                             b_chunks := [[1]]; b_leftover := [];
                             b_buffer := None |} |}]).
Proof.
  split; [reflexivity|].
  exact (body_ends_with_the_archive [] (parse_header []) 700 2 [[1]]
           eq_refl).
Defined.

Lemma put_body_pathnames (k : nat) (b : body_stream)
    (es : list TarStreamEntry) :
  map e_pathname (put_body k b es) = map e_pathname es.
Proof.
  revert k. induction es as [|e es IH]; intros [|k]; cbn [put_body map];
    try reflexivity.
  now rewrite IH.
Qed.

(** X13. Once the stream of entries is closed or errored it stays so, and
    whatever happens afterwards hands out no further entry: the entries
    already handed out keep their pathnames and no entry is added. *)
Theorem closed_stream_hands_out_nothing (e : event) (d d' : decoder) :
  is_readable (top d) = false ->
  step e d = Some d' ->
  is_readable (top d') = false
  /\ map e_pathname (entries d') = map e_pathname (entries d).
Proof.
  intros Ht Hs.
  destruct d as [inp fin hd cl pol tp ents]. cbn [top] in Ht.
  destruct tp as [| |msg]; [discriminate Ht| |];
    (destruct e as [| | |k|k n|k|k|k]; cbn in Hs;
     repeat (match type of Hs with
             | context [match ?x with _ => _ end] => destruct x eqn:?
             end; cbn in Hs; try discriminate Hs);
     inversion Hs; subst; clear Hs;
     unfold proceed, body_pull, body_pull_into, body_close, body_resume,
       body_resume_into, body_drain, read, finish_top,
       update_body, set_entries, set_header, set_polling, set_top,
       cancel_reader;
     destruct inp as [|value rest]; destruct fin as [[]|m|]; cbn;
     repeat (match goal with
             | |- context [match ?x with _ => _ end] => destruct x eqn:?
             end; cbn);
     rewrite ?put_body_pathnames; auto).
Qed.

Lemma closed_stream_witness :
  let d := {| input := [[1]]; input_end := Ok tt; header := None;
              cancelled := true; polling := true; top := Closed;
              entries := [] |} in
  is_readable (top d) = false
  /\ exists d', step Proceed d = Some d'
                /\ is_readable (top d') = false
                /\ map e_pathname (entries d') = map e_pathname (entries d).
Proof.
  intros d. split; [reflexivity|].
  eexists. split; [reflexivity|].
  exact (closed_stream_hands_out_nothing Proceed d _ eq_refl eq_refl).
Defined.

End Cancellation.

Section Metadata.

Lemma slice_inside {A} (l : list A) (lo mid hi : Z) :
  0 <= lo <= mid -> mid <= hi ->
  slice l lo mid = firstn (Z.to_nat (mid - lo)) (slice l lo hi).
Proof.
  intros H1 H2. rewrite !slice_nat by lia.
  rewrite firstn_firstn. f_equal. lia.
Qed.

Lemma strip_nul_padEnd (n : nat) (s : jsstring) :
  strip_nul (padEnd n 0 s) = strip_nul s.
Proof.
  unfold strip_nul, padEnd. rewrite filter_app.
  assert (E : forall k, filter (fun u => negb (u =? 0)) (repeat 0 k) = [])
    by (induction k; simpl; auto).
  now rewrite E, app_nil_r.
Qed.

Variables (now : Z) (chunk : TarStreamInput) (q p : jsstring).
Hypothesis Hfits : fits now chunk = true.
Hypothesis Hq : plain q = true.
Hypothesis Hlq : (List.length (encode q) <= 155)%nat.
Hypothesis Hpath : path_ok p = true.

Lemma plain_parts :
  well_formed q = true /\ no_mark q = true
  /\ forallb (fun u => negb (u =? 0)) q = true.
Proof.
  unfold plain in Hq.
  apply andb_true_iff in Hq as [H Hn].
  apply andb_true_iff in H as [Hw Hm]. auto.
Qed.

Lemma metadata_field (k : nat) (f : bytes) (lo hi : Z) :
  nth_error (header_fields now chunk (encode q) (encode p)) k = Some f ->
  nth_error [0; 100; 108; 116; 124; 136; 148; 154; 156; 157; 257; 265;
             297; 329; 337; 345; 500] k = Some lo ->
  nth_error [100; 108; 116; 124; 136; 148; 154; 156; 157; 257; 265;
             297; 329; 337; 345; 500; 512] k = Some hi ->
  slice (full_header now chunk (encode q) (encode p)) lo hi = f.
Proof.
  destruct (path_ok_parts _ Hpath) as (Hw & Hm & Hn & Hl).
  destruct plain_parts as (Hwq & Hmq & Hnq).
  intros. eapply emitted_field; eassumption.
Qed.

Lemma fits_parts :
  narrow 6 (field_or (options chunk) mode
              (if typeflag_of chunk =? 53 then lit "755" else lit "644"))
  = true
  /\ narrow 6 (field_or (options chunk) uid []) = true
  /\ narrow 6 (field_or (options chunk) gid []) = true
  /\ (exists m, field_or (options chunk) mtime (Int now) = Int m
                /\ 0 <= m < 8 ^ 11)
  /\ narrow 32 (field_or (options chunk) uname []) = true
  /\ narrow 32 (field_or (options chunk) gname []) = true
  /\ narrow 8 (field_or (options chunk) devmajor []) = true
  /\ narrow 8 (field_or (options chunk) devminor []) = true.
Proof.
  pose proof Hfits as Hf. unfold fits in Hf.
  apply andb_true_iff in Hf as [Hf Hdmi].
  apply andb_true_iff in Hf as [Hf Hdma].
  apply andb_true_iff in Hf as [Hf Hgn].
  apply andb_true_iff in Hf as [Hf Hun].
  apply andb_true_iff in Hf as [Hf Hmt].
  apply andb_true_iff in Hf as [Hf _].
  apply andb_true_iff in Hf as [Hf Hgid].
  apply andb_true_iff in Hf as [Hmode Huid].
  repeat split; auto.
  destruct (field_or (options chunk) mtime (Int now)) as [m| | |];
    try discriminate.
  apply andb_true_iff in Hmt as [Hm0 Hm1].
  apply Z.leb_le in Hm0. apply Z.ltb_lt in Hm1.
  exists m. split; [reflexivity|lia].
Qed.

Lemma parse_digits (n : nat) (z : Z) :
  0 <= z -> parseInt8 (decode (padStart n 48 (octal_of_nonneg z))) = Int z.
Proof.
  intros Hz.
  pose proof (parse_padded n z [] Hz (or_introl eq_refl)) as H.
  pose proof (octal_padStart n _ (octal_of_nonneg_octal z Hz)) as Hoct.
  rewrite app_nil_r in H.
  rewrite decode_ascii in * by now apply octal_ascii.
  now rewrite trimEnd_octal in H.
Qed.

Lemma head_of_field (n : nat) (s tail : jsstring) :
  narrow n s = true ->
  firstn n (padStart n 48 s ++ tail) = padStart n 48 s.
Proof.
  intros H. apply narrow_spec in H as [_ Hl].
  apply firstn_app_l. now apply length_padStart.
Qed.

Let H := full_header now chunk (encode q) (encode p).

Lemma read_mode :
  h_mode (parse_header H)
  = padStart 6 48
      (field_or (options chunk) mode
         (if typeflag_of chunk =? 53 then lit "755" else lit "644")).
Proof.
  destruct fits_parts as (Hn & _).
  unfold parse_header. cbn [h_mode].
  rewrite (slice_inside H 100 106 108) by lia.
  unfold H.
  rewrite (metadata_field 1 _ 100 108 eq_refl eq_refl eq_refl).
  unfold mode_text. change (Z.to_nat (106 - 100)) with 6%nat.
  rewrite head_of_field by assumption.
  apply decode_ascii, ascii_padStart; [reflexivity|].
  now apply narrow_spec in Hn.
Qed.

Lemma read_uid :
  h_uid (parse_header H) = padStart 6 48 (field_or (options chunk) uid []).
Proof.
  destruct fits_parts as (_ & Hn & _).
  unfold parse_header. cbn [h_uid].
  rewrite (slice_inside H 108 114 116) by lia.
  unfold H.
  rewrite (metadata_field 2 _ 108 116 eq_refl eq_refl eq_refl).
  unfold uid_text. change (Z.to_nat (114 - 108)) with 6%nat.
  rewrite head_of_field by assumption.
  apply decode_ascii, ascii_padStart; [reflexivity|].
  now apply narrow_spec in Hn.
Qed.

Lemma read_gid :
  h_gid (parse_header H) = padStart 6 48 (field_or (options chunk) gid []).
Proof.
  destruct fits_parts as (_ & _ & Hn & _).
  unfold parse_header. cbn [h_gid].
  rewrite (slice_inside H 116 122 124) by lia.
  unfold H.
  rewrite (metadata_field 3 _ 116 124 eq_refl eq_refl eq_refl).
  unfold gid_text. change (Z.to_nat (122 - 116)) with 6%nat.
  rewrite head_of_field by assumption.
  apply decode_ascii, ascii_padStart; [reflexivity|].
  now apply narrow_spec in Hn.
Qed.

Lemma read_mtime :
  h_mtime (parse_header H) = field_or (options chunk) mtime (Int now).
Proof.
  destruct fits_parts as (_ & _ & _ & (m & Em & Hm) & _).
  unfold parse_header. cbn [h_mtime].
  rewrite (slice_inside H 136 147 148) by lia.
  unfold H.
  rewrite (metadata_field 5 _ 136 148 eq_refl eq_refl eq_refl).
  unfold mtime_text. rewrite Em.
  destruct (toString8_small 11 m ltac:(lia) ltac:(simpl; lia)) as [E Hn].
  change (Z.to_nat (147 - 136)) with 11%nat.
  rewrite head_of_field by assumption.
  rewrite E. apply parse_digits. lia.
Qed.

Lemma read_linkname : h_linkname (parse_header H) = [].
Proof.
  unfold parse_header. cbn [h_linkname]. unfold H.
  rewrite (metadata_field 9 _ 157 257 eq_refl eq_refl eq_refl).
  rewrite (decode_ascii (repeat 0 100)) by reflexivity.
  reflexivity.
Qed.

Lemma read_ustar :
  h_ustar (parse_header H)
  = Some {| h_magic := decode (slice H 257 263);
            h_version := decode (slice H 263 265);
            h_uname := strip_nul (field_or (options chunk) uname []);
            h_gname := strip_nul (field_or (options chunk) gname []);
            h_devmajor := strip_nul (field_or (options chunk) devmajor []);
            h_devminor := strip_nul (field_or (options chunk) devminor []);
            h_prefix := q |}.
Proof.
  destruct fits_parts as (_ & _ & _ & _ & Hun & Hgn & Hma & Hmi).
  destruct (path_ok_parts _ Hpath) as (_ & _ & _ & Hl).
  destruct plain_parts as (Hwq & Hmq & Hnq).
  apply narrow_spec in Hun as [Hun _]. apply narrow_spec in Hgn as [Hgn _].
  apply narrow_spec in Hma as [Hma _]. apply narrow_spec in Hmi as [Hmi _].
  unfold parse_header. cbn [h_ustar]. unfold H.
  rewrite (metadata_field 10 _ 257 265 eq_refl eq_refl eq_refl).
  change (str_eqb ustar_magic ustar_magic) with true. cbv iota.
  rewrite (metadata_field 11 _ 265 297 eq_refl eq_refl eq_refl).
  rewrite (metadata_field 12 _ 297 329 eq_refl eq_refl eq_refl).
  rewrite (metadata_field 13 _ 329 337 eq_refl eq_refl eq_refl).
  rewrite (metadata_field 14 _ 337 345 eq_refl eq_refl eq_refl).
  rewrite (metadata_field 15 _ 345 500 eq_refl eq_refl eq_refl).
  rewrite prefix_area_short by assumption.
  rewrite decode_encode_padded by assumption.
  rewrite strip_nul_padded by assumption.
  rewrite (decode_ascii (padEnd 32 0 (field_or (options chunk) uname [])))
    by (apply ascii_padEnd; auto).
  rewrite (decode_ascii (padEnd 32 0 (field_or (options chunk) gname [])))
    by (apply ascii_padEnd; auto).
  rewrite (decode_ascii (padEnd 8 0 (field_or (options chunk) devmajor [])))
    by (apply ascii_padEnd; auto).
  rewrite (decode_ascii (padEnd 8 0 (field_or (options chunk) devminor [])))
    by (apply ascii_padEnd; auto).
  now rewrite !strip_nul_padEnd.
Qed.

End Metadata.

(** X14. The options of a chunk come back from the header the encoder
    writes for it: when every option fits its field and the pathname fits
    the prefix and name fields, the decoder reads the mode, uid and gid
    zero-padded to six digits, the modification time (the clock when none
    is given), an empty link name, the prefix, and the user name, group
    name and device numbers without their NUL padding. *)
Theorem options_survive_the_header (now : Z) (chunk : TarStreamInput)
    (q p : jsstring) :
  fits now chunk = true ->
  plain q = true -> (List.length (encode q) <= 155)%nat ->
  path_ok p = true ->
  exists (block : bytes) (u : ustar_fields),
    make_header now chunk (encode q) (encode p) = Ok block
    /\ h_ustar (parse_header block) = Some u
    /\ h_mode (parse_header block)
       = padStart 6 48
           (field_or (options chunk) mode
              (if typeflag_of chunk =? 53 then lit "755" else lit "644"))
    /\ h_uid (parse_header block)
       = padStart 6 48 (field_or (options chunk) uid [])
    /\ h_gid (parse_header block)
       = padStart 6 48 (field_or (options chunk) gid [])
    /\ h_mtime (parse_header block)
       = field_or (options chunk) mtime (Int now)
    /\ h_linkname (parse_header block) = []
    /\ h_uname u = strip_nul (field_or (options chunk) uname [])
    /\ h_gname u = strip_nul (field_or (options chunk) gname [])
    /\ h_devmajor u = strip_nul (field_or (options chunk) devmajor [])
    /\ h_devminor u = strip_nul (field_or (options chunk) devminor [])
    /\ h_prefix u = q.
Proof.
  intros Hfits Hq Hlq Hpath.
  destruct (path_ok_parts _ Hpath) as (Hw & Hm & Hn & Hl).
  destruct (plain_parts q Hq) as (Hwq & Hmq & Hnq).
  eexists. eexists. split.
  { apply emitted_header; assumption. }
  split; [apply read_ustar; assumption|].
  cbn [h_uname h_gname h_devmajor h_devminor h_prefix].
  repeat split;
    auto using read_mode, read_uid, read_gid, read_mtime, read_linkname.
Qed.

Lemma options_survive_the_header_witness :
  let chunk :=
    File {| f_pathname := PathPair (lit "dir") (lit "a.txt"); size := Int 5;
            sizeExtension := false; iterable := [[1; 2; 3; 4; 5]];
            f_options :=
              Some {| mode := Some (lit "600"); uid := Some (lit "1750");
                      gid := None; mtime := Some (Int 1000);
                      uname := Some (lit "me"); gname := None;
                      devmajor := None; devminor := None |} |} in
  fits 0 chunk = true
  /\ plain (lit "dir") = true
  /\ (List.length (encode (lit "dir")) <= 155)%nat
  /\ path_ok (lit "a.txt") = true
  /\ exists (block : bytes) (u : ustar_fields),
       make_header 0 chunk (encode (lit "dir")) (encode (lit "a.txt"))
       = Ok block
       /\ h_ustar (parse_header block) = Some u
       /\ h_mode (parse_header block)
          = padStart 6 48
              (field_or (options chunk) mode
                 (if typeflag_of chunk =? 53 then lit "755" else lit "644"))
       /\ h_uid (parse_header block)
          = padStart 6 48 (field_or (options chunk) uid [])
       /\ h_gid (parse_header block)
          = padStart 6 48 (field_or (options chunk) gid [])
       /\ h_mtime (parse_header block)
          = field_or (options chunk) mtime (Int 0)
       /\ h_linkname (parse_header block) = []
       /\ h_uname u = strip_nul (field_or (options chunk) uname [])
       /\ h_gname u = strip_nul (field_or (options chunk) gname [])
       /\ h_devmajor u = strip_nul (field_or (options chunk) devmajor [])
       /\ h_devminor u = strip_nul (field_or (options chunk) devminor [])
       /\ h_prefix u = lit "dir".
Proof.
  intros chunk.
  assert (H1 : fits 0 chunk = true) by (vm_compute; reflexivity).
  assert (H2 : plain (lit "dir") = true) by (vm_compute; reflexivity).
  assert (H3 : (List.length (encode (lit "dir")) <= 155)%nat)
    by (apply Nat.leb_le; vm_compute; reflexivity).
  assert (H4 : path_ok (lit "a.txt") = true) by (vm_compute; reflexivity).
  split; [exact H1|]. split; [exact H2|]. split; [exact H3|].
  split; [exact H4|].
  exact (options_survive_the_header 0 chunk (lit "dir") (lit "a.txt")
           H1 H2 H3 H4).
Defined.

Section Byob.

Lemma slice_head {A} (l : list A) (n : nat) :
  slice l 0 (Z.of_nat n) = firstn n l.
Proof.
  pose proof (len_nonneg l).
  rewrite slice_nat by lia. rewrite Z.sub_0_r, Nat2Z.id.
  reflexivity.
Qed.

Lemma slice_tail {A} (l : list A) (n : nat) :
  (n <= List.length l)%nat -> slice_from l (Z.of_nat n) = skipn n l.
Proof.
  intros Hn. unfold slice_from.
  rewrite slice_nat by (unfold len; lia).
  rewrite Nat2Z.id. apply firstn_all2. rewrite length_skipn.
  unfold len. lia.
Qed.

Lemma fill_keeps_the_bytes (n : nat) (chunks : list bytes) :
  forall (written kept : bytes) (fin : result unit) (v : bytes)
         (s' : source),
    (List.length written <= n)%nat ->
    fill n written kept chunks fin = (Respond v, s') ->
    List.length v = n
    /\ v ++ leftover s' ++ concat (pending s') = written ++ concat chunks
    /\ ending s' = fin.
Proof.
  induction chunks as [|value rest IH]; intros written kept fin v s' Hw;
    cbn [fill].
  - destruct (Nat.ltb_spec (List.length written) n) as [Hlt|Hge].
    + destruct fin as [[]| |]; discriminate.
    + intros E. inversion E; subst. cbn [leftover pending ending].
      split; [lia|]. split; reflexivity.
  - destruct (Nat.ltb_spec (List.length written) n) as [Hlt|Hge].
    + destruct (Nat.ltb_spec (n - List.length written) (List.length value))
        as [Hbig|Hfit].
      * intros E. inversion E; subst. cbn [leftover pending ending].
        rewrite slice_head, slice_tail by lia.
        split; [rewrite length_app, length_firstn; lia|].
        split; [|reflexivity].
        rewrite concat_cons, <- !app_assoc. f_equal.
        now rewrite !app_assoc, firstn_skipn.
      * intros E. apply IH in E; [|rewrite length_app; lia].
        destruct E as (E1 & E2 & E3).
        split; [exact E1|]. split; [|exact E3].
        rewrite E2, concat_cons. now rewrite <- app_assoc.
    + intros E. inversion E; subst. cbn [leftover pending ending].
      split; [lia|]. split; reflexivity.
Qed.

Lemma fill_to_the_end (n : nat) (chunks : list bytes) :
  forall (written kept : bytes) (fin : result unit) (v : bytes)
         (s' : source),
    fill n written kept chunks fin = (RespondAndClose v, s') ->
    v = written ++ concat chunks /\ (List.length v < n)%nat
    /\ fin = Ok tt.
Proof.
  induction chunks as [|value rest IH]; intros written kept fin v s';
    cbn [fill].
  - destruct (Nat.ltb_spec (List.length written) n) as [Hlt|Hge];
      [|discriminate].
    destruct fin as [[]| |]; try discriminate.
    intros E. inversion E; subst. rewrite concat_nil, app_nil_r. auto.
  - destruct (Nat.ltb_spec (List.length written) n) as [Hlt|Hge];
      [|discriminate].
    destruct (n - List.length written <? List.length value)%nat;
      [discriminate|].
    intros E. apply IH in E. destruct E as (E1 & E2 & E3).
    split; [|split; assumption].
    rewrite E1, concat_cons. now rewrite <- app_assoc.
Qed.

Lemma byob_pull_keeps_the_bytes (n : nat) (s s' : source) (v : bytes) :
  byob_pull n s = (Respond v, s') ->
  List.length v = n
  /\ v ++ leftover s' ++ concat (pending s')
     = leftover s ++ concat (pending s)
  /\ ending s' = ending s.
Proof.
  unfold byob_pull.
  destruct (Nat.ltb_spec n (List.length (leftover s))) as [Hlt|Hge].
  - intros E. inversion E; subst. cbn [leftover pending ending].
    rewrite slice_head, slice_tail by lia.
    split; [rewrite length_firstn; lia|]. split; [|reflexivity].
    now rewrite app_assoc, firstn_skipn.
  - intros E. now apply fill_keeps_the_bytes in E.
Qed.

(** X15. A BYOB pull of the encoder that does not end the stream fills the
    whole buffer it was offered, and loses no byte and changes no order:
    the bytes it wrote, followed by what the source keeps for later, are
    the bytes the source held before. *)
Theorem byob_pull_fills_the_buffer (n : nat) (s s' : source) (v : bytes) :
  byob_pull n s = (Respond v, s') ->
  List.length v = n
  /\ v ++ leftover s' ++ concat (pending s')
     = leftover s ++ concat (pending s)
  /\ ending s' = ending s.
Proof. apply byob_pull_keeps_the_bytes. Qed.

Lemma byob_pull_fills_witness :
  let s := {| leftover := [1; 2]; pending := [[3; 4; 5]; [6]];
              ending := Ok tt |} in
  exists v s',
    byob_pull 4 s = (Respond v, s')
    /\ List.length v = 4%nat
    /\ v ++ leftover s' ++ concat (pending s')
       = leftover s ++ concat (pending s)
    /\ ending s' = ending s.
Proof.
  intros s. eexists. eexists. split; [vm_compute; reflexivity|].
  apply (byob_pull_fills_the_buffer 4 s). vm_compute. reflexivity.
Defined.

Lemma byob_reads_all (ns : list nat) :
  forall (s : source) (vs : list bytes),
    byob_reads ns s = (vs, Some (Ok tt)) ->
    concat vs = leftover s ++ concat (pending s).
Proof.
  induction ns as [|n ns IH]; intros s vs; cbn [byob_reads];
    [discriminate|].
  destruct (byob_pull n s) as [[v|v|m|] s'] eqn:Ep; try discriminate.
  - destruct (byob_reads ns s') as [vs' e] eqn:Er.
    intros E. inversion E; subst.
    apply IH in Er. apply byob_pull_keeps_the_bytes in Ep.
    destruct Ep as (_ & Ep & _). cbn [concat]. now rewrite Er.
  - intros E. inversion E; subst. cbn [concat]. rewrite app_nil_r.
    unfold byob_pull in Ep.
    destruct (n <? List.length (leftover s))%nat; [discriminate|].
    now apply fill_to_the_end in Ep.
Qed.

Lemma byob_reads_end (ns : list nat) :
  forall (s : source) (vs : list bytes),
    byob_reads ns s = (vs, Some (Ok tt)) -> ending s = Ok tt.
Proof.
  induction ns as [|n ns IH]; intros s vs; cbn [byob_reads];
    [discriminate|].
  destruct (byob_pull n s) as [[v|v|m|] s'] eqn:Ep; try discriminate.
  - destruct (byob_reads ns s') as [vs' e] eqn:Er.
    intros E. inversion E; subst.
    apply IH in Er. apply byob_pull_keeps_the_bytes in Ep.
    destruct Ep as (_ & _ & Ep). congruence.
  - intros _. unfold byob_pull in Ep.
    destruct (n <? List.length (leftover s))%nat; [discriminate|].
    apply fill_to_the_end in Ep. tauto.
Qed.

Lemma fill_settles (n : nat) (chunks : list bytes) :
  forall (written kept : bytes),
    exists v s',
      fill n written kept chunks (Ok tt) = (Respond v, s')
      \/ fill n written kept chunks (Ok tt) = (RespondAndClose v, s').
Proof.
  induction chunks as [|value rest IH]; intros written kept; cbn [fill].
  - destruct (List.length written <? n)%nat; eauto.
  - destruct (List.length written <? n)%nat; eauto.
    destruct (n - List.length written <? List.length value)%nat; eauto.
Qed.

Lemma byob_reads_reach_the_end (ns : list nat) :
  forall s : source,
    ending s = Ok tt ->
    (List.length (leftover s ++ concat (pending s)) < list_sum ns)%nat ->
    exists vs, byob_reads ns s = (vs, Some (Ok tt)).
Proof.
  induction ns as [|n ns IH]; intros s Hend Hsum;
    [change (list_sum []) with 0%nat in Hsum; lia|].
  change (list_sum (n :: ns)) with (n + list_sum ns)%nat in Hsum.
  cbn [byob_reads].
  destruct (byob_pull n s) as [[v|v|m|] s'] eqn:Ep.
  - pose proof (byob_pull_keeps_the_bytes n s s' v Ep) as (Hv & Hcat & He).
    destruct (IH s') as [vs Hvs]; [congruence| |].
    + apply (f_equal (@List.length Z)) in Hcat.
      rewrite length_app in Hcat. lia.
    + rewrite Hvs. eauto.
  - eauto.
  - exfalso. unfold byob_pull in Ep.
    destruct (n <? List.length (leftover s))%nat; [discriminate|].
    rewrite Hend in Ep.
    destruct (fill_settles n (pending s) (leftover s) (leftover s))
      as (v & s0 & [E|E]); congruence.
  - exfalso. unfold byob_pull in Ep.
    destruct (n <? List.length (leftover s))%nat; [discriminate|].
    rewrite Hend in Ep.
    destruct (fill_settles n (pending s) (leftover s) (leftover s))
      as (v & s0 & [E|E]); congruence.
Qed.



End Byob.

Section Normalization.

(** A segment of a normalized pathname: not empty, and without a slash. *)
Definition segment (g : jsstring) : Prop := g <> [] /\ ~ In 47 g.

Lemma split_slash_segments (s : jsstring) :
  Forall (fun g => ~ In 47 g) (split_slash s).
Proof.
  induction s as [|c r IH]; cbn [split_slash].
  - constructor; [intros []|constructor].
  - destruct (Z.eqb_spec c 47) as [->|Hc].
    + constructor; [intros []|exact IH].
    + destruct (split_slash r) as [|seg segs].
      * constructor; [|constructor]. intros [H|[]]. congruence.
      * inversion IH; subst. constructor; [|assumption].
        intros [H|H]; [congruence|contradiction].
Qed.

Lemma kept_segments (s : jsstring) :
  Forall segment (filter nonempty (split_slash s)).
Proof.
  pose proof (split_slash_segments s) as H.
  induction H as [|g l Hg _ IH]; cbn [filter]; [constructor|].
  destruct g as [|c g]; cbn [nonempty]; [exact IH|].
  constructor; [|exact IH]. split; [discriminate|exact Hg].
Qed.

Lemma strip_dot_slash (p : jsstring) :
  match p with
  | 46 :: 47 :: r => r
  | _ => p
  end
  = match p with
    | a :: b :: r => if (a =? 46) && (b =? 47) then r else p
    | _ => p
    end.
Proof.
  destruct p as [|a [|b r]]; [reflexivity| |].
  - destruct a as [|pa|pa]; try reflexivity.
    do 6 (destruct pa as [pa|pa|]; try reflexivity).
  - destruct (Z.eqb_spec a 46) as [->|Ha].
    + destruct (Z.eqb_spec b 47) as [->|Hb]; [reflexivity|].
      cbn [andb].
      destruct b as [|pb|pb]; try reflexivity.
      do 6 (destruct pb as [pb|pb|]; try reflexivity); congruence.
    + cbn [andb].
      destruct a as [|pa|pa]; try reflexivity.
      do 6 (destruct pa as [pa|pa|]; try reflexivity); congruence.
Qed.

(** X17. A normalized pathname is made of non-empty segments without a
    slash, joined by single slashes, followed by one slash for a
    directory: it has no empty segment, so no doubled slash and, when any
    segment is left, no leading slash. *)
Theorem normalized_pathname_has_no_empty_segment (s : jsstring)
    (isDirectory : bool) :
  exists segs,
    Forall segment segs
    /\ normalize s isDirectory
       = join_slash segs ++ (if isDirectory then [47] else []).
Proof.
  unfold normalize. rewrite strip_dot_slash.
  pose proof (kept_segments s) as H.
  set (segs := filter nonempty (split_slash s)) in *.
  assert (E : exists segs',
             Forall segment segs'
             /\ match join_slash segs with
                | a :: b :: r => if (a =? 46) && (b =? 47) then r
                                 else join_slash segs
                | _ => join_slash segs
                end = join_slash segs').
  { destruct (join_slash segs) as [|a [|b r]] eqn:Ej;
      try (exists segs; split; [exact H|now rewrite Ej]).
    destruct (Z.eqb_spec a 46) as [->|Ha];
      [|exists segs; split; [exact H|now rewrite Ej]].
    destruct (Z.eqb_spec b 47) as [->|Hb];
      [|exists segs; split; [exact H|now rewrite Ej]].
    cbn [andb].
    destruct segs as [|x [|y rest]]; cbn [join_slash] in Ej.
    - discriminate.
    - subst x. inversion H as [|? ? [_ Hx] _]; subst.
      exfalso. apply Hx. right. left. reflexivity.
    - inversion H as [|? ? [Hne Hx] Hrest]; subst.
      exists (y :: rest). split; [exact Hrest|].
      destruct x as [|c [|c' x]]; [congruence| |].
      + cbn [app] in Ej. now inversion Ej.
      + cbn [app] in Ej. inversion Ej; subst.
        exfalso. apply Hx. right. left. reflexivity. }
  destruct E as (segs' & Hs & E). exists segs'. split; [exact Hs|].
  rewrite E. destruct isDirectory; [reflexivity|now rewrite app_nil_r].
Qed.

End Normalization.

Section Long_pathnames.

(** ['x' x 100 + '/' + 'y' x 50] *)
Definition path_100_50 : jsstring := repeat 120 100 ++ 47 :: repeat 121 50.

(** X18. The split of a long pathname never comes back: for every pathname
    whose normalized encoding has 101 to 256 bytes and whose last slash,
    not the first byte, is followed by at most 100 code units and at most
    101 bytes, the backward scan of [parsePathname] returns to that slash
    at every turn, so that the function neither returns nor throws,
    whatever the number of turns allowed. *)
Theorem scan_of_a_long_pathname_never_ends (pathname : jsstring)
    (isDirectory : bool) :
  let p := normalize pathname isDirectory in
  let name := encode p in
  100 < len name <= 256 ->
  0 < lastIndexOf 47 name ->
  len (slice_from p (lastIndexOf 47 name + 1)) <= 100 ->
  len name - lastIndexOf 47 name - 2 <= 100 ->
  forall fuel, parsePathname fuel pathname isDirectory = Timeout.
Proof. exact (parsePathname_diverges pathname isDirectory). Qed.

Lemma scan_of_a_long_pathname_witness :
  let p := normalize path_100_50 false in
  let name := encode p in
  100 < len name <= 256
  /\ 0 < lastIndexOf 47 name
  /\ len (slice_from p (lastIndexOf 47 name + 1)) <= 100
  /\ len name - lastIndexOf 47 name - 2 <= 100
  /\ forall fuel, parsePathname fuel path_100_50 false = Timeout.
Proof.
  intros p name.
  assert (H1 : 100 < len name <= 256) by (vm_compute; intuition congruence).
  assert (H2 : 0 < lastIndexOf 47 name) by (vm_compute; reflexivity).
  assert (H3 : len (slice_from p (lastIndexOf 47 name + 1)) <= 100)
    by (vm_compute; congruence).
  assert (H4 : len name - lastIndexOf 47 name - 2 <= 100)
    by (vm_compute; congruence).
  split; [exact H1|]. split; [exact H2|]. split; [exact H3|].
  split; [exact H4|].
  exact (scan_of_a_long_pathname_never_ends path_100_50 false H1 H2 H3 H4).
Defined.

End Long_pathnames.

Section Stuck_lock.

(** The stream of entry [k] is being cancelled while [lock] is set and no
    pull is suspended: nothing will reset [lock]. *)
Definition stuck (k : nat) (d : decoder) : Prop :=
  exists b,
    body_at k d = Some b /\ b_state b = Cancelling /\ b_lock b = true
    /\ b_pulling b = false /\ header d <> None
    /\ S k = List.length (entries d).

Lemma stuck_step (k : nat) (d d' : decoder) (e : event) :
  invariant d -> stuck k d -> step e d = Some d' -> stuck k d'.
Proof.
  intros Hinv (b & Hk & Hst & Hlk & Hpl & Hh & Hlast) Hstep.
  assert (Hnot : forall k' b', body_at k' d = Some b' ->
                               released b' = false -> k' = k /\ b' = b)
    by (intros k' b' Hk' Hr; now apply (only_the_last d k k' b b')).
  destruct e as [| | |k'|k' n|k'|k'|k']; cbn [step] in Hstep.
  - destruct (is_readable (top d) && negb (polling d)); inversion Hstep.
    exists b. unfold body_at in *. cbn [header entries set_polling]. tauto.
  - destruct (polling d); [|discriminate].
    destruct (header d); [discriminate|congruence].
  - destruct (is_readable (top d)); inversion Hstep.
    exists b. unfold body_at in *. cbn [header entries]. tauto.
  - destruct (body_at k' d) as [b'|] eqn:Hk'; [|discriminate].
    destruct (is_open (b_state b')) eqn:Ho; [|discriminate].
    destruct (Hnot _ _ Hk' (open_not_released _ Ho)) as [-> ->].
    rewrite Hst in Ho. discriminate.
  - destruct (body_at k' d) as [b'|] eqn:Hk'; [|discriminate].
    destruct (is_open (b_state b')) eqn:Ho; [|discriminate].
    destruct (Hnot _ _ Hk' (open_not_released _ Ho)) as [-> ->].
    rewrite Hst in Ho. discriminate.
  - destruct (body_at k' d) as [b'|] eqn:Hk'; [|discriminate].
    destruct (b_pulling b') eqn:Hp; [|discriminate].
    destruct (Hnot _ _ Hk'
                (pulling_not_released _ _ _ _ _ (Hinv _ _ Hk') Hp))
      as [-> ->].
    congruence.
  - destruct (body_at k' d) as [b'|] eqn:Hk'; [|discriminate].
    destruct (is_open (b_state b')) eqn:Ho; [|discriminate].
    destruct (Hnot _ _ Hk' (open_not_released _ Ho)) as [-> ->].
    rewrite Hst in Ho. discriminate.
  - destruct (body_at k' d) as [b'|] eqn:Hk'; [|discriminate].
    destruct (is_cancelling (b_state b')) eqn:Hc; [|discriminate].
    destruct (Hnot _ _ Hk' (cancelling_not_released _ Hc)) as [-> ->].
    rewrite Hlk in Hstep. discriminate.
Qed.

Lemma stuck_run (k : nat) (evs : list event) :
  forall d d',
    reachable d -> stuck k d -> run evs d = Some d' -> stuck k d'.
Proof.
  induction evs as [|e evs IH]; intros d d' Hreach Hs Hrun.
  - inversion Hrun; subst. exact Hs.
  - cbn [run] in Hrun. destruct (step e d) as [d1|] eqn:Hstep;
      [|discriminate].
    apply (IH d1 d'); [eapply reach_step; eassumption| |exact Hrun].
    eapply stuck_step; [apply reachable_invariant| |]; eassumption.
Qed.

(** X19. A BYOB pull that is answered from [leftover] alone returns with
    [lock] still set.  When the stream is cancelled next, its [cancel]
    waits for [lock] for ever: whatever happens afterwards, [header] is
    never released, and so the top-level [pull] never parses another
    header and the decoder hands out no further entry. *)
Theorem cancel_after_a_leftover_answer_never_ends (d : decoder) (k n : nat)
    (b : body_stream) (evs : list event) (d' : decoder) :
  reachable d ->
  body_at k d = Some b ->
  positive_num (b_i b) = true ->
  (n < List.length (b_leftover b))%nat ->
  run (BodyPullInto k n :: BodyCancel k :: evs) d = Some d' ->
  header d' <> None
  /\ List.length (entries d') = List.length (entries d)
  /\ exists b', body_at k d' = Some b' /\ b_state b' = Cancelling.
Proof.
  intros Hreach Hk Hpos Hn Hrun.
  pose proof (reachable_invariant d Hreach) as Hinv.
  pose proof (Hinv _ _ Hk) as Hok.
  cbn [run] in Hrun.
  destruct (step (BodyPullInto k n) d) as [d1|] eqn:H1; [|discriminate].
  destruct (step (BodyCancel k) d1) as [d2|] eqn:H2; [|discriminate].
  assert (Hr1 : reachable d1) by (eapply reach_step; eassumption).
  assert (Hr2 : reachable d2) by (eapply reach_step; eassumption).
  cbn [step] in H1. rewrite Hk in H1.
  destruct (is_open (b_state b)) eqn:Ho; [|discriminate].
  destruct (negb (b_pulling b)) eqn:Hp; [|discriminate].
  destruct (0 <? n)%nat; [|discriminate]. cbn [andb] in H1.
  inversion H1; subst d1; clear H1.
  unfold body_pull_into in H2, Hr1. rewrite Hpos in H2, Hr1.
  apply Nat.ltb_lt in Hn. rewrite Hn in H2, Hr1.
  cbn [step] in H2.
  rewrite (body_at_update k k b _ d d Hk eq_refl), Nat.eqb_refl in H2.
  cbn [b_state] in H2. rewrite Ho in H2.
  inversion H2; subst d2; clear H2.
  destruct (ok_last _ _ _ _ _ Hok (open_not_released b Ho)) as [Hlast _].
  assert (Hb : busy b = true) by (unfold busy; now rewrite Ho).
  pose proof (ok_busy _ _ _ _ _ Hok Hb) as Hh.
  match type of Hrun with
  | run evs ?d2 = _ => assert (Hs : stuck k d2)
  end.
  { eexists.
    rewrite (body_at_update k k _ _ _ _
               (eq_trans (body_at_update k k b _ d d Hk eq_refl)
                  (f_equal (fun c : bool => if c then _ else _)
                     (Nat.eqb_refl k))) eq_refl), Nat.eqb_refl.
    split; [reflexivity|].
    rewrite !length_entries_update.
    unfold update_body, set_entries. cbn [header b_state b_lock b_pulling].
    auto. }
  destruct (stuck_run k evs _ d' Hr2 Hs Hrun)
    as (b' & Hk' & Hst' & _ & _ & Hh' & Hl').
  split; [exact Hh'|]. split; [lia|]. exists b'. auto.
Qed.

Lemma run_reachable (evs : list event) :
  forall d d', reachable d -> run evs d = Some d' -> reachable d'.
Proof.
  induction evs as [|e evs IH]; intros d d' Hreach Hrun.
  - inversion Hrun; subst. exact Hreach.
  - cbn [run] in Hrun. destruct (step e d) as [d1|] eqn:Hstep;
      [|discriminate].
    apply (IH d1 d'); [eapply reach_step; eassumption|exact Hrun].
Qed.

(** The decoder of the archive of one file of 600 bytes, once a BYOB reader
    has got a first view of 100 bytes of its body: 412 bytes of the block
    that was read are kept in [leftover]. *)
Definition archive_600 : list bytes * result unit :=
  TarStream 0 (fun _ => 0)
    [File {| f_pathname := PathString (lit "a.bin"); size := Int 600;
             sizeExtension := false; iterable := [repeat 7 600%nat];
             f_options := None |}].

Definition after_a_first_view : decoder :=
  match run [Pull; Proceed; BodyPullInto 0 100; BodyResume 0]
          (UnTarStream (fst archive_600) (snd archive_600)) with
  | Some d => d
  | None => UnTarStream [] (Ok tt)
  end.

Lemma cancel_after_a_leftover_answer_witness :
  exists b d',
    reachable after_a_first_view
    /\ body_at 0 after_a_first_view = Some b
    /\ positive_num (b_i b) = true
    /\ (50 < List.length (b_leftover b))%nat
    /\ run [BodyPullInto 0 50; BodyCancel 0; Pull] after_a_first_view
       = Some d'
    /\ header d' <> None
    /\ List.length (entries d') = List.length (entries after_a_first_view)
    /\ exists b', body_at 0 d' = Some b' /\ b_state b' = Cancelling.
Proof.
  assert (H0 : reachable after_a_first_view).
  { apply (run_reachable [Pull; Proceed; BodyPullInto 0 100; BodyResume 0]
             (UnTarStream (fst archive_600) (snd archive_600)));
      [apply reach_start|].
    vm_compute. reflexivity. }
  eexists. eexists.
  split; [exact H0|].
  split; [vm_compute; reflexivity|].
  split; [vm_compute; reflexivity|].
  split; [apply Nat.ltb_lt; vm_compute; reflexivity|].
  split; [vm_compute; reflexivity|].
  eapply (cancel_after_a_leftover_answer_never_ends after_a_first_view
            0 50 _ [Pull]).
  - exact H0.
  - vm_compute. reflexivity.
  - vm_compute. reflexivity.
  - apply Nat.ltb_lt. vm_compute. reflexivity.
  - vm_compute. reflexivity.
Defined.

End Stuck_lock.
